(** * Proxy view: crossing detection and marker placement

    A shallow embedding of the geometric core of the proxy view
    ([proxy-view-bezier.ts] and the [ProxyView] class built on it) together
    with the properties stated about it.

    JavaScript numbers are modelled by the real numbers [R].  The places
    where a JavaScript computation leaves the reals are written out where
    they occur: [Math.sqrt] of a negative number is [NaN] (see [Math_sqrt]),
    reading a field of [undefined] throws, and [Math.min()] of no argument
    is [Infinity].  A computation of type [option A] returns [None] exactly
    when the script would throw or produce such a non-real number.

    The real numbers do not round.  The zero tests of [roots] read rounded
    numbers, and the branch that the solver takes depends on them, so the
    solver is embedded a second time on binary64 numbers (module [Double]).
    What is stated of the roots that the script returns is stated there;
    the embedding on [R] carries the properties of the proxy view that do
    not depend on where the roots lie. *)

From Stdlib Require Import PrimFloat.
From Stdlib Require Import String Reals Lra Lia Psatz Bool Arith ZArith List.
From Equations Require Import Equations.
Import ListNotations.

Open Scope R_scope.

(** ** Numbers *)

Definition leb_num (a b : R) : bool := if Rle_dec a b then true else false.
Definition ltb_num (a b : R) : bool := if Rlt_dec a b then true else false.
Definition eqb_num (a b : R) : bool := if Req_dec_T a b then true else false.

Infix "<=?" := leb_num (at level 70, no associativity) : R_scope.
Infix "<?" := ltb_num (at level 70, no associativity) : R_scope.
Infix "=?" := eqb_num (at level 70, no associativity) : R_scope.
Notation "a >=? b" := (leb_num b a) (at level 70, no associativity) : R_scope.
Notation "a >? b" := (ltb_num b a) (at level 70, no associativity) : R_scope.

(** [Math.sqrt]: [None] stands for [NaN]. *)
Definition Math_sqrt (v : R) : option R :=
  if Rlt_dec v 0 then None else Some (sqrt v).

(** [Math.pow] on a base that is not negative and a positive exponent, the
    only way [crt] calls it. *)
Definition Math_pow (v e : R) : R :=
  if Req_dec_T v 0 then 0 else Rpower v e.

(** [Math.atan2], by the quadrant of [(x, y)]. *)
Definition Math_atan2 (y x : R) : R :=
  if Rlt_dec 0 x then atan (y / x)
  else if Rlt_dec x 0 then
         if Rle_dec 0 y then atan (y / x) + PI else atan (y / x) - PI
  else if Rlt_dec 0 y then PI / 2
  else if Rlt_dec y 0 then - (PI / 2)
  else 0.

(** ** Data model *)

Module Point.
Record t : Type := mk { x : R; y : R }.
End Point.
Abbreviation Point := Point.t.

Module Bounds.
Record t : Type := mk { x : R; y : R; width : R; height : R }.
End Bounds.
Abbreviation Bounds := Bounds.t.

Module Line.
Record t : Type := mk { p1 : Point; p2 : Point }.
End Line.
Abbreviation Line := Line.t.

Module Sides.
Inductive t : Type := N | E | S | W.

Definition eqb (a b : t) : bool :=
  match a, b with
  | N, N | E, E | S, S | W, W => true
  | _, _ => false
  end.
End Sides.
Abbreviation Sides := Sides.t.

Module Anchors.
Inductive t : Type := towardsMiddle | center | towardsEdge | topLeft.

Definition eqb (a b : t) : bool :=
  match a, b with
  | towardsMiddle, towardsMiddle | center, center
  | towardsEdge, towardsEdge | topLeft, topLeft => true
  | _, _ => false
  end.
End Anchors.
Abbreviation Anchors := Anchors.t.

(** ** The Bezier root solver ([proxy-view-bezier.ts]) *)

(** The function [d] that [align] maps over the points. *)
Definition align_point (line : Line) (v : Point) : Point :=
  let tx := Point.x (Line.p1 line) in
  let ty := Point.y (Line.p1 line) in
  let a := - Math_atan2 (Point.y (Line.p2 line) - ty) (Point.x (Line.p2 line) - tx) in
  Point.mk ((Point.x v - tx) * cos a - (Point.y v - ty) * sin a)
           ((Point.x v - tx) * sin a + (Point.y v - ty) * cos a).

Definition align (points : list Point) (line : Line) : list Point :=
  map (align_point line) points.

Definition crt (v : R) : R :=
  if v <? 0 then - Math_pow (- v) (1 / 3) else Math_pow v (1 / 3).

(** The root filter of [roots]. *)
Definition reduce (t : R) : bool := (0 <=? t) && (t <=? 1).

(** The body of [roots] once the four aligned ordinates are read. *)
Definition roots_of (pa pb pc pd : R) : list R :=
  let d := - pa + 3 * pb - 3 * pc + pd in
  let a := 3 * pa - 6 * pb + 3 * pc in
  let b := - 3 * pa + 3 * pb in
  let c := pa in
  if d =? 0 then
    if a =? 0 then
      if b =? 0 then []
      else filter reduce [- c / b]
    else
      match Math_sqrt (b * b - 4 * a * c) with
      | None => [] (* q is NaN, so are both candidates, and reduce rejects NaN *)
      | Some q =>
          let a2 := 2 * a in
          filter reduce [(q - b) / a2; (- b - q) / a2]
      end
  else
    let a := a / d in
    let b := b / d in
    let c := c / d in
    let p := (3 * b - a * a) / 3 in
    let p3 := p / 3 in
    let q := (2 * a * a * a - 9 * a * b + 27 * c) / 27 in
    let q2 := q / 2 in
    let discriminant := q2 * q2 + p3 * p3 * p3 in
    if discriminant <? 0 then
      let mp3 := - p / 3 in
      let mp33 := mp3 * mp3 * mp3 in
      match Math_sqrt mp33 with
      | None => [] (* NaN propagates to x1, x2, x3 *)
      | Some r =>
          let t := - q / (2 * r) in
          let cosphi := if t <? -1 then -1 else if t >? 1 then 1 else t in
          let phi := acos cosphi in
          let crtr := crt r in
          let t1 := 2 * crtr in
          let x1 := t1 * cos (phi / 3) - a / 3 in
          let x2 := t1 * cos ((phi + 2 * PI) / 3) - a / 3 in
          let x3 := t1 * cos ((phi + 2 * 2 * PI) / 3) - a / 3 in
          filter reduce [x1; x2; x3]
      end
    else if discriminant =? 0 then
      let u1 := if q2 <? 0 then crt (- q2) else - crt q2 in
      let x1 := 2 * u1 - a / 3 in
      let x2 := - u1 - a / 3 in
      filter reduce [x1; x2]
    else
      match Math_sqrt discriminant with
      | None => []
      | Some sd =>
          let u1 := crt (- q2 + sd) in
          let v1 := crt (q2 + sd) in
          filter reduce [u1 - v1 - a / 3]
      end.

(** [roots]: reading [aligned[0..3]] throws when there are fewer than four
    points. *)
Definition roots (points : list Point) (line : Line) : option (list R) :=
  match align points line with
  | a0 :: a1 :: a2 :: a3 :: _ =>
      Some (roots_of (Point.y a0) (Point.y a1) (Point.y a2) (Point.y a3))
  | _ => None
  end.

Definition computeCubic (t : R) (p : list Point) : option Point :=
  match p with
  | p0 :: p1 :: p2 :: p3 :: _ =>
      let mt := 1 - t in
      let a := mt * mt * mt in
      let b := mt * mt * t * 3 in
      let c := mt * t * t * 3 in
      let d := t * t * t in
      Some (Point.mk
        (a * Point.x p0 + b * Point.x p1 + c * Point.x p2 + d * Point.x p3)
        (a * Point.y p0 + b * Point.y p1 + c * Point.y p2 + d * Point.y p3))
  | _ => None
  end.

(** An entry [{point, t}] of the result of [getValueAt]. *)
Record CurvePoint : Type := mkCurvePoint { cv_point : Point; cv_t : R }.

(** The [for (const t of root)] loop of [getValueAt]. *)
Fixpoint evaluate_roots (root : list R) (points : list Point)
  : option (list CurvePoint) :=
  match root with
  | [] => Some []
  | t :: rest =>
      match computeCubic t points with
      | None => None
      | Some point =>
          match evaluate_roots rest points with
          | None => None
          | Some result => Some (mkCurvePoint point t :: result)
          end
      end
  end.

(** [axis] is [0] for x and [1] for y; any other number behaves as [0]. *)
Definition getValueAt (value : R) (points : list Point) (axis : nat)
  : option (list CurvePoint) :=
  let xcoords :=
    map (fun p => Point.mk (Point.y p - value) (Point.x p - value)) points in
  let line :=
    if Nat.eqb axis 1
    then Line.mk (Point.mk 0 0) (Point.mk 0 1)
    else Line.mk (Point.mk 0 0) (Point.mk 1 0) in
  match roots xcoords line with
  | None => None
  | Some root => evaluate_roots root points
  end.

(** [Math.min(...arr)] and [Math.max(...arr)] on a spread that is not
    empty. *)
Definition Math_min (v : R) (rest : list R) : R := fold_left Rmin rest v.
Definition Math_max (v : R) (rest : list R) : R := fold_left Rmax rest v.

(** [getBoundsFromPoints]; on no point at all the script computes with
    [Infinity]. *)
Definition getBoundsFromPoints (points : list Point) : option Bounds :=
  match points with
  | [] => None
  | p :: ps =>
      let xmin := Math_min (Point.x p) (map Point.x ps) in
      let ymin := Math_min (Point.y p) (map Point.y ps) in
      let xmax := Math_max (Point.x p) (map Point.x ps) in
      let ymax := Math_max (Point.y p) (map Point.y ps) in
      Some (Bounds.mk xmin ymin (xmax - xmin) (ymax - ymin))
  end.

(** The value at [t] of the cubic Bezier polynomial with ordinates
    [pa pb pc pd]. *)
Definition bernstein (pa pb pc pd t : R) : R :=
  let mt := 1 - t in
  mt * mt * mt * pa + mt * mt * t * 3 * pb + mt * t * t * 3 * pc + t * t * t * pd.

(** The coordinate of a point that [axis] selects. *)
Definition axis_coord (axis : nat) (p : Point) : R :=
  if Nat.eqb axis 1 then Point.y p else Point.x p.

(** ** The root solver on binary64 numbers

    The functions of [proxy-view-bezier.ts] once more, on the numbers the
    script computes with: binary64 numbers with the operations of IEEE 754,
    rounded to nearest.  The functions of [Math] that the solver calls are
    approximations chosen by the engine; they are the fields of
    [Double.Math], and what is proved holds for every choice of them unless
    their values are named. *)

Module Double.

(** [const {cos, sin, acos, atan2, sqrt, pow} = Math] *)
Record Math : Type :=
  mkMath { cos : float -> float;
           sin : float -> float;
           acos : float -> float;
           atan2 : float -> float -> float;
           sqrt : float -> float;
           pow : float -> float -> float }.

(** [Math.PI] *)
Definition pi : float := 0x1.921fb54442d18p+1%float.

Module Point.
Record t : Type := mk { x : float; y : float }.
End Point.

Module Line.
Record t : Type := mk { p1 : Point.t; p2 : Point.t }.
End Line.

Section Solver.

Variable M : Math.

(** The function [d] that [align] maps over the points. *)
Definition align_point (line : Line.t) (v : Point.t) : Point.t :=
  let tx := Point.x (Line.p1 line) in
  let ty := Point.y (Line.p1 line) in
  let a := (- atan2 M (Point.y (Line.p2 line) - ty) (Point.x (Line.p2 line) - tx))%float in
  Point.mk ((Point.x v - tx) * cos M a - (Point.y v - ty) * sin M a)%float
           ((Point.x v - tx) * sin M a + (Point.y v - ty) * cos M a)%float.

Definition align (points : list Point.t) (line : Line.t) : list Point.t :=
  map (align_point line) points.

Definition crt (v : float) : float :=
  if (v <? 0)%float then (- pow M (- v) (1 / 3))%float else pow M v (1 / 3)%float.

(** The root filter of [roots]; it rejects [NaN]. *)
Definition reduce (t : float) : bool := (0 <=? t)%float && (t <=? 1)%float.

(** The coefficients [d], [a], [b] and [c] that [roots] computes from the
    four aligned ordinates. *)
Definition coefficients (pa pb pc pd : float) : float * float * float * float :=
  ((- pa + 3 * pb - 3 * pc + pd)%float,
   (3 * pa - 6 * pb + 3 * pc)%float,
   (-3 * pa + 3 * pb)%float,
   pa).

(** The body of [roots] once the four aligned ordinates are read. *)
Definition roots_of (pa pb pc pd : float) : list float :=
  let '(d, a, b, c) := coefficients pa pb pc pd in
  if (d =? 0)%float then
    if (a =? 0)%float then
      if (b =? 0)%float then []
      else filter reduce [(- c / b)%float]
    else
      let q := sqrt M (b * b - 4 * a * c)%float in
      let a2 := (2 * a)%float in
      filter reduce [((q - b) / a2)%float; ((- b - q) / a2)%float]
  else
    let a := (a / d)%float in
    let b := (b / d)%float in
    let c := (c / d)%float in
    let p := ((3 * b - a * a) / 3)%float in
    let p3 := (p / 3)%float in
    let q := ((2 * a * a * a - 9 * a * b + 27 * c) / 27)%float in
    let q2 := (q / 2)%float in
    let discriminant := (q2 * q2 + p3 * p3 * p3)%float in
    if (discriminant <? 0)%float then
      let mp3 := (- p / 3)%float in
      let mp33 := (mp3 * mp3 * mp3)%float in
      let r := sqrt M mp33 in
      let t := (- q / (2 * r))%float in
      let cosphi :=
        if (t <? -1)%float then (-1)%float else if (1 <? t)%float then 1%float else t in
      let phi := acos M cosphi in
      let crtr := crt r in
      let t1 := (2 * crtr)%float in
      let x1 := (t1 * cos M (phi / 3) - a / 3)%float in
      let x2 := (t1 * cos M ((phi + 2 * pi) / 3) - a / 3)%float in
      let x3 := (t1 * cos M ((phi + 2 * 2 * pi) / 3) - a / 3)%float in
      filter reduce [x1; x2; x3]
    else if (discriminant =? 0)%float then
      let u1 := if (q2 <? 0)%float then crt (- q2)%float else (- crt q2)%float in
      let x1 := (2 * u1 - a / 3)%float in
      let x2 := (- u1 - a / 3)%float in
      filter reduce [x1; x2]
    else
      let sd := sqrt M discriminant in
      let u1 := crt (- q2 + sd)%float in
      let v1 := crt (q2 + sd)%float in
      filter reduce [(u1 - v1 - a / 3)%float].

(** [roots]: reading [aligned[0..3]] throws when there are fewer than four
    points. *)
Definition roots (points : list Point.t) (line : Line.t) : option (list float) :=
  match align points line with
  | a0 :: a1 :: a2 :: a3 :: _ =>
      Some (roots_of (Point.y a0) (Point.y a1) (Point.y a2) (Point.y a3))
  | _ => None
  end.

Definition computeCubic (t : float) (p : list Point.t) : option Point.t :=
  match p with
  | p0 :: p1 :: p2 :: p3 :: _ =>
      let mt := (1 - t)%float in
      let a := (mt * mt * mt)%float in
      let b := (mt * mt * t * 3)%float in
      let c := (mt * t * t * 3)%float in
      let d := (t * t * t)%float in
      Some (Point.mk
        (a * Point.x p0 + b * Point.x p1 + c * Point.x p2 + d * Point.x p3)%float
        (a * Point.y p0 + b * Point.y p1 + c * Point.y p2 + d * Point.y p3)%float)
  | _ => None
  end.

(** An entry [{point, t}] of the result of [getValueAt]. *)
Record CurvePoint : Type := mkCurvePoint { cv_point : Point.t; cv_t : float }.

(** The [for (const t of root)] loop of [getValueAt]. *)
Fixpoint evaluate_roots (root : list float) (points : list Point.t)
  : option (list CurvePoint) :=
  match root with
  | [] => Some []
  | t :: rest =>
      match computeCubic t points with
      | None => None
      | Some point =>
          match evaluate_roots rest points with
          | None => None
          | Some result => Some (mkCurvePoint point t :: result)
          end
      end
  end.

(** [axis] is [0] for x and [1] for y; any other number behaves as [0]. *)
Definition getValueAt (value : float) (points : list Point.t) (axis : nat)
  : option (list CurvePoint) :=
  let xcoords :=
    map (fun p => Point.mk (Point.y p - value)%float (Point.x p - value)%float) points in
  let line :=
    if Nat.eqb axis 1
    then Line.mk (Point.mk 0 0) (Point.mk 0 1)
    else Line.mk (Point.mk 0 0) (Point.mk 1 0) in
  match roots xcoords line with
  | None => None
  | Some root => evaluate_roots root points
  end.

End Solver.

(** The angle [Math.atan2(1, 0)] of the line of the y axis. *)
Definition halfPi : float := 0x1.921fb54442d18p+0%float.

(** A [Math] with the values of the engines at the arguments that the two
    lines of [getValueAt] lead to: [atan2(0, 1)] is [0] and [atan2(1, 0)] is
    [halfPi]; the cosine and the sine of [-0] are [1] and [-0], and those
    of [-halfPi] are [6.123233995736766e-17] and [-1]; the square root is
    the correctly rounded one.  At every other argument, which the
    degenerate branches of the solver on these lines never reach, it
    answers [NaN]. *)
Definition axisMath : Math :=
  mkMath
    (fun a =>
       if (a =? - halfPi)%float then 0x1.1a62633145c07p-54%float
       else if (a =? 0)%float then 1%float
       else nan)
    (fun a =>
       if (a =? - halfPi)%float then (-1)%float
       else if (a =? 0)%float then a
       else nan)
    (fun _ => nan)
    (fun y x =>
       if (y =? 1)%float && (x =? 0)%float then halfPi
       else if (y =? 0)%float && (x =? 1)%float then 0%float
       else nan)
    PrimFloat.sqrt
    (fun _ _ => nan).

(** A straight vertical segment with evenly spaced control points. *)
Definition verticalSegment : list Point.t :=
  [Point.mk 50 (-30); Point.mk 50 (-10); Point.mk 50 10; Point.mk 50 30].

(** What [getValueAt] passes to [roots] for that segment, the value [0] and
    the y axis. *)
Definition verticalSegment_xcoords : list Point.t :=
  [Point.mk (-30) 50; Point.mk (-10) 50; Point.mk 10 50; Point.mk 30 50].

Definition yAxisLine : Line.t := Line.mk (Point.mk 0 0) (Point.mk 0 1).

(** The same segment laid horizontally. *)
Definition horizontalSegment : list Point.t :=
  [Point.mk (-30) 50; Point.mk (-10) 50; Point.mk 10 50; Point.mk 30 50].

End Double.

(** ** The diagram model read by the proxy view *)

(** A model element as the proxy view reads it upwards: whether it is an
    [SKNode], its identity, its bounds and its parent. *)
Module Element.
Inductive t : Type :=
  mk { instanceofSKNode : bool; id : nat; bounds : Bounds; parent : option t }.
End Element.
Abbreviation Element := Element.t.

(** An object is either an element of the diagram or the result of
    [Object.create(proto)]: a new object, different from every element,
    that reads its fields from [proto]. *)
Inductive NodeObject : Type :=
  | Model (e : Element)
  | Created (proto : Element).

Definition fieldsOf (o : NodeObject) : Element :=
  match o with Model e => e | Created proto => proto end.

(** [Object.create] throws a [TypeError] on [undefined]. *)
Definition Object_create (proto : option Element) : option NodeObject :=
  match proto with
  | Some e => Some (Created e)
  | None => None
  end.

(** [node != root]: elements are told apart by their identifier, a created
    object is no element. *)
Definition differs (node : NodeObject) (root : Element) : bool :=
  match node with
  | Model e => negb (Nat.eqb (Element.id e) (Element.id root))
  | Created _ => true
  end.

Definition instanceofSKNode (o : option Element) : bool :=
  match o with
  | Some e => Element.instanceofSKNode e
  | None => false
  end.

Module SKEdge.
Record t : Type :=
  mk { bounds : Bounds;
       routingPoints : list Point;
       source : option Element;
       target : option Element }.
End SKEdge.
Abbreviation SKEdge := SKEdge.t.

(** A child of a node: an edge, a node, or anything else (label, port). *)
Inductive SChild (node : Type) : Type :=
  | ChildEdge (e : SKEdge)
  | ChildNode (n : node)
  | ChildOther.
Arguments ChildEdge {node} e.
Arguments ChildNode {node} n.
Arguments ChildOther {node}.

(** A node with the subtree below it; [absoluteX] and [absoluteY] are the
    entries of [properties] that the overlap filter reads. *)
Module SKNode.
Inductive t : Type :=
  mk { self : Element;
       absoluteX : R;
       absoluteY : R;
       children : list (SChild t) }.
End SKNode.
Abbreviation SKNode := SKNode.t.

(** The viewport: a rectangle with a zoom factor, passed wherever a
    [Bounds] is expected. *)
Module Canvas.
Record t : Type := mk { x : R; y : R; width : R; height : R; zoom : R }.
Definition bounds (c : t) : Bounds := Bounds.mk (x c) (y c) (width c) (height c).
End Canvas.
Abbreviation Canvas := Canvas.t.

Module CrossingPoint.
Record t : Type :=
  mk { point : Point;
       t_ : R;
       incoming : bool;
       section : nat;
       side : Sides;
       proxyPoint : Point;
       node : NodeObject;
       nodeBounds : Bounds;
       anchor : Anchors }.

Definition with_placement (cp : t) (p : Point) (a : Anchors) : t :=
  mk (point cp) (t_ cp) (incoming cp) (section cp) (side cp) p
     (node cp) (nodeBounds cp) a.
End CrossingPoint.
Abbreviation CrossingPoint := CrossingPoint.t.

Module Crossing.
Record t : Type :=
  mk { edge : SKEdge;
       pointBounds : list Bounds;
       bezierPoints : list (list Point);
       crossingPoints : list CrossingPoint }.

Definition with_crossingPoints (c : t) (cps : list CrossingPoint) : t :=
  mk (edge c) (pointBounds c) (bezierPoints c) cps.
End Crossing.
Abbreviation Crossing := Crossing.t.

(** An intersection found by [getCrossings] before it is classified. *)
Record SidedPoint : Type :=
  mkSidedPoint { sp_point : Point; sp_t : R; sp_side : Sides }.

(** The options of the proxy view that the geometry reads from [this]. *)
Record ProxyViewOptions : Type :=
  mkOptions { sizePercentage : R;
              originalNodeScale : bool;
              capScaleToOne : bool;
              useSynthesisProxyRendering : bool }.

(** The result of [transformWidthHeight]. *)
Record ProxySize : Type :=
  mkProxySize { proxyWidth : R; proxyHeight : R; scale : R }.

(** What one edge contributes to [getCrossings]. *)
Inductive EdgeResult : Type :=
  | Pushed (crossing : Crossing)
  | Logged (message : string).

(** Modelled from the spec: [isInBounds] of [proxy-view-util.ts], which is
    not among the sources; section 4.3 calls it the standard overlap test of
    two axis-aligned rectangles. *)
Definition AABB_overlap (b1 b2 : Bounds) : bool :=
  (Bounds.x b1 <=? Bounds.x b2 + Bounds.width b2) &&
  (Bounds.x b2 <=? Bounds.x b1 + Bounds.width b1) &&
  (Bounds.y b1 <=? Bounds.y b2 + Bounds.height b2) &&
  (Bounds.y b2 <=? Bounds.y b1 + Bounds.height b1).

(** Modelled from the spec: [asBounds] of [proxy-view-util.ts], which is not
    among the sources; section 4.3 step 4 tests whether the perturbed point
    lies inside the viewport, so the point is a rectangle without extent. *)
Definition point_asBounds (p : Point) : Bounds :=
  Bounds.mk (Point.x p) (Point.y p) 0 0.

(** Rectangle relations used to state the properties. *)
Definition overlaps (a b : Bounds) : Prop :=
  Bounds.x a <= Bounds.x b + Bounds.width b /\
  Bounds.x b <= Bounds.x a + Bounds.width a /\
  Bounds.y a <= Bounds.y b + Bounds.height b /\
  Bounds.y b <= Bounds.y a + Bounds.height a.

Definition contains (a b : Bounds) : Prop :=
  Bounds.x a <= Bounds.x b /\
  Bounds.x b + Bounds.width b <= Bounds.x a + Bounds.width a /\
  Bounds.y a <= Bounds.y b /\
  Bounds.y b + Bounds.height b <= Bounds.y a + Bounds.height a.

Definition inside (p : Point) (b : Bounds) : Prop :=
  Bounds.x b <= Point.x p <= Bounds.x b + Bounds.width b /\
  Bounds.y b <= Point.y p <= Bounds.y b + Bounds.height b.

(** The route and the viewport of the end-to-end scenario of the
    specification. *)
Definition scenarioRoute : list Point :=
  [Point.mk 0 0; Point.mk 0 50; Point.mk 50 100; Point.mk 100 100].

Definition scenarioCanvas (zoom : R) : Canvas := Canvas.mk 0 0 60 60 zoom.

(** Sequencing of computations that may throw. *)
Definition bind {A B : Type} (m : option A) (k : A -> option B) : option B :=
  match m with
  | Some a => k a
  | None => None
  end.

Notation "x <- m ;; k" := (bind m (fun x => k))
  (at level 61, m at next level, right associativity).

Fixpoint mapM {A B : Type} (f : A -> option B) (l : list A) : option (list B) :=
  match l with
  | [] => Some []
  | a :: rest =>
      b <- f a ;;
      bs <- mapM f rest ;;
      Some (b :: bs)
  end.

(** [arr.slice(start, end)]. *)
Definition slice {A : Type} (start end_ : nat) (arr : list A) : list A :=
  firstn (end_ - start) (skipn start arr).

(** The grace-offset filter shared by crossing detection and anchor search. *)
Definition inGrace (b : Bounds) (p : Point) : bool :=
  let grace_offset := 1 in
  (Point.x p >=? Bounds.x b - grace_offset) &&
  (Point.x p <=? Bounds.x b + Bounds.width b + grace_offset) &&
  (Point.y p >=? Bounds.y b - grace_offset) &&
  (Point.y p <=? Bounds.y b + Bounds.height b + grace_offset).

Definition diagnostic : string :=
  "proxy: Edge hat nicht 3n+1 n>0 Routing Punkte"%string.

(** The nodes among the children of a node, and the next row of the
    breadth-first walk of [getTreeDepths]. *)
Definition childNodes (n : SKNode) : list SKNode :=
  flat_map (fun child => match child with ChildNode m => [m] | _ => [] end)
           (SKNode.children n).

Definition nextRow (currentRow : list SKNode) : list SKNode :=
  flat_map childNodes currentRow.

Fixpoint node_size (n : SKNode) : nat :=
  match n with
  | SKNode.mk _ _ _ children =>
      Datatypes.S
        ((fix sum (cs : list (SChild SKNode)) : nat :=
            match cs with
            | [] => 0%nat
            | ChildNode m :: rest => (node_size m + sum rest)%nat
            | _ :: rest => sum rest
            end) children)
  end.

Definition row_size (row : list SKNode) : nat := list_sum (map node_size row).

(** [getTreeDepths]: the rows of the tree below [currRoot], level by
    level, until a row is empty. *)
Equations? getTreeDepths_rows (currentRow : list SKNode) : list (list SKNode)
  by wf (row_size currentRow) lt :=
  getTreeDepths_rows [] := [];
  getTreeDepths_rows (n :: ns) := (n :: ns) :: getTreeDepths_rows (nextRow (n :: ns)).
Proof.
  assert (Hrow : forall row : list SKNode,
             (row_size (nextRow row) + length row = row_size row)%nat).
  { unfold row_size, nextRow. induction row as [| m row IH]; [reflexivity |].
    simpl. rewrite map_app, list_sum_app.
    assert (Hm : (list_sum (map node_size (childNodes m)) + 1 = node_size m)%nat).
    { destruct m as [self ax ay children]. unfold childNodes. simpl.
      induction children as [| c cs IHc]; [reflexivity |].
      destruct c as [e | m |]; simpl in *; lia. }
    lia. }
  pose proof (Hrow (n :: ns)) as H. simpl in H. simpl. lia.
Qed.

Definition getTreeDepths (currRoot : SKNode) : list (list SKNode) :=
  getTreeDepths_rows [currRoot].

(** [getDepth] on an element of the diagram. *)
Fixpoint getDepth_element (node root : Element) : nat :=
  match node with
  | Element.mk _ id _ parent =>
      if negb (Nat.eqb id (Element.id root)) then
        match parent with
        | Some p =>
            if Element.instanceofSKNode p
            then (1 + getDepth_element p root)%nat
            else 0%nat
        | None => 0%nat
        end
      else 0%nat
  end.

Definition getDepth (node : NodeObject) (root : Element) : nat :=
  if differs node root && instanceofSKNode (Element.parent (fieldsOf node))
  then match Element.parent (fieldsOf node) with
       | Some p => (1 + getDepth_element p root)%nat
       | None => 0%nat
       end
  else 0%nat.

(** ** Data of the instances *)

Definition exampleOptions : ProxyViewOptions := mkOptions (1 / 10) true false false.

Definition noCalculatedBounds (e : Element) : option Bounds := None.

Definition scenarioEdge : SKEdge :=
  SKEdge.mk (Bounds.mk 0 0 100 100) scenarioRoute None None.

Definition scenarioRoot : SKNode :=
  SKNode.mk (Element.mk true 0 (Bounds.mk 0 0 200 200) None) 0 0
            [ChildEdge scenarioEdge].

Definition fivePointEdge : SKEdge :=
  SKEdge.mk (Bounds.mk 0 0 100 100)
            [Point.mk 0 0; Point.mk 0 50; Point.mk 50 100; Point.mk 100 100;
             Point.mk 150 100]
            None None.

Definition rootElement : Element := Element.mk true 0 (Bounds.mk 0 0 200 200) None.

Definition innerElement : Element :=
  Element.mk true 1 (Bounds.mk 0 0 10 10) (Some rootElement).

(** Two ports: one of the inner node, one of the root. *)
Definition sourcePort : Element :=
  Element.mk false 2 (Bounds.mk 0 0 10 10) (Some innerElement).

Definition targetPort : Element :=
  Element.mk false 3 (Bounds.mk 0 0 10 10) (Some rootElement).

Definition innerNode : SKNode := SKNode.mk innerElement 0 0 [].

Definition treeRoot : SKNode := SKNode.mk rootElement 0 0 [ChildNode innerNode].

Definition portEdge : SKEdge :=
  SKEdge.mk (Bounds.mk 0 0 100 100) scenarioRoute (Some sourcePort) (Some targetPort).

Definition exampleCanvas : Canvas := Canvas.mk 0 0 100 100 1.

Definition northCrossingPoint : CrossingPoint :=
  CrossingPoint.mk (Point.mk 50 0) (1 / 2) true 0 Sides.N (Point.mk 50 0)
                   (Created sourcePort)
                   (Bounds.mk 0 0 10 10) Anchors.towardsEdge.

Definition northCrossing : Crossing :=
  Crossing.mk portEdge [Bounds.mk 0 0 (100 - 0) (100 - 0)] [scenarioRoute]
              [northCrossingPoint].

Definition farPoint : CrossingPoint :=
  CrossingPoint.mk (Point.mk 500 500) (1 / 4) true 0 Sides.E (Point.mk 500 500)
                   (Created sourcePort) (Bounds.mk 0 0 10 10) Anchors.topLeft.

Definition nearPoint : CrossingPoint :=
  CrossingPoint.mk (Point.mk 0 0) (3 / 4) false 0 Sides.W (Point.mk 0 0)
                   (Created targetPort) (Bounds.mk 0 0 10 10) Anchors.topLeft.

Definition portCrossing : Crossing :=
  Crossing.mk portEdge [Bounds.mk 0 0 (100 - 0) (100 - 0)] [scenarioRoute]
              [farPoint; nearPoint].

(** ** Definitions for the further properties *)

(** The parameter [newt] at which [isIncoming] probes the curve. *)
Definition probeParameter (t : R) : R :=
  if t >? 1 / 2 then t - 3 / 100 else t + 3 / 100.

(** The test of [getCrossings] on the number of points of a route. *)
Definition validRoute (points : list Point) : bool :=
  (Nat.eqb (length points mod 3) 1 && (4 <=? length points))%nat.

(** The row of the tree at depth [k] below the row [row]. *)
Fixpoint rowAtDepth (k : nat) (row : list SKNode) : list SKNode :=
  match k with
  | O => row
  | Datatypes.S k' => rowAtDepth k' (nextRow row)
  end.

(** The edges of the tree below a node, in the order of the children. *)
Fixpoint allEdges (n : SKNode) : list SKEdge :=
  match n with
  | SKNode.mk _ _ _ children =>
      (fix each (cs : list (SChild SKNode)) : list SKEdge :=
         match cs with
         | [] => []
         | ChildEdge e :: rest => e :: each rest
         | ChildNode m :: rest => allEdges m ++ each rest
         | ChildOther :: rest => each rest
         end) children
  end.

(** [l] is [l'] with some elements left out, in the same order. *)
Inductive Subsequence {A : Type} : list A -> list A -> Prop :=
  | Subsequence_nil : Subsequence [] []
  | Subsequence_keep (a : A) (l l' : list A) :
      Subsequence l l' -> Subsequence (a :: l) (a :: l')
  | Subsequence_drop (a : A) (l l' : list A) :
      Subsequence l l' -> Subsequence l (a :: l').

(** The parents of the nodes of the tree are the nodes they are children
    of, and the root is no node below itself. *)
Definition parentLinked (root : SKNode) : Prop :=
  forall k m n,
    In m (rowAtDepth k [root]) -> In n (childNodes m) ->
    Element.parent (SKNode.self n) = Some (SKNode.self m) /\
    Element.instanceofSKNode (SKNode.self m) = true /\
    Element.id (SKNode.self n) <> Element.id (SKNode.self root).

(** *** The registry of filters *)

(** A [Map] with strings as keys: its entries in the order of insertion,
    no key twice. *)
Definition StringMap (F : Type) : Type := list (string * F).

Definition Map_has {F : Type} (m : StringMap F) (id : string) : bool :=
  existsb (fun entry => String.eqb (fst entry) id) m.

Definition Map_get {F : Type} (m : StringMap F) (id : string) : option F :=
  option_map snd (find (fun entry => String.eqb (fst entry) id) m).

(** [set] replaces the value of a key where it stands and appends a new
    key. *)
Fixpoint Map_set {F : Type} (m : StringMap F) (id : string) (filter : F)
  : StringMap F :=
  match m with
  | [] => [(id, filter)]
  | (key, value) :: rest =>
      if String.eqb key id then (key, filter) :: rest
      else (key, value) :: Map_set rest id filter
  end.

(** [delete] returns whether the key was there. *)
Definition Map_delete {F : Type} (m : StringMap F) (id : string)
  : bool * StringMap F :=
  (Map_has m id, filter (fun entry => negb (String.eqb (fst entry) id)) m).

(** [registerFilters], on the map [this.filters]. *)
Definition registerFilters {F : Type} (this_filters : StringMap F)
           (filters : list (string * F)) : StringMap F :=
  fold_left (fun m entry => Map_set m (fst entry) (snd entry)) filters this_filters.

(** [unregisterFilters]: the value returned and the map [this.filters]
    after it; [every] stops at the first [false]. *)
Fixpoint unregisterFilters {F : Type} (this_filters : StringMap F)
         (filters : list (string * F)) : bool * StringMap F :=
  match filters with
  | [] => (true, this_filters)
  | entry :: rest =>
      let (deleted, m) := Map_delete this_filters (fst entry) in
      if deleted then unregisterFilters m rest else (false, m)
  end.

(** *** The data of the renderings *)

(** A [KGraphData] with fields [D]; [children] is [None] when the object
    has no such key or an undefined value under it. *)
Inductive KGraphData (D : Type) : Type :=
  | mkKGraphData (fields : D) (children : option (list (KGraphData D))).
Arguments mkKGraphData {D} fields children.

Inductive ProxyKGraphData (D : Type) : Type :=
  | mkProxyKGraphData (fields : D) (proxyScale : R) (useTitleScaling : bool)
                      (children : option (list (ProxyKGraphData D))).
Arguments mkProxyKGraphData {D} fields proxyScale useTitleScaling children.

(** The body of [for (const d of data)] in [getNodeData]. *)
Fixpoint getNodeData_entry {D : Type} (titleScalingEnabled : bool) (scale : R)
         (d : KGraphData D) : ProxyKGraphData D :=
  match d with
  | mkKGraphData fields children =>
      mkProxyKGraphData fields scale titleScalingEnabled
        (match children with
         | Some data => Some (map (getNodeData_entry titleScalingEnabled scale) data)
         | None => None
         end)
  end.

Definition getNodeData {D : Type} (titleScalingEnabled : bool)
           (data : option (list (KGraphData D))) (scale : R)
  : option (list (ProxyKGraphData D)) :=
  match data with
  | Some data => Some (map (getNodeData_entry titleScalingEnabled scale) data)
  | None => None
  end.

(** The data without the two fields that [getNodeData] adds. *)
Fixpoint withoutProxyFields {D : Type} (d : ProxyKGraphData D) : KGraphData D :=
  match d with
  | mkProxyKGraphData fields _ _ children =>
      mkKGraphData fields
        (match children with
         | Some data => Some (map withoutProxyFields data)
         | None => None
         end)
  end.

(** The entries of the data at every depth. *)
Fixpoint entriesOf {D : Type} (d : ProxyKGraphData D) : list (ProxyKGraphData D) :=
  match d with
  | mkProxyKGraphData _ _ _ children =>
      d :: match children with
           | Some data => flat_map entriesOf data
           | None => []
           end
  end.

Definition proxyScaleOf {D : Type} (d : ProxyKGraphData D) : R :=
  match d with mkProxyKGraphData _ proxyScale _ _ => proxyScale end.

Definition useTitleScalingOf {D : Type} (d : ProxyKGraphData D) : bool :=
  match d with mkProxyKGraphData _ _ useTitleScaling _ => useTitleScaling end.

(** *** Data of the further instances *)

(** Options under which the marker size is fitted to the viewport. *)
Definition fitOptions : ProxyViewOptions := mkOptions (1 / 10) false false false.

(** A node to the west of the viewport [(0, 0, 100, 100)], and a straight
    edge from it into the viewport. *)
Definition westElement : Element :=
  Element.mk true 4 (Bounds.mk 0 0 10 10) (Some rootElement).

Definition westNode : SKNode := SKNode.mk westElement (-40) 45 [].

Definition straightRoute : list Point :=
  [Point.mk (-30) 50; Point.mk (-10) 50; Point.mk 10 50; Point.mk 30 50].

Definition straightEdge : SKEdge :=
  SKEdge.mk (Bounds.mk (-30) 50 60 0) straightRoute
            (Some westElement) (Some rootElement).

Definition straightRoot : SKNode :=
  SKNode.mk rootElement 0 0 [ChildNode westNode; ChildEdge straightEdge].

Definition straightBounds : Bounds := Bounds.mk (-30) 50 (30 - -30) (50 - 50).

(** The crossing point of the edge as [getCrossings] finds it, as
    [updateProxyPlacementPoints] moves it, and as [applyAnchors] leaves
    it. *)
Definition straightCrossingPoint : CrossingPoint :=
  CrossingPoint.mk (Point.mk 0 50) (1 / 2) true 0 Sides.W (Point.mk 0 50)
                   (Created westElement) (Bounds.mk 0 0 10 10) Anchors.towardsEdge.

Definition straightMovedPoint : CrossingPoint :=
  CrossingPoint.mk (Point.mk 0 50) (1 / 2) true 0 Sides.W (Point.mk 10 50)
                   (Created westElement) (Bounds.mk 0 0 10 10) Anchors.towardsMiddle.

Definition straightAnchoredPoint : CrossingPoint :=
  CrossingPoint.mk (Point.mk 0 50) (1 / 2) true 0 Sides.W (Point.mk 0 45)
                   (Created westElement) (Bounds.mk 0 0 10 10) Anchors.topLeft.

Definition straightCrossing (cp : CrossingPoint) : Crossing :=
  Crossing.mk straightEdge [straightBounds] [straightRoute] [cp].

(** *** The loop of [createAllProxies] that draws the markers *)

(** [proxies], [this.currProxies] and [idNr], with the state that
    [createProxy] reads and writes (the cache of renderings, the nodes). *)
Record MarkerState (V St : Type) : Type :=
  mkMarkerState { proxies : list V;
                  currProxies : list (V * Bounds);
                  idNr : nat;
                  rendererState : St }.
Arguments mkMarkerState {V St} proxies currProxies idNr rendererState.
Arguments proxies {V St} m.
Arguments currProxies {V St} m.
Arguments idNr {V St} m.
Arguments rendererState {V St} m.

(** The body of the inner loop; [cp.node] is never [undefined] here. *)
Definition drawMarker {V St : Type}
           (createProxy : St -> NodeObject -> Bounds -> nat -> option V * St)
           (state : MarkerState V St) (cp : CrossingPoint) : MarkerState V St :=
  let transform := CrossingPoint.nodeBounds cp in
  let (proxy, rendererState') :=
    createProxy (rendererState state) (CrossingPoint.node cp) transform (idNr state) in
  let idNr' := Datatypes.S (idNr state) in
  match proxy with
  | Some proxy =>
      mkMarkerState (proxies state ++ [proxy])
                    (currProxies state ++ [(proxy, transform)]) idNr' rendererState'
  | None => mkMarkerState (proxies state) (currProxies state) idNr' rendererState'
  end.

Fixpoint drawCrossingPoints {V St : Type}
         (createProxy : St -> NodeObject -> Bounds -> nat -> option V * St)
         (cps : list CrossingPoint) (state : MarkerState V St) : MarkerState V St :=
  match cps with
  | [] => state
  | cp :: rest =>
      drawCrossingPoints createProxy rest (drawMarker createProxy state cp)
  end.

Fixpoint drawCrossings {V St : Type}
         (createProxy : St -> NodeObject -> Bounds -> nat -> option V * St)
         (filteredOverlaps : list Crossing) (state : MarkerState V St)
  : MarkerState V St :=
  match filteredOverlaps with
  | [] => state
  | crossing :: rest =>
      drawCrossings createProxy rest
        (drawCrossingPoints createProxy (Crossing.crossingPoints crossing) state)
  end.

(** From [const proxies = []] to the end of the loops. *)
Definition drawMarkers {V St : Type}
           (createProxy : St -> NodeObject -> Bounds -> nat -> option V * St)
           (filteredOverlaps : list Crossing) (rendererState : St)
  : MarkerState V St :=
  drawCrossings createProxy filteredOverlaps (mkMarkerState [] [] 1 rendererState).

(** *** The crossings of [proxy-view.tsx] *)

(** The objects that [getCrossings] of [proxy-view.tsx] builds: a crossing
    point has its [node] and [nodeBounds] assigned by the stages after
    it. *)
Module Legacy.
Record CrossingPoint : Type :=
  mkPoint { point : Point;
            incoming : bool;
            node : option NodeObject;
            nodeBounds : option Bounds }.

Record Crossing : Type :=
  mk { edge : SKEdge; crossingPoints : list CrossingPoint }.

(** What one edge contributes to [getCrossings]. *)
Inductive EdgeResult : Type :=
  | Pushed (crossings : list Crossing)
  | Logged (message : string).
End Legacy.

(** What a marker is drawn from: the edge, the crossing point, its
    direction, and the node with its bounds. *)
Definition Marker : Type :=
  (SKEdge * Point * bool * option NodeObject * option Bounds)%type.

Definition markersOf (crossings : list Crossing) : list Marker :=
  flat_map (fun crossing =>
              map (fun cp => (Crossing.edge crossing, CrossingPoint.point cp,
                              CrossingPoint.incoming cp,
                              Some (CrossingPoint.node cp),
                              Some (CrossingPoint.nodeBounds cp)))
                  (Crossing.crossingPoints crossing))
           crossings.

Definition Legacy_markersOf (crossings : list Legacy.Crossing) : list Marker :=
  flat_map (fun crossing =>
              map (fun cp => (Legacy.edge crossing, Legacy.point cp,
                              Legacy.incoming cp, Legacy.node cp,
                              Legacy.nodeBounds cp))
                  (Legacy.crossingPoints crossing))
           crossings.

(** ** The proxy view *)

Section ProxyView.

(** [getCanvasBounds] of [skgraph-utils], not among the sources. *)
Variable getCanvasBounds : SKEdge -> Bounds.

(** [isInBounds] and [asBounds] of [proxy-view-util], not among the
    sources.  Both read the fields of their arguments, so that they throw
    on [undefined]. *)
Variable isInBounds : Bounds -> Bounds -> bool.
Variable asBounds : Point -> Bounds.

(** The bounds that the synthesis calculated for the proxy rendering of a
    node, when the node has the proxy rendering property and
    [getKRendering] finds a rendering with calculated bounds. *)
Variable calculatedBounds : Element -> option Bounds.

(** The options of this proxy view. *)
Variable this : ProxyViewOptions.

Definition transformWidthHeight (proxyBounds : Bounds) (canvas : Canvas)
  : option ProxySize :=
  let size := Rmin (Canvas.width canvas) (Canvas.height canvas) * sizePercentage this in
  scale <-
    (if originalNodeScale this then Some (Canvas.zoom canvas)
     else if (Bounds.width proxyBounds =? 0) || (Bounds.height proxyBounds =? 0)
          then None (* a quotient by zero: Infinity or NaN by the signs,
                       which [Math.min] may absorb; not followed further *)
          else
            let proxyWidthScale := size / Bounds.width proxyBounds in
            let proxyHeightScale := size / Bounds.height proxyBounds in
            Some (Rmin proxyWidthScale proxyHeightScale)) ;;
  let scale := if capScaleToOne this then Rmin 1 scale else scale in
  let proxyWidth := Bounds.width proxyBounds * scale in
  let proxyHeight := Bounds.height proxyBounds * scale in
  Some (mkProxySize proxyWidth proxyHeight scale).

Definition isCrossingBounds (b1 b2 : Bounds) : bool :=
  isInBounds b1 b2
  &&
  negb (((Bounds.x b1 <=? Bounds.x b2)
         && (Bounds.x b1 + Bounds.width b1 >=? Bounds.x b2 + Bounds.width b2))
        &&
        ((Bounds.y b1 <=? Bounds.y b2)
         && (Bounds.y b1 + Bounds.height b1 >=? Bounds.y b2 + Bounds.height b2)))
  &&
  negb (((Bounds.x b1 >=? Bounds.x b2)
         && (Bounds.x b1 + Bounds.width b1 <=? Bounds.x b2 + Bounds.width b2))
        &&
        ((Bounds.y b1 >=? Bounds.y b2)
         && (Bounds.y b1 + Bounds.height b1 <=? Bounds.y b2 + Bounds.height b2))).

Definition isIncoming (t : R) (bounds : Bounds) (bezierPoints : list Point)
  : option bool :=
  let newt := if t >? 1 / 2 then t - 3 / 100 else t + 3 / 100 in
  newPoint <- computeCubic newt bezierPoints ;;
  let result := if isInBounds (asBounds newPoint) bounds then true else false in
  Some (if t >? 1 / 2 then negb result else result).

Definition getSynthesisProxyRenderingSingle (node : NodeObject)
  : NodeObject * Bounds :=
  let proxyBounds := Element.bounds (fieldsOf node) in
  if useSynthesisProxyRendering this then
    match calculatedBounds (fieldsOf node) with
    | Some calculated => (node, calculated)
    | None => (node, proxyBounds)
    end
  else (node, proxyBounds).

Fixpoint getPossibleEdges (currRoot : SKNode) (canvasCRF : Canvas) : list SKEdge :=
  match currRoot with
  | SKNode.mk _ _ _ children =>
      (fix each (cs : list (SChild SKNode)) : list SKEdge :=
         match cs with
         | [] => []
         | ChildEdge child :: rest =>
             let bounds := getCanvasBounds child in
             (if isCrossingBounds bounds (Canvas.bounds canvasCRF)
              then [child] else []) ++ each rest
         | ChildNode child :: rest =>
             (if (0 <? length (SKNode.children child))%nat
              then getPossibleEdges child canvasCRF else []) ++ each rest
         | ChildOther :: rest => each rest
         end) children
  end.

(** The four boundary tests of [getCrossings] on one segment. *)
Definition boundaryPoints (b1 b2 : Bounds) (bPoints : list Point)
  : option (list SidedPoint) :=
  let tag := fun side (p : CurvePoint) => mkSidedPoint (cv_point p) (cv_t p) side in
  w <- (if (Bounds.x b1 <=? Bounds.x b2)
           && (Bounds.x b1 + Bounds.width b1 >=? Bounds.x b2)
        then a <- getValueAt (Bounds.x b2) bPoints 0 ;; Some (map (tag Sides.W) a)
        else Some []) ;;
  e <- (if (Bounds.x b1 <=? Bounds.x b2 + Bounds.width b2)
           && (Bounds.x b1 + Bounds.width b1 >=? Bounds.x b2 + Bounds.width b2)
        then a <- getValueAt (Bounds.x b2 + Bounds.width b2) bPoints 0 ;;
             Some (map (tag Sides.E) a)
        else Some []) ;;
  n <- (if (Bounds.y b1 <=? Bounds.y b2)
           && (Bounds.y b1 + Bounds.height b1 >=? Bounds.y b2)
        then a <- getValueAt (Bounds.y b2) bPoints 1 ;; Some (map (tag Sides.N) a)
        else Some []) ;;
  s <- (if (Bounds.y b1 <=? Bounds.y b2 + Bounds.height b2)
           && (Bounds.y b1 + Bounds.height b1 >=? Bounds.y b2 + Bounds.height b2)
        then a <- getValueAt (Bounds.y b2 + Bounds.height b2) bPoints 1 ;;
             Some (map (tag Sides.S) a)
        else Some []) ;;
  let cPoints := w ++ e ++ n ++ s in
  Some (if (0 <? length cPoints)%nat
        then filter (fun p => inGrace b2 (sp_point p)) cPoints
        else cPoints).

(** The body of [for (const cp of cPoints)] in [getCrossings]. *)
Definition classify (edge : SKEdge) (canvasCRF : Canvas) (bPoints : list Point)
           (i : nat) (cp : SidedPoint) : option CrossingPoint :=
  incoming <- isIncoming (sp_t cp) (Canvas.bounds canvasCRF) bPoints ;;
  node <- (if incoming then Object_create (SKEdge.source edge)
           else Object_create (SKEdge.target edge)) ;;
  let '(proxyNode, proxyBounds) := getSynthesisProxyRenderingSingle node in
  let proxyPoint := sp_point cp in
  Some (CrossingPoint.mk (sp_point cp) (sp_t cp) incoming i (sp_side cp)
                         proxyPoint proxyNode proxyBounds Anchors.towardsEdge).

(** The loop of [getCrossings] over the segments, from segment [i] on. *)
Fixpoint segmentCrossings (edge : SKEdge) (canvasCRF : Canvas) (i : nat)
         (pointBounds : list Bounds) (bezierPoints : list (list Point))
  : option (list CrossingPoint) :=
  match pointBounds, bezierPoints with
  | pointBound :: pointBounds', bPoints :: bezierPoints' =>
      here <-
        (if isCrossingBounds pointBound (Canvas.bounds canvasCRF) then
           cPoints <- boundaryPoints pointBound (Canvas.bounds canvasCRF) bPoints ;;
           mapM (classify edge canvasCRF bPoints i) cPoints
         else Some []) ;;
      later <- segmentCrossings edge canvasCRF (Datatypes.S i) pointBounds' bezierPoints' ;;
      Some (here ++ later)
  | _, _ => Some []
  end.

(** The body of [for (const edge of proxyEdges)] in [getCrossings]. *)
Definition edgeCrossings (edge : SKEdge) (canvasCRF : Canvas) : option EdgeResult :=
  let edgeBounds := getCanvasBounds edge in
  let offsetx := Bounds.x edgeBounds - Bounds.x (SKEdge.bounds edge) in
  let offsety := Bounds.y edgeBounds - Bounds.y (SKEdge.bounds edge) in
  let rpointsWithoutOffset := SKEdge.routingPoints edge in
  let rpoints :=
    map (fun p => Point.mk (Point.x p + offsetx) (Point.y p + offsety))
        rpointsWithoutOffset in
  if (Nat.eqb (length rpoints mod 3) 1 && (4 <=? length rpoints))%nat then
    let bezierPoints :=
      map (fun i => slice (i * 3) (i * 3 + 4) rpoints)
          (seq 0 (length rpoints / 3)) in
    pointBounds <- mapM getBoundsFromPoints bezierPoints ;;
    newCrossings <- segmentCrossings edge canvasCRF 0 pointBounds bezierPoints ;;
    Some (Pushed (Crossing.mk edge pointBounds bezierPoints newCrossings))
  else Some (Logged diagnostic).

(** [getCrossings] with the crossings and the console as they stand; the
    console keeps what was logged before a throw. *)
Fixpoint getCrossings_from (proxyEdges : list SKEdge) (canvasCRF : Canvas)
         (crossings : list Crossing) (console : list string)
  : option (list Crossing) * list string :=
  match proxyEdges with
  | [] => (Some crossings, console)
  | edge :: rest =>
      match edgeCrossings edge canvasCRF with
      | None => (None, console)
      | Some (Pushed crossing) =>
          getCrossings_from rest canvasCRF (crossings ++ [crossing]) console
      | Some (Logged message) =>
          getCrossings_from rest canvasCRF crossings (console ++ [message])
      end
  end.

Definition getCrossings (proxyEdges : list SKEdge) (canvasCRF : Canvas)
  : option (list Crossing) * list string :=
  getCrossings_from proxyEdges canvasCRF [] [].

Definition getAnchorOffsets (bounds : Bounds) (side : Sides) (anchor : Anchors)
  : R * R :=
  match anchor with
  | Anchors.towardsMiddle =>
      match side with
      | Sides.N => (Bounds.width bounds * (1 / 2), Bounds.height bounds)
      | Sides.E => (0, Bounds.height bounds * (1 / 2))
      | Sides.S => (Bounds.width bounds * (1 / 2), 0)
      | Sides.W => (Bounds.width bounds, Bounds.height bounds * (1 / 2))
      end
  | Anchors.center =>
      (Bounds.width bounds * (1 / 2), Bounds.height bounds * (1 / 2))
  | Anchors.towardsEdge =>
      match side with
      | Sides.N => (Bounds.width bounds * (1 / 2), 0)
      | Sides.E => (Bounds.width bounds, Bounds.height bounds * (1 / 2))
      | Sides.S => (Bounds.width bounds * (1 / 2), Bounds.height bounds)
      | Sides.W => (0, Bounds.height bounds * (1 / 2))
      end
  | Anchors.topLeft => (0, 0)
  end.

(** The body of the inner loop of [applyAnchors]. *)
Definition applyAnchor (canvas : Canvas) (cp : CrossingPoint) : option CrossingPoint :=
  size <- transformWidthHeight (CrossingPoint.nodeBounds cp) canvas ;;
  let bounds := Bounds.mk 0 0 (proxyWidth size) (proxyHeight size) in
  let '(offsetx, offsety) :=
    getAnchorOffsets bounds (CrossingPoint.side cp) (CrossingPoint.anchor cp) in
  Some (CrossingPoint.with_placement cp
          (Point.mk (Point.x (CrossingPoint.proxyPoint cp) - offsetx)
                    (Point.y (CrossingPoint.proxyPoint cp) - offsety))
          Anchors.topLeft).

Definition applyAnchors (crossings : list Crossing) (canvas : Canvas)
  : option (list Crossing) :=
  mapM (fun crossing =>
          cps <- mapM (applyAnchor canvas) (Crossing.crossingPoints crossing) ;;
          Some (Crossing.with_crossingPoints crossing cps))
       crossings.

Definition offsetMultiplierOf (anchor : Anchors) : R :=
  if Anchors.eqb anchor Anchors.towardsMiddle then 1
  else if Anchors.eqb anchor Anchors.center then 1 / 2
  else 0.

(** The shrunk rectangle [bound] of [updateProxyPlacementPoints]. *)
Definition searchBound (side : Sides) (offsetx offsety : R) (canvasCRF : Canvas)
  : Bounds :=
  if Sides.eqb side Sides.N || Sides.eqb side Sides.S then
    Bounds.mk (Canvas.x canvasCRF) (Canvas.y canvasCRF + offsety)
              (Canvas.width canvasCRF) (Canvas.height canvasCRF - 2 * offsety)
  else
    Bounds.mk (Canvas.x canvasCRF + offsetx) (Canvas.y canvasCRF)
              (Canvas.width canvasCRF - 2 * offsetx) (Canvas.height canvasCRF).

(** The roots of a segment on the shrunk boundary of [side], after the
    grace-offset filter. *)
Definition anchorCandidates (side : Sides) (bound : Bounds) (bPoints : list Point)
  : option (list CurvePoint) :=
  p <- match side with
       | Sides.N => getValueAt (Bounds.y bound) bPoints 1
       | Sides.E => getValueAt (Bounds.x bound + Bounds.width bound) bPoints 0
       | Sides.S => getValueAt (Bounds.y bound + Bounds.height bound) bPoints 1
       | Sides.W => getValueAt (Bounds.x bound) bPoints 0
       end ;;
  Some (if (0 <? length p)%nat
        then filter (fun e => inGrace bound (cv_point e)) p
        else p).

(** The loop [for (let pos = cross.section; pos != end + direction;
    pos += direction)]: [Some (Some p)] when it breaks with the new anchor
    point [p], [Some None] when it runs to its end.  Reading a segment
    that does not exist throws.  Every turn reads another existing
    segment, so that [fuel] above the number of segments is never used
    up. *)
Fixpoint searchAnchor (fuel : nat) (crossing : Crossing) (side : Sides)
         (bound : Bounds) (stop direction pos : Z) : option (option Point) :=
  if Z.eqb pos stop then Some None
  else
    match fuel with
    | O => None
    | Datatypes.S fuel' =>
        if (pos <? 0)%Z then None
        else
          match nth_error (Crossing.pointBounds crossing) (Z.to_nat pos) with
          | None => None
          | Some pointBound =>
              if isCrossingBounds pointBound bound then
                match nth_error (Crossing.bezierPoints crossing) (Z.to_nat pos) with
                | None => None
                | Some bPoints =>
                    p <- anchorCandidates side bound bPoints ;;
                    match p with
                    | first :: _ => Some (Some (cv_point first))
                    | [] => searchAnchor fuel' crossing side bound stop direction
                                         (pos + direction)%Z
                    end
                end
              else searchAnchor fuel' crossing side bound stop direction
                                (pos + direction)%Z
          end
    end.

(** [direction] and [end] for the crossing point of index [a]. *)
Definition searchDirection (crossing : Crossing) (a : nat) (cross : CrossingPoint)
  : option (Z * Z) :=
  let crossingpoints := Crossing.crossingPoints crossing in
  if CrossingPoint.incoming cross then
    if (length crossingpoints <=? a + 1)%nat
    then Some (1, Z.of_nat (length (Crossing.pointBounds crossing)) - 1)%Z
    else next <- nth_error crossingpoints (a + 1) ;;
         Some (1%Z, Z.of_nat (CrossingPoint.section next))
  else
    match a with
    | O => Some (-1, 0)%Z
    | Datatypes.S a' =>
        previous <- nth_error crossingpoints a' ;;
        Some ((-1)%Z, Z.of_nat (CrossingPoint.section previous))
    end.

(** The body of the loop over [a] in [updateProxyPlacementPoints]. *)
Definition placeCrossingPoint (anchor : Anchors) (canvasCRF : Canvas)
           (crossing : Crossing) (a : nat) (cross : CrossingPoint)
  : option CrossingPoint :=
  let offsetMultiplier := offsetMultiplierOf anchor in
  let side := CrossingPoint.side cross in
  size <- transformWidthHeight (CrossingPoint.nodeBounds cross) canvasCRF ;;
  let offsetx := proxyWidth size * offsetMultiplier in
  let offsety := proxyHeight size * offsetMultiplier in
  de <- searchDirection crossing a cross ;;
  let '(direction, end_) := de in
  let bound := searchBound side offsetx offsety canvasCRF in
  found <- searchAnchor (Datatypes.S (length (Crossing.pointBounds crossing)))
                        crossing side bound (end_ + direction)%Z direction
                        (Z.of_nat (CrossingPoint.section cross)) ;;
  Some match found with
       | Some p => CrossingPoint.with_placement cross p anchor
       | None => cross
       end.

(** The loop over [a]; it assigns [proxyPoint] and [anchor] of
    [crossingpoints[a]] only, and what it reads of the neighbours
    ([section]) is never assigned, so the neighbours are read from the
    crossing as it was. *)
Fixpoint placeCrossingPoints (anchor : Anchors) (canvasCRF : Canvas)
         (crossing : Crossing) (a : nat) (todo : list CrossingPoint)
  : option (list CrossingPoint) :=
  match todo with
  | [] => Some []
  | cross :: rest =>
      cross' <- placeCrossingPoint anchor canvasCRF crossing a cross ;;
      rest' <- placeCrossingPoints anchor canvasCRF crossing (Datatypes.S a) rest ;;
      Some (cross' :: rest')
  end.

(** [updateProxyPlacementPoints] for a value of its local [anchor]. *)
Definition updateProxyPlacementPoints_with (anchor : Anchors)
           (crossings : list Crossing) (canvasCRF : Canvas)
  : option (list Crossing) :=
  mapM (fun crossing =>
          cps <- placeCrossingPoints anchor canvasCRF crossing 0
                                     (Crossing.crossingPoints crossing) ;;
          Some (Crossing.with_crossingPoints crossing cps))
       crossings.

Definition updateProxyPlacementPoints (crossings : list Crossing) (canvasCRF : Canvas)
  : option (list Crossing) :=
  updateProxyPlacementPoints_with Anchors.towardsMiddle crossings canvasCRF.

(** The bounds of a node of the tree as the overlap filter builds them. *)
Definition filterBounds (n : SKNode) : Bounds :=
  Bounds.mk (SKNode.absoluteX n) (SKNode.absoluteY n)
            (Bounds.width (Element.bounds (SKNode.self n)))
            (Bounds.height (Element.bounds (SKNode.self n))).

(** The loops over [i] and [j] of [filterOverlappingWithNodes], on the
    rows from the first one tested: the value of [foundOverlap]. *)
Fixpoint foundOverlapIn (rows : list (list SKNode)) (canvasCRF : Canvas)
         (cp : CrossingPoint) : option bool :=
  match rows with
  | [] => Some false
  | row :: rest =>
      size <- transformWidthHeight (CrossingPoint.nodeBounds cp) canvasCRF ;;
      let cpBounds :=
        Bounds.mk (Point.x (CrossingPoint.proxyPoint cp))
                  (Point.y (CrossingPoint.proxyPoint cp))
                  (proxyWidth size) (proxyHeight size) in
      if existsb (fun n => isInBounds cpBounds (filterBounds n)) row
      then Some true
      else foundOverlapIn rest canvasCRF cp
  end.

(** The loop over the crossing points of one crossing; [depth] is the
    variable of that name, [None] while it is [undefined]. *)
Fixpoint filterCrossingPoints (nodes : list (list SKNode)) (root : SKNode)
         (canvasCRF : Canvas) (depth : option nat) (cps : list CrossingPoint)
  : option (list CrossingPoint) :=
  match cps with
  | [] => Some []
  | cp :: rest =>
      let depth :=
        match depth with
        | Some d => d
        | None => getDepth (CrossingPoint.node cp) (SKNode.self root)
        end in
      foundOverlap <- foundOverlapIn (skipn depth nodes) canvasCRF cp ;;
      filtered <- filterCrossingPoints nodes root canvasCRF (Some depth) rest ;;
      Some (if negb foundOverlap then cp :: filtered else filtered)
  end.

(** The value of [depth] before the crossing points are visited. *)
Definition edgeDepth (edge : SKEdge) (root : SKNode) : option nat :=
  if instanceofSKNode (SKEdge.target edge) && instanceofSKNode (SKEdge.source edge)
  then
    match SKEdge.target edge, SKEdge.source edge with
    | Some target, Some source =>
        let depthTarget := getDepth (Model target) (SKNode.self root) in
        let depthSource := getDepth (Model source) (SKNode.self root) in
        Some (Nat.max depthSource depthTarget)
    | _, _ => None
    end
  else None.

Fixpoint filterCrossings (nodes : list (list SKNode)) (root : SKNode)
         (canvasCRF : Canvas) (crossings : list Crossing) : option (list Crossing) :=
  match crossings with
  | [] => Some []
  | crossing :: rest =>
      let depth := edgeDepth (Crossing.edge crossing) root in
      filtered <- filterCrossingPoints nodes root canvasCRF depth
                                       (Crossing.crossingPoints crossing) ;;
      result <- filterCrossings nodes root canvasCRF rest ;;
      Some (if (0 <? length filtered)%nat
            then Crossing.with_crossingPoints crossing filtered :: result
            else result)
  end.

Definition filterOverlappingWithNodes (crossings : list Crossing) (root : SKNode)
           (canvasCRF : Canvas) : option (list Crossing) :=
  let nodes := getTreeDepths root in
  filterCrossings nodes root canvasCRF crossings.

(** The crossing detection of [createAllProxies]: edge selection, then
    [getCrossings]. *)
Definition detectCrossings (root : SKNode) (canvasCRF : Canvas)
  : option (list Crossing) * list string :=
  let crossingEdges := getPossibleEdges root canvasCRF in
  getCrossings crossingEdges canvasCRF.

(** *** Relations used to state the properties *)

(** What [applyAnchors] does to one crossing point, for a marker of the
    size [size]. *)
Definition anchored (size : ProxySize) (cp cp' : CrossingPoint) : Prop :=
  let offsets :=
    getAnchorOffsets (Bounds.mk 0 0 (proxyWidth size) (proxyHeight size))
                     (CrossingPoint.side cp) (CrossingPoint.anchor cp) in
  Point.x (CrossingPoint.proxyPoint cp')
    = Point.x (CrossingPoint.proxyPoint cp) - fst offsets /\
  Point.y (CrossingPoint.proxyPoint cp')
    = Point.y (CrossingPoint.proxyPoint cp) - snd offsets /\
  CrossingPoint.anchor cp' = Anchors.topLeft /\
  CrossingPoint.side cp' = CrossingPoint.side cp /\
  CrossingPoint.point cp' = CrossingPoint.point cp /\
  CrossingPoint.node cp' = CrossingPoint.node cp /\
  CrossingPoint.nodeBounds cp' = CrossingPoint.nodeBounds cp.

(** Crossing points in segment order, on segments of the crossing. *)
Definition inSegmentOrder (crossing : Crossing) : Prop :=
  (forall i j cpi cpj,
      (i <= j)%nat ->
      nth_error (Crossing.crossingPoints crossing) i = Some cpi ->
      nth_error (Crossing.crossingPoints crossing) j = Some cpj ->
      (CrossingPoint.section cpi <= CrossingPoint.section cpj)%nat) /\
  (forall cp, In cp (Crossing.crossingPoints crossing) ->
              (CrossingPoint.section cp < length (Crossing.pointBounds crossing))%nat).

(** The segments from [pos] on that the search visits before [stop]. *)
Definition visited (pos stop direction pos' : Z) : Prop :=
  (direction = 1%Z /\ (pos <= pos' < stop)%Z) \/
  (direction = (-1)%Z /\ (stop < pos' <= pos)%Z).

(** No segment of the search range of the crossing point of index [a]
    crosses the shrunk rectangle with a root that passes the filter. *)
Definition noAnchorInRange (anchor : Anchors) (canvasCRF : Canvas)
           (crossing : Crossing) (a : nat) (cross : CrossingPoint) : Prop :=
  forall size direction end_ pos pointBound bPoints p,
    transformWidthHeight (CrossingPoint.nodeBounds cross) canvasCRF = Some size ->
    searchDirection crossing a cross = Some (direction, end_) ->
    visited (Z.of_nat (CrossingPoint.section cross)) (end_ + direction) direction pos ->
    let bound :=
      searchBound (CrossingPoint.side cross)
                  (proxyWidth size * offsetMultiplierOf anchor)
                  (proxyHeight size * offsetMultiplierOf anchor) canvasCRF in
    nth_error (Crossing.pointBounds crossing) (Z.to_nat pos) = Some pointBound ->
    isCrossingBounds pointBound bound = true ->
    nth_error (Crossing.bezierPoints crossing) (Z.to_nat pos) = Some bPoints ->
    anchorCandidates (CrossingPoint.side cross) bound bPoints = Some p ->
    p = [].

(** What [updateProxyPlacementPoints] leaves of a crossing point. *)
Definition sameButPlacement (cross cross' : CrossingPoint) : Prop :=
  CrossingPoint.side cross' = CrossingPoint.side cross /\
  CrossingPoint.point cross' = CrossingPoint.point cross /\
  CrossingPoint.t_ cross' = CrossingPoint.t_ cross /\
  CrossingPoint.incoming cross' = CrossingPoint.incoming cross /\
  CrossingPoint.section cross' = CrossingPoint.section cross /\
  CrossingPoint.node cross' = CrossingPoint.node cross /\
  CrossingPoint.nodeBounds cross' = CrossingPoint.nodeBounds cross.

(** The marker of a crossing point overlaps a node of some row of the
    tree at depth [baseline] or below. *)
Definition overlapsNodeFrom (nodes : list (list SKNode)) (baseline : nat)
           (canvasCRF : Canvas) (cp : CrossingPoint) : Prop :=
  exists size i row n,
    transformWidthHeight (CrossingPoint.nodeBounds cp) canvasCRF = Some size /\
    (baseline <= i)%nat /\ nth_error nodes i = Some row /\ In n row /\
    isInBounds
      (Bounds.mk (Point.x (CrossingPoint.proxyPoint cp))
                 (Point.y (CrossingPoint.proxyPoint cp))
                 (proxyWidth size) (proxyHeight size))
      (filterBounds n) = true.

(** The depth from which the overlap filter tests the crossing points of
    a crossing: the deeper endpoint of the edge when both endpoints are
    nodes, else the depth of the node of the first crossing point. *)
Definition baselineDepth (crossing : Crossing) (root : SKNode) : nat :=
  match edgeDepth (Crossing.edge crossing) root with
  | Some depth => depth
  | None =>
      match Crossing.crossingPoints crossing with
      | cp :: _ => getDepth (CrossingPoint.node cp) (SKNode.self root)
      | [] => 0%nat
      end
  end.

(** The crossings that the overlap filter returns for the crossing points
    [filtereds] left of each crossing. *)
Definition keptCrossings (crossings : list Crossing)
           (filtereds : list (list CrossingPoint)) : list Crossing :=
  flat_map (fun '(crossing, filtered) =>
              if (0 <? length filtered)%nat
              then [Crossing.with_crossingPoints crossing filtered]
              else [])
           (combine crossings filtereds).

(** A crossing point as [getCrossings] builds it: anchored at the
    boundary intersection, towards the edge. *)
Definition atBoundary (cp : CrossingPoint) : Prop :=
  CrossingPoint.proxyPoint cp = CrossingPoint.point cp /\
  CrossingPoint.anchor cp = Anchors.towardsEdge.

(** A crossing as [getCrossings] builds it: one bounding box for each
    segment of four points, and the crossing points in segment order. *)
Definition wellFormedCrossing (crossing : Crossing) : Prop :=
  inSegmentOrder crossing /\
  length (Crossing.bezierPoints crossing) = length (Crossing.pointBounds crossing) /\
  Forall (fun bPoints => (4 <= length bPoints)%nat) (Crossing.bezierPoints crossing).

(** *** Definitions for the further properties *)

(** The points [rpoints] of the route of an edge, moved to the canvas. *)
Definition routePoints (edge : SKEdge) : list Point :=
  let edgeBounds := getCanvasBounds edge in
  let offsetx := Bounds.x edgeBounds - Bounds.x (SKEdge.bounds edge) in
  let offsety := Bounds.y edgeBounds - Bounds.y (SKEdge.bounds edge) in
  map (fun p => Point.mk (Point.x p + offsetx) (Point.y p + offsety))
      (SKEdge.routingPoints edge).

(** The value and the axis that [getValueAt] is called with for a side of
    a rectangle, in [getCrossings] and in [updateProxyPlacementPoints]. *)
Definition sideValue (side : Sides) (b : Bounds) : R :=
  match side with
  | Sides.W => Bounds.x b
  | Sides.E => Bounds.x b + Bounds.width b
  | Sides.N => Bounds.y b
  | Sides.S => Bounds.y b + Bounds.height b
  end.

Definition sideAxis (side : Sides) : nat :=
  match side with
  | Sides.W | Sides.E => 0
  | Sides.N | Sides.S => 1
  end.

(** [{point: p, t}] is an entry of what [getValueAt] returns on the segment
    [bPoints] when it is asked for the line of [side] of [b].  Where that
    entry lies is the solver's matter and is not said here. *)
Definition solvedOnSide (side : Sides) (b : Bounds) (bPoints : list Point)
           (p : Point) (t : R) : Prop :=
  exists result,
    getValueAt (sideValue side b) bPoints (sideAxis side) = Some result /\
    In (mkCurvePoint p t) result.

(** A crossing point as [getCrossings] computes it on the segment [bPoints]
    of an edge: an entry of the solver's answer for the line of its side of
    the viewport, so a point of the curve at a parameter in [[0, 1]], kept
    by the grace-offset filter, with the direction found by [isIncoming]
    and a snapshot of the node the edge leads to outside the viewport. *)
Definition crossesSegment (edge : SKEdge) (canvasCRF : Canvas)
           (bPoints : list Point) (cp : CrossingPoint) : Prop :=
  solvedOnSide (CrossingPoint.side cp) (Canvas.bounds canvasCRF) bPoints
               (CrossingPoint.point cp) (CrossingPoint.t_ cp) /\
  0 <= CrossingPoint.t_ cp <= 1 /\
  computeCubic (CrossingPoint.t_ cp) bPoints = Some (CrossingPoint.point cp) /\
  inGrace (Canvas.bounds canvasCRF) (CrossingPoint.point cp) = true /\
  isIncoming (CrossingPoint.t_ cp) (Canvas.bounds canvasCRF) bPoints
  = Some (CrossingPoint.incoming cp) /\
  exists node,
    Object_create (if CrossingPoint.incoming cp
                   then SKEdge.source edge else SKEdge.target edge) = Some node /\
    getSynthesisProxyRenderingSingle node
    = (CrossingPoint.node cp, CrossingPoint.nodeBounds cp).

(** The test of [getPossibleEdges] on an edge. *)
Definition crossesCanvas (canvasCRF : Canvas) (edge : SKEdge) : bool :=
  isCrossingBounds (getCanvasBounds edge) (Canvas.bounds canvasCRF).

(** The placement point of [cross'] was moved by
    [updateProxyPlacementPoints] onto the curve of the crossing: to an
    entry of the solver's answer, on one of the segments, for the line of
    the side of [cross] of the shrunk rectangle. *)
Definition anchoredOnCurve (anchor : Anchors) (canvasCRF : Canvas)
           (crossing : Crossing) (cross cross' : CrossingPoint) : Prop :=
  exists size pos bPoints t,
    transformWidthHeight (CrossingPoint.nodeBounds cross) canvasCRF = Some size /\
    let bound :=
      searchBound (CrossingPoint.side cross)
                  (proxyWidth size * offsetMultiplierOf anchor)
                  (proxyHeight size * offsetMultiplierOf anchor) canvasCRF in
    nth_error (Crossing.bezierPoints crossing) pos = Some bPoints /\
    solvedOnSide (CrossingPoint.side cross) bound bPoints
                 (CrossingPoint.proxyPoint cross') t /\
    0 <= t <= 1 /\
    computeCubic t bPoints = Some (CrossingPoint.proxyPoint cross') /\
    inGrace bound (CrossingPoint.proxyPoint cross') = true /\
    CrossingPoint.anchor cross' = anchor.

(** The crossings of [createAllProxies] before [getCrossingTransform], for
    the canvas in the reference frame of the diagram, with the lines that
    [getCrossings] writes to the console.  The line that
    [updateProxyPlacementPoints] writes at every point it moves is not
    recorded. *)
Definition placedCrossings (root : SKNode) (canvasCRF : Canvas)
  : option (list Crossing) * list string :=
  let crossingEdges := getPossibleEdges root canvasCRF in
  let (found, console) := getCrossings crossingEdges canvasCRF in
  (crossings <- found ;;
   placed <- updateProxyPlacementPoints crossings canvasCRF ;;
   anchored <- applyAnchors placed canvasCRF ;;
   filterOverlappingWithNodes anchored root canvasCRF,
   console).

(** A crossing point of a crossing that is the crossing point found on
    the segment [section] of the crossing. *)
Definition foundOnSegment (canvasCRF : Canvas) (crossing : Crossing)
           (cp : CrossingPoint) : Prop :=
  exists bPoints,
    nth_error (Crossing.bezierPoints crossing) (CrossingPoint.section cp)
    = Some bPoints /\
    crossesSegment (Crossing.edge crossing) canvasCRF bPoints cp.

(** *** The crossing detection of [proxy-view.tsx] *)

(** The four boundary tests of its [getCrossings] on one segment. *)
Definition Legacy_boundaryPoints (b1 b2 : Bounds) (bPoints : list Point)
  : option (list CurvePoint) :=
  let offsetx := 0 in
  let offsety := 0 in
  w <- (if (Bounds.x b1 <=? Bounds.x b2)
           && (Bounds.x b1 + Bounds.width b1 >=? Bounds.x b2)
        then getValueAt (Bounds.x b2 + offsetx) bPoints 0
        else Some []) ;;
  e <- (if (Bounds.x b1 <=? Bounds.x b2 + Bounds.width b2)
           && (Bounds.x b1 + Bounds.width b1 >=? Bounds.x b2 + Bounds.width b2)
        then getValueAt (Bounds.x b2 + Bounds.width b2 - offsetx) bPoints 0
        else Some []) ;;
  n <- (if (Bounds.y b1 <=? Bounds.y b2)
           && (Bounds.y b1 + Bounds.height b1 >=? Bounds.y b2)
        then getValueAt (Bounds.y b2 + offsety) bPoints 1
        else Some []) ;;
  s <- (if (Bounds.y b1 <=? Bounds.y b2 + Bounds.height b2)
           && (Bounds.y b1 + Bounds.height b1 >=? Bounds.y b2 + Bounds.height b2)
        then getValueAt (Bounds.y b2 + Bounds.height b2 - offsety) bPoints 1
        else Some []) ;;
  let cPoints := w ++ e ++ n ++ s in
  Some (if (0 <? length cPoints)%nat
        then filter (fun p => inGrace b2 (cv_point p)) cPoints
        else cPoints).

(** The body of [for (const {point, t} of cPoints)]. *)
Definition Legacy_classify (canvasCRF : Canvas) (bPoints : list Point)
           (p : CurvePoint) : option Legacy.CrossingPoint :=
  incoming <- isIncoming (cv_t p) (Canvas.bounds canvasCRF) bPoints ;;
  Some (Legacy.mkPoint (cv_point p) incoming None None).

(** The loop over the segments: a crossing for each segment with a
    crossing point. *)
Fixpoint Legacy_segmentCrossings (edge : SKEdge) (canvasCRF : Canvas)
         (pointBounds : list Bounds) (bezierPoints : list (list Point))
  : option (list Legacy.Crossing) :=
  match pointBounds, bezierPoints with
  | pointBound :: pointBounds', bPoints :: bezierPoints' =>
      here <-
        (if isCrossingBounds pointBound (Canvas.bounds canvasCRF) then
           cPoints <- Legacy_boundaryPoints pointBound (Canvas.bounds canvasCRF)
                                            bPoints ;;
           if (0 <? length cPoints)%nat then
             cross <- mapM (Legacy_classify canvasCRF bPoints) cPoints ;;
             Some [Legacy.mk edge cross]
           else Some []
         else Some []) ;;
      later <- Legacy_segmentCrossings edge canvasCRF pointBounds' bezierPoints' ;;
      Some (here ++ later)
  | _, _ => Some []
  end.

(** The body of [for (const edge of proxyEdges)]. *)
Definition Legacy_edgeCrossings (edge : SKEdge) (canvasCRF : Canvas)
  : option Legacy.EdgeResult :=
  let edgeBounds := getCanvasBounds edge in
  let offsetx := Bounds.x edgeBounds - Bounds.x (SKEdge.bounds edge) in
  let offsety := Bounds.y edgeBounds - Bounds.y (SKEdge.bounds edge) in
  let rpointsWithoutOffset := SKEdge.routingPoints edge in
  let rpoints :=
    map (fun p => Point.mk (Point.x p + offsetx) (Point.y p + offsety))
        rpointsWithoutOffset in
  if (Nat.eqb (length rpoints mod 3) 1 && (4 <=? length rpoints))%nat then
    let bezierPoints :=
      map (fun i => slice (i * 3) (i * 3 + 4) rpoints)
          (seq 0 (length rpoints / 3)) in
    pointBounds <- mapM getBoundsFromPoints bezierPoints ;;
    crossings <- Legacy_segmentCrossings edge canvasCRF pointBounds bezierPoints ;;
    Some (Legacy.Pushed crossings)
  else Some (Legacy.Logged diagnostic).

Fixpoint Legacy_getCrossings_from (proxyEdges : list SKEdge) (canvasCRF : Canvas)
         (crossings : list Legacy.Crossing) (console : list string)
  : option (list Legacy.Crossing) * list string :=
  match proxyEdges with
  | [] => (Some crossings, console)
  | edge :: rest =>
      match Legacy_edgeCrossings edge canvasCRF with
      | None => (None, console)
      | Some (Legacy.Pushed pushed) =>
          Legacy_getCrossings_from rest canvasCRF (crossings ++ pushed) console
      | Some (Legacy.Logged message) =>
          Legacy_getCrossings_from rest canvasCRF crossings (console ++ [message])
      end
  end.

Definition Legacy_getCrossings (proxyEdges : list SKEdge) (canvasCRF : Canvas)
  : option (list Legacy.Crossing) * list string :=
  Legacy_getCrossings_from proxyEdges canvasCRF [] [].

(** The body of the inner loop of [getCorrespondingCrossingNodes] of
    [proxy-view.tsx]. *)
Definition correspondingNode (edge : SKEdge) (cp : Legacy.CrossingPoint)
  : option Legacy.CrossingPoint :=
  node <- (if Legacy.incoming cp
           then Object_create (SKEdge.source edge)
           else Object_create (SKEdge.target edge)) ;;
  Some (Legacy.mkPoint (Legacy.point cp) (Legacy.incoming cp)
                       (Some node) (Legacy.nodeBounds cp)).

Definition getCorrespondingCrossingNodes (crossings : list Legacy.Crossing)
  : option (list Legacy.Crossing) :=
  mapM (fun crossing =>
          cps <- mapM (correspondingNode (Legacy.edge crossing))
                      (Legacy.crossingPoints crossing) ;;
          Some (Legacy.mk (Legacy.edge crossing) cps))
       crossings.

(** The body of the inner loop of [getCorrespondingSynthesis] of
    [proxy-view.tsx]; reading the bounds of an undefined node throws. *)
Definition correspondingSynthesis (cp : Legacy.CrossingPoint)
  : option Legacy.CrossingPoint :=
  node <- Legacy.node cp ;;
  let '(node, proxyBounds) := getSynthesisProxyRenderingSingle node in
  Some (Legacy.mkPoint (Legacy.point cp) (Legacy.incoming cp)
                       (Some node) (Some proxyBounds)).

Definition getCorrespondingSynthesis (crossings : list Legacy.Crossing)
  : option (list Legacy.Crossing) :=
  mapM (fun crossing =>
          cps <- mapM correspondingSynthesis (Legacy.crossingPoints crossing) ;;
          Some (Legacy.mk (Legacy.edge crossing) cps))
       crossings.

(** The two stages after [getCrossings] in [createAllProxies] of
    [proxy-view.tsx]. *)
Definition Legacy_nodes (crossings : list Legacy.Crossing)
  : option (list Legacy.Crossing) :=
  crossingsWithNode <- getCorrespondingCrossingNodes crossings ;;
  getCorrespondingSynthesis crossingsWithNode.

(** The three stages as [createAllProxies] of [proxy-view.tsx] chains
    them, with the console. *)
Definition Legacy_detect (proxyEdges : list SKEdge) (canvasCRF : Canvas)
  : option (list Legacy.Crossing) * list string :=
  let (found, console) := Legacy_getCrossings proxyEdges canvasCRF in
  (crossings <- found ;; Legacy_nodes crossings, console).

(** The markers of the stages of [proxy-view.tsx] on crossings that may
    have thrown, against those expected. *)
Definition agrees (expected : option (list Marker))
           (found : option (list Legacy.Crossing)) : Prop :=
  match found with
  | Some crossings => option_map Legacy_markersOf (Legacy_nodes crossings) = expected
  | None => expected = None
  end.

(** What [markersOf] makes of a crossing point of an edge. *)
Definition markerOf (edge : SKEdge) (cp : CrossingPoint) : Marker :=
  (edge, CrossingPoint.point cp, CrossingPoint.incoming cp,
   Some (CrossingPoint.node cp), Some (CrossingPoint.nodeBounds cp)).

(** ** Facts about the number model *)

Lemma leb_num_true (a b : R) : (a <=? b) = true <-> a <= b.
Proof. unfold leb_num. destruct (Rle_dec a b); split; intros; try easy; lra. Qed.

Lemma leb_num_false (a b : R) : (a <=? b) = false <-> b < a.
Proof. unfold leb_num. destruct (Rle_dec a b); split; intros; try easy; lra. Qed.

Lemma ltb_num_true (a b : R) : (a <? b) = true <-> a < b.
Proof. unfold ltb_num. destruct (Rlt_dec a b); split; intros; try easy; lra. Qed.

Lemma ltb_num_false (a b : R) : (a <? b) = false <-> b <= a.
Proof. unfold ltb_num. destruct (Rlt_dec a b); split; intros; try easy; lra. Qed.

Lemma eqb_num_true (a b : R) : (a =? b) = true <-> a = b.
Proof. unfold eqb_num. destruct (Req_dec_T a b); split; intros; easy. Qed.

Lemma eqb_num_false (a b : R) : (a =? b) = false <-> a <> b.
Proof. unfold eqb_num. destruct (Req_dec_T a b); split; intros; easy. Qed.

Lemma reduce_true (t : R) : reduce t = true <-> 0 <= t <= 1.
Proof.
  unfold reduce. rewrite andb_true_iff, !leb_num_true. tauto.
Qed.

Lemma Math_sqrt_Some (v : R) : 0 <= v -> Math_sqrt v = Some (sqrt v).
Proof. intros H. unfold Math_sqrt. destruct (Rlt_dec v 0); [lra | reflexivity]. Qed.

Lemma Math_sqrt_None (v : R) : v < 0 -> Math_sqrt v = None.
Proof. intros H. unfold Math_sqrt. destruct (Rlt_dec v 0); [reflexivity | lra]. Qed.

Lemma Math_pow_third_cube (v : R) :
  0 <= v -> Math_pow v (1 / 3) * Math_pow v (1 / 3) * Math_pow v (1 / 3) = v.
Proof.
  intros Hv. unfold Math_pow. destruct (Req_dec_T v 0) as [-> | Hne]; [ring |].
  assert (Hpos : 0 < v) by lra.
  rewrite <- !Rpower_plus.
  replace (1 / 3 + 1 / 3 + 1 / 3) with 1 by field.
  now apply Rpower_1.
Qed.

(** [crt] is the real cube root. *)
Lemma crt_cube (v : R) : crt v * crt v * crt v = v.
Proof.
  unfold crt. destruct (v <? 0) eqn:Hv.
  - apply ltb_num_true in Hv.
    pose proof (Math_pow_third_cube (- v) ltac:(lra)) as H. lra.
  - apply ltb_num_false in Hv. now apply Math_pow_third_cube.
Qed.

Lemma cube_inj (u v : R) : u * u * u = v * v * v -> u = v.
Proof.
  intros H.
  assert (Hf : (u - v) * (u * u + u * v + v * v) = 0) by lra.
  apply Rmult_integral in Hf. destruct Hf as [Hf | Hf]; [lra |].
  pose proof (Rle_0_sqr (u + v / 2)) as H1.
  pose proof (Rle_0_sqr v) as H2. unfold Rsqr in H1, H2.
  assert (Hv : v * v = 0) by nra.
  apply Rmult_integral in Hv.
  assert (Hv0 : v = 0) by tauto. subst v.
  assert (Hu : u * u = 0) by nra.
  apply Rmult_integral in Hu. tauto.
Qed.

Lemma crt_unique (u v : R) : u * u * u = v -> crt v = u.
Proof.
  intros H. apply cube_inj. rewrite crt_cube. now symmetry.
Qed.

Lemma crt_opp (v : R) : crt (- v) = - crt v.
Proof.
  apply crt_unique. pose proof (crt_cube v). lra.
Qed.

Lemma crt_sqrt_cube (m : R) : 0 <= m -> crt (sqrt (m * m * m)) = sqrt m.
Proof.
  intros Hm. apply crt_unique.
  pose proof (sqrt_sqrt m Hm) as Hs.
  pose proof (sqrt_pos m) as Hp.
  symmetry. apply sqrt_lem_1; [nra | nra |].
  replace (sqrt m * sqrt m * sqrt m * (sqrt m * sqrt m * sqrt m))
    with ((sqrt m * sqrt m) * (sqrt m * sqrt m) * (sqrt m * sqrt m)) by ring.
  rewrite Hs. ring.
Qed.

Lemma cos_3a (a : R) : cos (3 * a) = 4 * (cos a * cos a * cos a) - 3 * cos a.
Proof.
  replace (3 * a) with (2 * a + a) by ring.
  rewrite cos_plus, cos_2a, sin_2a.
  pose proof (sin2_cos2 a) as H. unfold Rsqr in H.
  assert (Hs : sin a * sin a = 1 - cos a * cos a) by lra.
  transitivity (cos a * cos a * cos a - 3 * (sin a * sin a) * cos a);
    [ring | rewrite Hs; ring].
Qed.

Lemma cos_2PI_minus (a : R) : cos (2 * PI - a) = cos a.
Proof. rewrite cos_minus, cos_2PI, sin_2PI. ring. Qed.

Lemma cos_minus_2PI (a : R) : cos (a - 2 * PI) = cos a.
Proof. rewrite cos_minus, cos_2PI, sin_2PI. ring. Qed.

(** The three angles whose triple has a given cosine. *)
Lemma cos_triple_cases (theta phi : R) :
  0 <= theta <= PI -> 0 <= phi <= PI -> cos (3 * theta) = cos phi ->
  cos theta = cos (phi / 3) \/
  cos theta = cos ((phi + 2 * PI) / 3) \/
  cos theta = cos ((phi + 2 * 2 * PI) / 3).
Proof.
  intros Ht Hp Hc.
  destruct (Rle_dec (3 * theta) PI) as [H1 | H1].
  - left. f_equal. apply cos_inj in Hc; lra.
  - destruct (Rle_dec (3 * theta) (2 * PI)) as [H2 | H2].
    + right. right. rewrite <- cos_2PI_minus in Hc.
      apply cos_inj in Hc; [| lra | lra].
      rewrite <- (cos_2PI_minus theta). f_equal. lra.
    + right. left. rewrite <- cos_minus_2PI in Hc.
      apply cos_inj in Hc; [| lra | lra].
      f_equal. lra.
Qed.

(** ** The depressed cubic [x^3 + p x + q = 0] *)

Section DepressedCubic.

Variables p q : R.

Local Abbreviation q2 := (q / 2).
Local Abbreviation p3 := (p / 3).
Local Abbreviation discriminant := (q2 * q2 + p3 * p3 * p3).

(** Two distinct real roots force a discriminant that is not positive. *)
Lemma two_roots_discriminant (x z : R) :
  x * x * x + p * x + q = 0 -> z * z * z + p * z + q = 0 -> x <> z ->
  discriminant <= 0.
Proof.
  intros Hx Hz Hne.
  assert (Hf : (x - z) * (x * x + x * z + z * z + p) = 0) by lra.
  apply Rmult_integral in Hf. destruct Hf as [Hf | Hf]; [lra |].
  assert (Hp : p = - (x * x + x * z + z * z)) by lra.
  assert (Hq : q = x * z * (x + z)).
  { rewrite Hp in Hz. lra. }
  assert (Hd : 108 * discriminant =
               - (((x - z) * (x + 2 * z) * (2 * x + z)) *
                  ((x - z) * (x + 2 * z) * (2 * x + z)))).
  { rewrite Hp, Hq. field. }
  pose proof (Rle_0_sqr ((x - z) * (x + 2 * z) * (2 * x + z))) as Hs.
  unfold Rsqr in Hs. lra.
Qed.

(** Positive discriminant: Cardano's radical formula gives the root. *)
Lemma cardano_root (x : R) :
  0 < discriminant -> x * x * x + p * x + q = 0 ->
  x = crt (- q2 + sqrt discriminant) - crt (q2 + sqrt discriminant).
Proof.
  intros Hd Hx.
  set (sd := sqrt discriminant).
  set (u := crt (- q2 + sd)). set (v := crt (q2 + sd)).
  assert (Hsd : sd * sd = discriminant) by (apply sqrt_sqrt; lra).
  assert (Hu : u * u * u = - q2 + sd) by apply crt_cube.
  assert (Hv : v * v * v = q2 + sd) by apply crt_cube.
  assert (Huv : u * v = p3).
  { apply cube_inj.
    replace (u * v * (u * v) * (u * v)) with ((u * u * u) * (v * v * v)) by ring.
    rewrite Hu, Hv. lra. }
  assert (Hroot : (u - v) * (u - v) * (u - v) + p * (u - v) + q = 0).
  { replace ((u - v) * (u - v) * (u - v))
      with (u * u * u - v * v * v - 3 * (u * v) * (u - v)) by ring.
    rewrite Hu, Hv, Huv. field. }
  destruct (Req_dec_T x (u - v)) as [He | Hne]; [exact He |].
  pose proof (two_roots_discriminant x (u - v) Hx Hroot Hne). lra.
Qed.

(** Zero discriminant: a simple root and a double one. *)
Lemma double_root (x : R) :
  discriminant = 0 -> x * x * x + p * x + q = 0 ->
  let u1 := if q2 <? 0 then crt (- q2) else - crt q2 in
  x = 2 * u1 \/ x = - u1.
Proof.
  intros Hd Hx u1.
  assert (Hu1 : u1 = - crt q2).
  { unfold u1. destruct (q2 <? 0); [apply crt_opp | reflexivity]. }
  assert (Hc : u1 * u1 * u1 = - q2).
  { rewrite Hu1. pose proof (crt_cube q2). lra. }
  assert (Hp3 : p3 = - (u1 * u1)).
  { apply cube_inj.
    replace (- (u1 * u1) * - (u1 * u1) * - (u1 * u1))
      with (- ((u1 * u1 * u1) * (u1 * u1 * u1))) by ring.
    rewrite Hc. lra. }
  assert (Hp : p = - 3 * (u1 * u1)) by lra.
  assert (Hq : q = - 2 * (u1 * u1 * u1)) by lra.
  assert (Hf : (x - 2 * u1) * ((x + u1) * (x + u1)) = 0).
  { rewrite Hp, Hq in Hx. lra. }
  apply Rmult_integral in Hf. destruct Hf as [Hf | Hf]; [left; lra |].
  apply Rmult_integral in Hf. right. lra.
Qed.

(** Negative discriminant: every root is one of the three cosines. *)
Lemma cosine_roots (x : R) :
  discriminant < 0 -> x * x * x + p * x + q = 0 ->
  let mp3 := - p / 3 in
  let r := sqrt (mp3 * mp3 * mp3) in
  let t := - q / (2 * r) in
  let cosphi := if t <? -1 then -1 else if t >? 1 then 1 else t in
  let phi := acos cosphi in
  let t1 := 2 * crt r in
  x = t1 * cos (phi / 3) \/
  x = t1 * cos ((phi + 2 * PI) / 3) \/
  x = t1 * cos ((phi + 2 * 2 * PI) / 3).
Proof.
  intros Hd Hx mp3 r t cosphi phi t1.
  assert (Hq2 : 0 <= q2 * q2) by apply Rle_0_sqr.
  assert (Hmp3 : 0 < mp3).
  { unfold mp3. destruct (Rle_dec 0 p) as [Hp | Hp]; [| lra].
    assert (0 <= p / 3 * (p / 3) * (p / 3)).
    { apply Rmult_le_pos; [apply Rle_0_sqr | lra]. }
    lra. }
  set (m := sqrt mp3).
  assert (Hm : m * m = mp3) by (apply sqrt_sqrt; lra).
  assert (Hmpos : 0 < m) by (apply sqrt_lt_R0; exact Hmp3).
  assert (Hcrt : crt r = m) by (apply crt_sqrt_cube; lra).
  assert (Hr : r = m * m * m).
  { rewrite <- Hcrt. symmetry. apply crt_cube. }
  assert (Hrpos : 0 < r) by (rewrite Hr; repeat apply Rmult_lt_0_compat; lra).
  assert (Hp : p = - 3 * (m * m)) by (unfold mp3 in Hm; lra).
  assert (Hrr : r * r = mp3 * mp3 * mp3) by (rewrite Hr, <- Hm; ring).
  assert (Hqr : q2 * q2 < r * r).
  { rewrite Hrr. unfold mp3. lra. }
  assert (Ht : - 1 < t < 1).
  { assert (Htq : t = - q2 / r) by (unfold t; field; lra).
    assert (Habs : - r < q2 < r) by (split; nra).
    rewrite Htq. split.
    - apply Rmult_lt_reg_r with r; [lra |]. unfold Rdiv.
      rewrite Rmult_assoc, Rinv_l by lra. lra.
    - apply Rmult_lt_reg_r with r; [lra |]. unfold Rdiv.
      rewrite Rmult_assoc, Rinv_l by lra. lra. }
  assert (Hcosphi : cosphi = t).
  { unfold cosphi. destruct (t <? -1) eqn:H1; [apply ltb_num_true in H1; lra |].
    destruct (t >? 1) eqn:H2; [apply ltb_num_true in H2; lra | reflexivity]. }
  assert (Hphi : 0 <= phi <= PI) by apply acos_bound.
  assert (Hcphi : cos phi = t).
  { unfold phi. rewrite Hcosphi. apply cos_acos. lra. }
  (* the root lies within the amplitude of the cosines *)
  assert (Hbound : x * x <= 4 * (m * m)).
  { assert (Hq : q = - (x * x * x) - p * x) by lra.
    assert (Hid : 108 * discriminant
                  = (3 * (x * x) + 4 * p) * ((3 * (x * x) + p) * (3 * (x * x) + p))).
    { rewrite Hq. field. }
    destruct (Rle_dec (x * x) (4 * (m * m))) as [Hle | Hgt]; [exact Hle |].
    assert (0 < 3 * (x * x) + 4 * p) by lra.
    pose proof (Rle_0_sqr (3 * (x * x) + p)) as Hs. unfold Rsqr in Hs.
    assert (0 <= (3 * (x * x) + 4 * p) * ((3 * (x * x) + p) * (3 * (x * x) + p))).
    { apply Rmult_le_pos; lra. }
    lra. }
  set (c := x / (2 * m)).
  assert (Hxc : x = 2 * m * c) by (unfold c; field; lra).
  assert (Hc : - 1 <= c <= 1).
  { assert (Hcc : c * c <= 1).
    { apply Rmult_le_reg_l with (4 * (m * m)); [nra |].
      replace (4 * (m * m) * (c * c)) with ((2 * m * c) * (2 * m * c)) by ring.
      rewrite <- Hxc. lra. }
    split; nra. }
  set (theta := acos c).
  assert (Htheta : 0 <= theta <= PI) by apply acos_bound.
  assert (Hct : cos theta = c) by (apply cos_acos; exact Hc).
  assert (H3 : cos (3 * theta) = cos phi).
  { rewrite cos_3a, Hct, Hcphi. unfold t. rewrite Hr.
    apply Rmult_eq_reg_l with (2 * (m * m * m)).
    - replace (2 * (m * m * m) * (- q / (2 * (m * m * m)))) with (- q)
        by (field; lra).
      rewrite Hxc, Hp in Hx. lra.
    - assert (0 < m * m * m) by (repeat apply Rmult_lt_0_compat; lra). lra. }
  unfold t1. rewrite Hcrt, Hxc.
  destruct (cos_triple_cases theta phi Htheta Hphi H3) as [H | [H | H]];
    rewrite <- H, Hct; auto.
Qed.

End DepressedCubic.

(** ** The solver on the polynomial of one curve coordinate *)

Lemma In_filter_reduce (t : R) (l : list R) :
  In t l -> 0 <= t <= 1 -> In t (filter reduce l).
Proof. intros Hin Ht. apply filter_In. split; [exact Hin | now apply reduce_true]. Qed.

Lemma roots_of_range (pa pb pc pd t : R) :
  In t (roots_of pa pb pc pd) -> 0 <= t <= 1.
Proof.
  unfold roots_of.
  repeat match goal with
         | |- context [if ?c then _ else _] => destruct c
         | |- context [match Math_sqrt ?v with _ => _ end] => destruct (Math_sqrt v)
         end;
    intros Hin; try (now destruct Hin);
    apply filter_In in Hin; now apply reduce_true.
Qed.

(** Every parameter in [[0, 1]] at which the polynomial vanishes is returned,
    unless the polynomial is constant. *)
Lemma roots_of_complete (pa pb pc pd t0 : R) :
  0 <= t0 <= 1 ->
  bernstein pa pb pc pd t0 = 0 ->
  ~ (pa = pb /\ pb = pc /\ pc = pd) ->
  In t0 (roots_of pa pb pc pd).
Proof.
  intros Ht0 Hb Hnd. unfold roots_of.
  set (d := - pa + 3 * pb - 3 * pc + pd).
  set (a := 3 * pa - 6 * pb + 3 * pc).
  set (b := - 3 * pa + 3 * pb).
  assert (Hpoly : d * (t0 * t0 * t0) + a * (t0 * t0) + b * t0 + pa = 0).
  { unfold bernstein in Hb. unfold d, a, b. rewrite <- Hb. ring. }
  destruct (d =? 0) eqn:Hd.
  - apply eqb_num_true in Hd. rewrite Hd in Hpoly.
    destruct (a =? 0) eqn:Ha.
    + apply eqb_num_true in Ha. rewrite Ha in Hpoly.
      destruct (b =? 0) eqn:Hbz.
      * apply eqb_num_true in Hbz. exfalso. apply Hnd.
        unfold d, a, b in *. repeat split; lra.
      * apply eqb_num_false in Hbz.
        apply In_filter_reduce; [| exact Ht0]. left. field_simplify_eq; lra.
    + apply eqb_num_false in Ha.
      assert (Hsq : (2 * a * t0 + b) * (2 * a * t0 + b) = b * b - 4 * a * pa).
      { replace ((2 * a * t0 + b) * (2 * a * t0 + b))
          with (4 * a * (a * (t0 * t0) + b * t0) + b * b) by ring.
        replace (a * (t0 * t0) + b * t0) with (- pa) by lra. ring. }
      assert (Hnn : 0 <= b * b - 4 * a * pa).
      { rewrite <- Hsq. apply Rle_0_sqr. }
      rewrite (Math_sqrt_Some _ Hnn).
      apply In_filter_reduce; [| exact Ht0].
      destruct (Rle_dec 0 (2 * a * t0 + b)) as [Hs | Hs].
      * left. rewrite <- Hsq, sqrt_square by exact Hs. field. exact Ha.
      * right. left.
        replace ((2 * a * t0 + b) * (2 * a * t0 + b))
          with ((- (2 * a * t0 + b)) * (- (2 * a * t0 + b))) in Hsq by ring.
        rewrite <- Hsq, sqrt_square by lra. field. exact Ha.
  - apply eqb_num_false in Hd.
    set (a' := a / d). set (b' := b / d). set (c' := pa / d).
    set (p := (3 * b' - a' * a') / 3).
    set (q := (2 * a' * a' * a' - 9 * a' * b' + 27 * c') / 27).
    set (x := t0 + a' / 3).
    assert (Hx : x * x * x + p * x + q = 0).
    { unfold x, p, q, a', b', c'.
      apply Rmult_eq_reg_l with d; [| exact Hd].
      rewrite Rmult_0_r, <- Hpoly. field. exact Hd. }
    assert (Ht : t0 = x - a' / 3) by (unfold x; ring).
    destruct (q / 2 * (q / 2) + p / 3 * (p / 3) * (p / 3) <? 0) eqn:Hneg.
    + apply ltb_num_true in Hneg.
      pose proof (cosine_roots p q x Hneg Hx) as Hc. cbv zeta in Hc.
      assert (Hmp : 0 <= - p / 3 * (- p / 3) * (- p / 3)).
      { pose proof (Rle_0_sqr (q / 2)) as Hq2. unfold Rsqr in Hq2.
        replace (- p / 3 * (- p / 3) * (- p / 3))
          with (- (p / 3 * (p / 3) * (p / 3))) by field. lra. }
      rewrite (Math_sqrt_Some _ Hmp).
      apply In_filter_reduce; [| exact Ht0].
      destruct Hc as [Hc | [Hc | Hc]]; rewrite Ht, Hc; simpl; auto.
    + apply ltb_num_false in Hneg.
      destruct (q / 2 * (q / 2) + p / 3 * (p / 3) * (p / 3) =? 0) eqn:Hz.
      * apply eqb_num_true in Hz.
        pose proof (double_root p q x Hz Hx) as Hc. cbv zeta in Hc.
        apply In_filter_reduce; [| exact Ht0].
        destruct Hc as [Hc | Hc]; rewrite Ht, Hc; simpl; auto.
      * apply eqb_num_false in Hz.
        assert (Hpos : 0 < q / 2 * (q / 2) + p / 3 * (p / 3) * (p / 3)) by lra.
        rewrite Math_sqrt_Some by lra.
        apply In_filter_reduce; [| exact Ht0].
        left. rewrite Ht, (cardano_root p q x Hpos Hx). reflexivity.
Qed.

(** ** [getValueAt] on four control points *)

Lemma Math_atan2_x_axis : Math_atan2 (0 - 0) (1 - 0) = 0.
Proof.
  unfold Math_atan2. destruct (Rlt_dec 0 (1 - 0)); [| lra].
  replace ((0 - 0) / (1 - 0)) with 0 by field. apply atan_0.
Qed.

Lemma Math_atan2_y_axis : Math_atan2 (1 - 0) (0 - 0) = PI / 2.
Proof.
  unfold Math_atan2.
  destruct (Rlt_dec 0 (0 - 0)); [lra |].
  destruct (Rlt_dec (0 - 0) 0); [lra |].
  destruct (Rlt_dec 0 (1 - 0)); [reflexivity | lra].
Qed.

Lemma evaluate_roots_four (root : list R) (p0 p1 p2 p3 : Point) :
  exists result,
    evaluate_roots root [p0; p1; p2; p3] = Some result /\
    map cv_t result = root /\
    forall e, In e result ->
              computeCubic (cv_t e) [p0; p1; p2; p3] = Some (cv_point e).
Proof.
  induction root as [| t rest IH].
  - exists []. simpl. repeat split; intros e [].
  - destruct IH as (result & Hr & Hm & He).
    destruct (computeCubic t [p0; p1; p2; p3]) as [pt |] eqn:Hc;
      [| discriminate Hc].
    exists (mkCurvePoint pt t :: result).
    change (evaluate_roots (t :: rest) [p0; p1; p2; p3])
      with (match computeCubic t [p0; p1; p2; p3] with
            | None => None
            | Some point =>
                match evaluate_roots rest [p0; p1; p2; p3] with
                | None => None
                | Some result => Some (mkCurvePoint point t :: result)
                end
            end).
    rewrite Hc, Hr. repeat split.
    + simpl. now rewrite Hm.
    + intros e [<- | Hin]; [exact Hc | now apply He].
Qed.

(** On four points or more [getValueAt] returns. *)
Lemma getValueAt_returns (value : R) (points : list Point) (axis : nat) :
  (4 <= length points)%nat -> exists result, getValueAt value points axis = Some result.
Proof.
  intros Hlen.
  destruct points as [| p0 [| p1 [| p2 [| p3 rest]]]]; simpl in Hlen; try lia.
  unfold getValueAt, roots, align. cbn [map].
  match goal with
  | |- context [roots_of ?a ?b ?c ?d] => generalize (roots_of a b c d)
  end.
  intros root. induction root as [| t root IH].
  - now exists [].
  - destruct IH as (result & Hr). cbn [evaluate_roots computeCubic].
    rewrite Hr. eexists. reflexivity.
Qed.

(** What [getValueAt] hands to the polynomial solver, for each axis. *)
Lemma getValueAt_roots_of (value : R) (p0 p1 p2 p3 : Point) (axis : nat) :
  getValueAt value [p0; p1; p2; p3] axis =
  evaluate_roots
    (if Nat.eqb axis 1
     then roots_of (- (Point.y p0 - value)) (- (Point.y p1 - value))
                   (- (Point.y p2 - value)) (- (Point.y p3 - value))
     else roots_of (Point.x p0 - value) (Point.x p1 - value)
                   (Point.x p2 - value) (Point.x p3 - value))
    [p0; p1; p2; p3].
Proof.
  unfold getValueAt, roots, align, align_point.
  destruct (Nat.eqb axis 1); cbn [map Line.p1 Line.p2 Point.x Point.y].
  - rewrite Math_atan2_y_axis, cos_neg, sin_neg, cos_PI2, sin_PI2.
    f_equal. f_equal; ring.
  - rewrite Math_atan2_x_axis, Ropp_0, cos_0, sin_0.
    f_equal. f_equal; ring.
Qed.

Lemma bernstein_shift (pa pb pc pd v t : R) :
  bernstein (pa - v) (pb - v) (pc - v) (pd - v) t = bernstein pa pb pc pd t - v.
Proof. unfold bernstein. ring. Qed.

Lemma bernstein_opp (pa pb pc pd t : R) :
  bernstein (- pa) (- pb) (- pc) (- pd) t = - bernstein pa pb pc pd t.
Proof. unfold bernstein. ring. Qed.

Lemma computeCubic_axis (t : R) (p0 p1 p2 p3 pt : Point) (axis : nat) :
  computeCubic t [p0; p1; p2; p3] = Some pt ->
  axis_coord axis pt =
  bernstein (axis_coord axis p0) (axis_coord axis p1)
            (axis_coord axis p2) (axis_coord axis p3) t.
Proof.
  intros H. injection H as <-. unfold axis_coord, bernstein.
  destruct (Nat.eqb axis 1); cbn [Point.x Point.y]; ring.
Qed.

(** ** The root solver in exact arithmetic

    What the formulae of [roots] give when nothing is rounded.  The script
    rounds; what holds of its solver is stated of [Double.roots]. *)

(** The degeneracy cascade in exact arithmetic: with a zero cubic
    coefficient the call returns normally; with a quadratic coefficient that
    is not zero the result is the solutions in [[0, 1]] of the quadratic;
    with a zero quadratic coefficient and a linear one that is not zero it
    is the filtered linear solution [- c / b]; with all three zero it is
    empty. *)
Lemma roots_degeneracy_cascade (p0 p1 p2 p3 : Point) (more : list Point)
        (line : Line) :
  let pa := Point.y (align_point line p0) in
  let pb := Point.y (align_point line p1) in
  let pc := Point.y (align_point line p2) in
  let pd := Point.y (align_point line p3) in
  let d := - pa + 3 * pb - 3 * pc + pd in
  let a := 3 * pa - 6 * pb + 3 * pc in
  let b := - 3 * pa + 3 * pb in
  let c := pa in
  d = 0 ->
  exists l,
    roots (p0 :: p1 :: p2 :: p3 :: more) line = Some l /\
    (a <> 0 -> forall t, In t l <-> 0 <= t <= 1 /\ a * (t * t) + b * t + c = 0) /\
    (a = 0 -> b <> 0 ->
     l = filter reduce [- c / b] /\
     forall t, In t l <-> 0 <= t <= 1 /\ b * t + c = 0) /\
    (a = 0 -> b = 0 -> l = []).
Proof.
  intros pa pb pc pd d a b c Hd.
  exists (roots_of pa pb pc pd). split; [reflexivity |].
  unfold roots_of. fold d a b c.
  apply eqb_num_true in Hd. rewrite Hd.
  split; [| split].
  - intros Ha. apply eqb_num_false in Ha. rewrite Ha.
    apply eqb_num_false in Ha. intros t.
    destruct (Rlt_dec (b * b - 4 * a * c) 0) as [Hneg | Hnn].
    + rewrite Math_sqrt_None by exact Hneg. split; [intros [] |].
      intros [_ Heq]. exfalso.
      pose proof (Rle_0_sqr (2 * a * t + b)) as Hs. unfold Rsqr in Hs.
      replace ((2 * a * t + b) * (2 * a * t + b))
        with (4 * a * (a * (t * t) + b * t + c) + (b * b - 4 * a * c)) in Hs by ring.
      rewrite Heq in Hs. lra.
    + rewrite Math_sqrt_Some by lra.
      set (q := sqrt (b * b - 4 * a * c)).
      assert (Hq : q * q = b * b - 4 * a * c) by (apply sqrt_sqrt; lra).
      assert (Hqpos : 0 <= q) by apply sqrt_pos.
      rewrite filter_In, reduce_true. split.
      * intros [Hin Hr]. split; [exact Hr |].
        assert (Hroot : (2 * a * t + b) * (2 * a * t + b) = q * q).
        { destruct Hin as [<- | [<- | []]]; field; exact Ha. }
        apply Rmult_eq_reg_l with (4 * a); [| lra].
        rewrite Hq in Hroot. lra.
      * intros [Hr Heq]. split; [| exact Hr].
        assert (Hroot : (2 * a * t + b) * (2 * a * t + b) = q * q).
        { rewrite Hq.
          replace ((2 * a * t + b) * (2 * a * t + b))
            with (4 * a * (a * (t * t) + b * t + c) + (b * b - 4 * a * c)) by ring.
          rewrite Heq. ring. }
        assert (Hf : (2 * a * t + b - q) * (2 * a * t + b + q) = 0) by lra.
        apply Rmult_integral in Hf. destruct Hf as [Hf | Hf].
        -- left. field_simplify_eq; [lra | exact Ha].
        -- right. left. field_simplify_eq; [lra | exact Ha].
  - intros Ha Hb. apply eqb_num_true in Ha. rewrite Ha.
    apply eqb_num_false in Hb. rewrite Hb. apply eqb_num_false in Hb.
    split; [reflexivity |]. intros t.
    rewrite filter_In, reduce_true. split.
    + intros [[<- | []] Hr]. split; [exact Hr | field; exact Hb].
    + intros [Hr Heq]. split; [| exact Hr]. left.
      field_simplify_eq; [lra | exact Hb].
  - intros Ha Hb. apply eqb_num_true in Ha. apply eqb_num_true in Hb.
    now rewrite Ha, Hb.
Qed.

(** The round trip in exact arithmetic: for four control points whose
    coordinates on the axis are not all equal and [t0] in [[0, 1]],
    [getValueAt] called with the curve's coordinate at [t0] returns an entry
    with parameter [t0] and point [computeCubic t0]; every returned
    parameter lies in [[0, 1]] and is paired with the evaluation of the
    curve as given at that parameter. *)
Lemma getValueAt_round_trip (p0 p1 p2 p3 : Point) (axis : nat) (t0 : R) :
  ~ (axis_coord axis p0 = axis_coord axis p1 /\
     axis_coord axis p1 = axis_coord axis p2 /\
     axis_coord axis p2 = axis_coord axis p3) ->
  0 <= t0 <= 1 ->
  exists pt result,
    computeCubic t0 [p0; p1; p2; p3] = Some pt /\
    getValueAt (axis_coord axis pt) [p0; p1; p2; p3] axis = Some result /\
    (exists e, In e result /\ 0 <= cv_t e <= 1 /\ cv_t e = t0 /\ cv_point e = pt) /\
    (forall e, In e result ->
               0 <= cv_t e <= 1 /\
               computeCubic (cv_t e) [p0; p1; p2; p3] = Some (cv_point e)).
Proof.
  intros Hnd Ht0.
  destruct (computeCubic t0 [p0; p1; p2; p3]) as [pt |] eqn:Hpt;
    [| discriminate Hpt].
  set (v := axis_coord axis pt).
  set (root := if Nat.eqb axis 1
               then roots_of (- (Point.y p0 - v)) (- (Point.y p1 - v))
                             (- (Point.y p2 - v)) (- (Point.y p3 - v))
               else roots_of (Point.x p0 - v) (Point.x p1 - v)
                             (Point.x p2 - v) (Point.x p3 - v)).
  destruct (evaluate_roots_four root p0 p1 p2 p3) as (result & Hres & Hmap & Hev).
  assert (Hrange : forall t, In t root -> 0 <= t <= 1).
  { intros t. unfold root. destruct (Nat.eqb axis 1); apply roots_of_range. }
  assert (Hin0 : In t0 root).
  { pose proof (computeCubic_axis t0 p0 p1 p2 p3 pt axis Hpt) as Hv. fold v in Hv.
    unfold root. unfold axis_coord in Hv, Hnd.
    destruct (Nat.eqb axis 1); apply roots_of_complete; try exact Ht0.
    - rewrite bernstein_opp, bernstein_shift. lra.
    - intros (H1 & H2 & H3). apply Hnd. repeat split; lra.
    - rewrite bernstein_shift. lra.
    - intros (H1 & H2 & H3). apply Hnd. repeat split; lra. }
  exists pt, result. split; [reflexivity |]. split; [| split].
  - rewrite getValueAt_roots_of. exact Hres.
  - rewrite <- Hmap in Hin0. apply in_map_iff in Hin0.
    destruct Hin0 as (e & Het & Hin). exists e.
    split; [exact Hin |]. split; [rewrite Het; exact Ht0 |].
    split; [exact Het |].
    specialize (Hev e Hin). rewrite Het, Hpt in Hev. now injection Hev.
  - intros e Hin. split; [| now apply Hev].
    apply Hrange. rewrite <- Hmap. now apply in_map.
Qed.

(** ** Evaluation of comparisons on given numbers *)

Ltac decide_nums :=
  repeat match goal with
    | |- context [leb_num ?a ?b] =>
        first [ replace (leb_num a b) with true
                  by (symmetry; apply leb_num_true; lra)
              | replace (leb_num a b) with false
                  by (symmetry; apply leb_num_false; lra) ]
    | |- context [ltb_num ?a ?b] =>
        first [ replace (ltb_num a b) with true
                  by (symmetry; apply ltb_num_true; lra)
              | replace (ltb_num a b) with false
                  by (symmetry; apply ltb_num_false; lra) ]
    | |- context [eqb_num ?a ?b] =>
        first [ replace (eqb_num a b) with true
                  by (symmetry; apply eqb_num_true; lra)
              | replace (eqb_num a b) with false
                  by (symmetry; apply eqb_num_false; lra) ]
    | |- context [Rmin ?a ?b] =>
        first [ rewrite (Rmin_left a b) by lra | rewrite (Rmin_right a b) by lra ]
    | |- context [Rmax ?a ?b] =>
        first [ rewrite (Rmax_left a b) by lra | rewrite (Rmax_right a b) by lra ]
    end.

(** ** Bounding boxes *)

Lemma Math_min_spec (v : R) (rest : list R) :
  In (Math_min v rest) (v :: rest) /\
  forall u, In u (v :: rest) -> Math_min v rest <= u.
Proof.
  unfold Math_min. revert v. induction rest as [| w rest IH]; intros v.
  - simpl. split; [now left |]. intros u [<- | []]. lra.
  - cbn [fold_left]. destruct (IH (Rmin v w)) as [Hin Hle]. split.
    + destruct Hin as [Heq | Hin].
      * rewrite <- Heq. unfold Rmin. destruct (Rle_dec v w); simpl; auto.
      * right. now right.
    + intros u [<- | [<- | Hu]].
      * eapply Rle_trans; [apply Hle; now left | apply Rmin_l].
      * eapply Rle_trans; [apply Hle; now left | apply Rmin_r].
      * apply Hle. now right.
Qed.

Lemma Math_max_spec (v : R) (rest : list R) :
  In (Math_max v rest) (v :: rest) /\
  forall u, In u (v :: rest) -> u <= Math_max v rest.
Proof.
  unfold Math_max. revert v. induction rest as [| w rest IH]; intros v.
  - simpl. split; [now left |]. intros u [<- | []]. lra.
  - cbn [fold_left]. destruct (IH (Rmax v w)) as [Hin Hle]. split.
    + destruct Hin as [Heq | Hin].
      * rewrite <- Heq. unfold Rmax. destruct (Rle_dec v w); simpl; auto.
      * right. now right.
    + intros u [<- | [<- | Hu]].
      * eapply Rle_trans; [apply Rmax_l | apply Hle; now left].
      * eapply Rle_trans; [apply Rmax_r | apply Hle; now left].
      * apply Hle. now right.
Qed.

(** C10.  For a list of points that is not empty, [getBoundsFromPoints]
    returns the least axis-aligned rectangle around the points: its corner
    is made of the least abscissa and the least ordinate, its extent is the
    greatest minus the least, every point lies inside it, and every
    rectangle around all the points contains it. *)
Theorem getBoundsFromPoints_minimal (p : Point) (ps : list Point) :
  exists b,
    getBoundsFromPoints (p :: ps) = Some b /\
    (In (Bounds.x b) (map Point.x (p :: ps)) /\
     forall q, In q (p :: ps) -> Bounds.x b <= Point.x q) /\
    (In (Bounds.y b) (map Point.y (p :: ps)) /\
     forall q, In q (p :: ps) -> Bounds.y b <= Point.y q) /\
    (In (Bounds.x b + Bounds.width b) (map Point.x (p :: ps)) /\
     forall q, In q (p :: ps) -> Point.x q <= Bounds.x b + Bounds.width b) /\
    (In (Bounds.y b + Bounds.height b) (map Point.y (p :: ps)) /\
     forall q, In q (p :: ps) -> Point.y q <= Bounds.y b + Bounds.height b) /\
    0 <= Bounds.width b /\ 0 <= Bounds.height b /\
    (forall q, In q (p :: ps) -> inside q b) /\
    (forall r, (forall q, In q (p :: ps) -> inside q r) -> contains r b).
Proof.
  destruct (Math_min_spec (Point.x p) (map Point.x ps)) as [Hxi Hxl].
  destruct (Math_min_spec (Point.y p) (map Point.y ps)) as [Hyi Hyl].
  destruct (Math_max_spec (Point.x p) (map Point.x ps)) as [HXi HXl].
  destruct (Math_max_spec (Point.y p) (map Point.y ps)) as [HYi HYl].
  set (xmin := Math_min (Point.x p) (map Point.x ps)) in *.
  set (ymin := Math_min (Point.y p) (map Point.y ps)) in *.
  set (xmax := Math_max (Point.x p) (map Point.x ps)) in *.
  set (ymax := Math_max (Point.y p) (map Point.y ps)) in *.
  change (Point.x p :: map Point.x ps) with (map Point.x (p :: ps)) in *.
  change (Point.y p :: map Point.y ps) with (map Point.y (p :: ps)) in *.
  assert (Hx : forall q, In q (p :: ps) -> xmin <= Point.x q <= xmax).
  { intros q Hq. split; [apply Hxl | apply HXl]; now apply in_map. }
  assert (Hy : forall q, In q (p :: ps) -> ymin <= Point.y q <= ymax).
  { intros q Hq. split; [apply Hyl | apply HYl]; now apply in_map. }
  exists (Bounds.mk xmin ymin (xmax - xmin) (ymax - ymin)).
  cbn [Bounds.x Bounds.y Bounds.width Bounds.height].
  replace (xmin + (xmax - xmin)) with xmax by ring.
  replace (ymin + (ymax - ymin)) with ymax by ring.
  split; [reflexivity |].
  split; [split; [exact Hxi | intros q Hq; apply Hx, Hq] |].
  split; [split; [exact Hyi | intros q Hq; apply Hy, Hq] |].
  split; [split; [exact HXi | intros q Hq; apply Hx, Hq] |].
  split; [split; [exact HYi | intros q Hq; apply Hy, Hq] |].
  split; [specialize (Hx p (or_introl eq_refl)); lra |].
  split; [specialize (Hy p (or_introl eq_refl)); lra |].
  split.
  - intros q Hq. unfold inside. cbn [Bounds.x Bounds.y Bounds.width Bounds.height].
    specialize (Hx q Hq). specialize (Hy q Hq). lra.
  - intros r Hr. unfold contains. cbn [Bounds.x Bounds.y Bounds.width Bounds.height].
    apply in_map_iff in Hxi, Hyi, HXi, HYi.
    destruct Hxi as (q1 & E1 & I1). destruct Hyi as (q2 & E2 & I2).
    destruct HXi as (q3 & E3 & I3). destruct HYi as (q4 & E4 & I4).
    pose proof (Hr q1 I1) as [H1 _]. pose proof (Hr q2 I2) as [_ H2].
    pose proof (Hr q3 I3) as [H3 _]. pose proof (Hr q4 I4) as [_ H4].
    rewrite E1 in H1. rewrite E2 in H2. rewrite E3 in H3. rewrite E4 in H4.
    lra.
Qed.

(** ** The crossing predicate *)

Lemma isCrossingBounds_true_iff (a b : Bounds) :
  isCrossingBounds a b = true <->
  isInBounds a b = true /\ ~ contains a b /\ ~ contains b a.
Proof.
  unfold isCrossingBounds, contains.
  rewrite !andb_true_iff, !negb_true_iff, !andb_false_iff, !leb_num_false.
  split.
  - intros [[Hin Hc1] Hc2]. split; [exact Hin |]. split; intros (H1 & H2 & H3 & H4).
    + destruct Hc1 as [[Hc | Hc] | [Hc | Hc]]; lra.
    + destruct Hc2 as [[Hc | Hc] | [Hc | Hc]]; lra.
  - intros (Hin & Hn1 & Hn2). split; [split; [exact Hin |] |].
    + destruct (Rle_dec (Bounds.x a) (Bounds.x b)); [| left; left; lra].
      destruct (Rle_dec (Bounds.x b + Bounds.width b) (Bounds.x a + Bounds.width a));
        [| left; right; lra].
      destruct (Rle_dec (Bounds.y a) (Bounds.y b)); [| right; left; lra].
      destruct (Rle_dec (Bounds.y b + Bounds.height b) (Bounds.y a + Bounds.height a));
        [| right; right; lra].
      exfalso. apply Hn1. repeat split; assumption.
    + destruct (Rle_dec (Bounds.x b) (Bounds.x a)); [| left; left; lra].
      destruct (Rle_dec (Bounds.x a + Bounds.width a) (Bounds.x b + Bounds.width b));
        [| left; right; lra].
      destruct (Rle_dec (Bounds.y b) (Bounds.y a)); [| right; left; lra].
      destruct (Rle_dec (Bounds.y a + Bounds.height a) (Bounds.y b + Bounds.height b));
        [| right; right; lra].
      exfalso. apply Hn2. repeat split; assumption.
Qed.

(** A rectangle that contains the other one never crosses it. *)
Lemma isCrossingBounds_contains (a b : Bounds) :
  contains a b -> isCrossingBounds a b = false.
Proof.
  intros Hc. destruct (isCrossingBounds a b) eqn:H; [| reflexivity].
  apply isCrossingBounds_true_iff in H. tauto.
Qed.

(** C9.  When [isInBounds] is the overlap test of two rectangles, the
    crossing predicate is symmetric, and it holds exactly when the
    rectangles overlap and neither contains the other. *)
Theorem isCrossingBounds_symmetric :
  (forall a b, isInBounds a b = true <-> overlaps a b) ->
  forall a b,
    isCrossingBounds a b = isCrossingBounds b a /\
    (isCrossingBounds a b = true <->
     overlaps a b /\ ~ contains a b /\ ~ contains b a).
Proof.
  intros Hin a b.
  assert (Hchar : forall u v,
             isCrossingBounds u v = true <->
             overlaps u v /\ ~ contains u v /\ ~ contains v u).
  { intros u v. rewrite isCrossingBounds_true_iff, Hin. tauto. }
  split; [| apply Hchar].
  assert (Hsym : forall u v, overlaps u v -> overlaps v u).
  { unfold overlaps. intros u v H. tauto. }
  destruct (isCrossingBounds a b) eqn:Hab, (isCrossingBounds b a) eqn:Hba;
    try reflexivity.
  - apply Hchar in Hab. destruct Hab as (Ho & H1 & H2).
    assert (isCrossingBounds b a = true) by (apply Hchar; auto). congruence.
  - apply Hchar in Hba. destruct Hba as (Ho & H1 & H2).
    assert (isCrossingBounds a b = true) by (apply Hchar; auto). congruence.
Qed.

(** ** Computations that may throw *)

Lemma bind_Some {A B : Type} (m : option A) (k : A -> option B) (b : B) :
  bind m k = Some b <-> exists a, m = Some a /\ k a = Some b.
Proof.
  destruct m as [a |]; simpl; split.
  - intros H. now exists a.
  - now intros (a' & [= <-] & H).
  - discriminate.
  - now intros (a' & [=] & _).
Qed.

Lemma mapM_Forall2 {A B : Type} (f : A -> option B) (l : list A) (l' : list B) :
  mapM f l = Some l' <-> Forall2 (fun a b => f a = Some b) l l'.
Proof.
  revert l'. induction l as [| a l IH]; intros l'; simpl.
  - split.
    + intros [= <-]. constructor.
    + intros H. now inversion H.
  - rewrite bind_Some. split.
    + intros (b & Hb & H). apply bind_Some in H. destruct H as (bs & Hbs & [= <-]).
      constructor; [exact Hb | now apply IH].
    + intros H. inversion H as [| a' b l0 bs Hb Hbs]; subst.
      exists b. split; [exact Hb |]. apply bind_Some. exists bs.
      split; [now apply IH | reflexivity].
Qed.

Lemma mapM_total {A B : Type} (f : A -> option B) (l : list A) :
  (forall a, In a l -> exists b, f a = Some b) -> exists l', mapM f l = Some l'.
Proof.
  induction l as [| a l IH]; intros H; simpl.
  - now exists [].
  - destruct (H a (or_introl eq_refl)) as (b & Hb).
    destruct IH as (bs & Hbs); [intros a' Ha'; apply H; now right |].
    exists (b :: bs). now rewrite Hb, Hbs.
Qed.

(** ** Anchor offsets *)

Lemma applyAnchor_anchored (canvas : Canvas) (cp cp' : CrossingPoint) :
  applyAnchor canvas cp = Some cp' <->
  exists size,
    transformWidthHeight (CrossingPoint.nodeBounds cp) canvas = Some size /\
    cp' = CrossingPoint.with_placement cp
            (Point.mk
               (Point.x (CrossingPoint.proxyPoint cp)
                - fst (getAnchorOffsets
                         (Bounds.mk 0 0 (proxyWidth size) (proxyHeight size))
                         (CrossingPoint.side cp) (CrossingPoint.anchor cp)))
               (Point.y (CrossingPoint.proxyPoint cp)
                - snd (getAnchorOffsets
                         (Bounds.mk 0 0 (proxyWidth size) (proxyHeight size))
                         (CrossingPoint.side cp) (CrossingPoint.anchor cp))))
            Anchors.topLeft.
Proof.
  unfold applyAnchor. rewrite bind_Some. split.
  - intros (size & Hs & H). exists size. split; [exact Hs |].
    destruct (getAnchorOffsets _ _ _) as [ox oy]. now injection H as <-.
  - intros (size & Hs & ->). exists size. split; [exact Hs |].
    now destruct (getAnchorOffsets _ _ _) as [ox oy].
Qed.

(** C7.  [applyAnchors] subtracts from the anchor point of every crossing
    point the offset of the table for its anchor and side, computed on the
    marker's size, and sets its anchor to [topLeft]; the table gives half
    the width and the full height for [towardsMiddle] on the north side, and
    half the width and half the height for [center] on every side. *)
Theorem applyAnchors_offsets (crossings : list Crossing) (canvas : Canvas) :
  (forall crossing cp,
      In crossing crossings -> In cp (Crossing.crossingPoints crossing) ->
      exists size, transformWidthHeight (CrossingPoint.nodeBounds cp) canvas = Some size) ->
  (exists crossings',
      applyAnchors crossings canvas = Some crossings' /\
      Forall2
        (fun crossing crossing' =>
           Crossing.edge crossing' = Crossing.edge crossing /\
           Crossing.pointBounds crossing' = Crossing.pointBounds crossing /\
           Crossing.bezierPoints crossing' = Crossing.bezierPoints crossing /\
           Forall2
             (fun cp cp' =>
                exists size,
                  transformWidthHeight (CrossingPoint.nodeBounds cp) canvas = Some size /\
                  anchored size cp cp')
             (Crossing.crossingPoints crossing) (Crossing.crossingPoints crossing'))
        crossings crossings') /\
  (forall bounds,
      getAnchorOffsets bounds Sides.N Anchors.towardsMiddle
      = (Bounds.width bounds * (1 / 2), Bounds.height bounds)) /\
  (forall bounds side,
      getAnchorOffsets bounds side Anchors.center
      = (Bounds.width bounds * (1 / 2), Bounds.height bounds * (1 / 2))).
Proof.
  intros Hsize. split; [| split; reflexivity].
  induction crossings as [| crossing crossings IH].
  - exists []. split; [reflexivity | constructor].
  - destruct IH as (crossings' & Hrest & Hall).
    { intros c cp Hc Hcp. apply (Hsize c cp); [now right | exact Hcp]. }
    destruct (mapM_total (applyAnchor canvas) (Crossing.crossingPoints crossing))
      as (cps & Hcps).
    { intros cp Hcp. destruct (Hsize crossing cp (or_introl eq_refl) Hcp) as (size & Hs).
      eexists. apply applyAnchor_anchored. exists size. split; [exact Hs | reflexivity]. }
    exists (Crossing.with_crossingPoints crossing cps :: crossings').
    unfold applyAnchors in *. cbn [mapM]. rewrite Hcps. cbn [bind]. rewrite Hrest.
    split; [reflexivity |]. constructor; [| exact Hall].
    repeat split. cbn [Crossing.crossingPoints Crossing.with_crossingPoints].
    apply mapM_Forall2 in Hcps.
    eapply Forall2_impl; [| exact Hcps].
    intros cp cp' H. apply applyAnchor_anchored in H. destruct H as (size & Hs & ->).
    exists size. split; [exact Hs |]. unfold anchored. repeat split.
Qed.

(** ** The shrunk rectangle of the anchor search *)

(** C5 (as amended).  Under [towardsMiddle] (multiplier 1) or [center]
    (multiplier 1/2) the rectangle in which [updateProxyPlacementPoints]
    searches the anchor of a crossing point is the viewport inset, on the
    axis of the crossing's side, by the multiplier times the marker's size
    on both sides of that axis (top and bottom for north and south, left and
    right for east and west); the two sides of the other axis are those of
    the viewport. *)
Theorem searchBound_inset (anchor : Anchors) (canvasCRF : Canvas)
        (crossing : Crossing) (a : nat) (cross : CrossingPoint) (size : ProxySize) :
  anchor = Anchors.towardsMiddle \/ anchor = Anchors.center ->
  transformWidthHeight (CrossingPoint.nodeBounds cross) canvasCRF = Some size ->
  let m := offsetMultiplierOf anchor in
  let bound :=
    searchBound (CrossingPoint.side cross)
                (proxyWidth size * m) (proxyHeight size * m) canvasCRF in
  (anchor = Anchors.towardsMiddle -> m = 1) /\
  (anchor = Anchors.center -> m = 1 / 2) /\
  placeCrossingPoint anchor canvasCRF crossing a cross =
    (de <- searchDirection crossing a cross ;;
     found <- searchAnchor (Datatypes.S (length (Crossing.pointBounds crossing)))
                           crossing (CrossingPoint.side cross) bound
                           (snd de + fst de)%Z (fst de)
                           (Z.of_nat (CrossingPoint.section cross)) ;;
     Some match found with
          | Some p => CrossingPoint.with_placement cross p anchor
          | None => cross
          end) /\
  match CrossingPoint.side cross with
  | Sides.N | Sides.S =>
      Bounds.x bound = Canvas.x canvasCRF /\
      Bounds.x bound + Bounds.width bound = Canvas.x canvasCRF + Canvas.width canvasCRF /\
      Bounds.y bound = Canvas.y canvasCRF + m * proxyHeight size /\
      Bounds.y bound + Bounds.height bound
      = Canvas.y canvasCRF + Canvas.height canvasCRF - m * proxyHeight size
  | Sides.E | Sides.W =>
      Bounds.y bound = Canvas.y canvasCRF /\
      Bounds.y bound + Bounds.height bound = Canvas.y canvasCRF + Canvas.height canvasCRF /\
      Bounds.x bound = Canvas.x canvasCRF + m * proxyWidth size /\
      Bounds.x bound + Bounds.width bound
      = Canvas.x canvasCRF + Canvas.width canvasCRF - m * proxyWidth size
  end.
Proof.
  intros Hanchor Hsize m bound.
  split; [intros ->; reflexivity |].
  split; [intros ->; reflexivity |].
  split.
  - unfold placeCrossingPoint. rewrite Hsize. cbn [bind].
    destruct (searchDirection crossing a cross) as [[direction end_] |];
      reflexivity.
  - unfold bound, searchBound.
    destruct (CrossingPoint.side cross);
      cbn [Sides.eqb orb Bounds.x Bounds.y Bounds.width Bounds.height];
      repeat split; ring.
Qed.

(** ** Routes and [getCrossings] *)

Lemma route_test_true (n : nat) :
  (Nat.eqb (n mod 3) 1 && (4 <=? n))%nat = true <->
  exists k, (1 <= k /\ n = 3 * k + 1)%nat.
Proof.
  rewrite andb_true_iff, Nat.eqb_eq, Nat.leb_le. split.
  - intros [Hm Hn]. exists (n / 3)%nat.
    pose proof (Nat.div_mod_eq n 3) as Hd. rewrite Hm in Hd.
    split; [| exact Hd].
    destruct (n / 3)%nat; [lia | lia].
  - intros (k & Hk & ->). split; [| lia].
    rewrite Nat.add_comm, Nat.mul_comm, Nat.Div0.mod_add. reflexivity.
Qed.

Lemma edgeCrossings_malformed (edge : SKEdge) (canvasCRF : Canvas) :
  ~ (exists k, (1 <= k /\ length (SKEdge.routingPoints edge) = 3 * k + 1)%nat) ->
  edgeCrossings edge canvasCRF = Some (Logged diagnostic).
Proof.
  intros Hbad. unfold edgeCrossings. rewrite length_map.
  destruct (Nat.eqb (length (SKEdge.routingPoints edge) mod 3) 1
            && (4 <=? length (SKEdge.routingPoints edge)))%nat eqn:Htest;
    [| reflexivity].
  apply route_test_true in Htest. contradiction.
Qed.

Lemma getCrossings_from_app (before after : list SKEdge) (canvasCRF : Canvas)
      (crossings : list Crossing) (console : list string) :
  getCrossings_from (before ++ after) canvasCRF crossings console =
  match getCrossings_from before canvasCRF crossings console with
  | (Some crossings', console') => getCrossings_from after canvasCRF crossings' console'
  | (None, console') => (None, console')
  end.
Proof.
  revert crossings console. induction before as [| edge before IH];
    intros crossings console; [reflexivity |].
  cbn [app getCrossings_from].
  destruct (edgeCrossings edge canvasCRF) as [[crossing | message] |];
    [apply IH | apply IH | reflexivity].
Qed.

(** The console only grows at its end, and what it holds changes nothing
    else. *)
Lemma getCrossings_from_console (edges : list SKEdge) (canvasCRF : Canvas)
      (crossings : list Crossing) (before console : list string) :
  getCrossings_from edges canvasCRF crossings (before ++ console) =
  (fst (getCrossings_from edges canvasCRF crossings console),
   before ++ snd (getCrossings_from edges canvasCRF crossings console)).
Proof.
  revert crossings console. induction edges as [| edge edges IH];
    intros crossings console; cbn [getCrossings_from].
  - reflexivity.
  - destruct (edgeCrossings edge canvasCRF) as [[crossing | message] |].
    + apply IH.
    + rewrite <- app_assoc. apply IH.
    + reflexivity.
Qed.

Lemma getCrossings_from_empty_console (edges : list SKEdge) (canvasCRF : Canvas)
      (crossings : list Crossing) (console : list string) :
  getCrossings_from edges canvasCRF crossings console =
  (fst (getCrossings_from edges canvasCRF crossings []),
   console ++ snd (getCrossings_from edges canvasCRF crossings [])).
Proof.
  rewrite <- (app_nil_r console) at 1. apply getCrossings_from_console.
Qed.

(** C3.  An edge whose route does not have [3n+1] points with [n >= 1]
    gets no crossing, one line on the console and no throw; the crossings
    of the other edges are those computed without it. *)
Theorem getCrossings_malformed_route (edge : SKEdge) (canvasCRF : Canvas)
        (before after : list SKEdge) :
  ~ (exists n, (1 <= n /\ length (SKEdge.routingPoints edge) = 3 * n + 1)%nat) ->
  getCrossings [edge] canvasCRF = (Some [], [diagnostic]) /\
  fst (getCrossings (before ++ edge :: after) canvasCRF)
  = fst (getCrossings (before ++ after) canvasCRF) /\
  forall crossings console,
    getCrossings before canvasCRF = (Some crossings, console) ->
    exists result later,
      getCrossings (before ++ after) canvasCRF = (result, console ++ later) /\
      getCrossings (before ++ edge :: after) canvasCRF
      = (result, console ++ [diagnostic] ++ later).
Proof.
  intros Hbad. pose proof (edgeCrossings_malformed edge canvasCRF Hbad) as Hedge.
  unfold getCrossings. split; [| split].
  - cbn [getCrossings_from]. now rewrite Hedge.
  - rewrite !getCrossings_from_app.
    destruct (getCrossings_from before canvasCRF [] []) as [[crossings |] console];
      [| reflexivity].
    cbn [getCrossings_from]. rewrite Hedge.
    rewrite (getCrossings_from_empty_console after _ _ (console ++ [diagnostic])).
    rewrite (getCrossings_from_empty_console after _ _ console).
    reflexivity.
  - intros crossings console Hbefore.
    rewrite !getCrossings_from_app, Hbefore. cbn [getCrossings_from]. rewrite Hedge.
    exists (fst (getCrossings_from after canvasCRF crossings [])),
           (snd (getCrossings_from after canvasCRF crossings [])).
    split.
    + apply getCrossings_from_empty_console.
    + rewrite (getCrossings_from_empty_console after _ _ (console ++ [diagnostic])).
      rewrite <- app_assoc. reflexivity.
Qed.

(** ** The end-to-end scenario *)

Lemma map_offset_zero (offsetx offsety : R) (points : list Point) :
  offsetx = 0 -> offsety = 0 ->
  map (fun p => Point.mk (Point.x p + offsetx) (Point.y p + offsety)) points = points.
Proof.
  intros -> ->. induction points as [| [px py] points IH]; [reflexivity |].
  cbn [map Point.x Point.y]. rewrite IH, !Rplus_0_r. reflexivity.
Qed.

Lemma scenarioRoute_bounds :
  getBoundsFromPoints scenarioRoute = Some (Bounds.mk 0 0 (100 - 0) (100 - 0)).
Proof.
  unfold getBoundsFromPoints, scenarioRoute, Math_min, Math_max.
  cbn [map fold_left Point.x Point.y]. decide_nums. reflexivity.
Qed.

(** The only segment of the scenario is never solved: its bounding box
    contains the viewport. *)
Lemma scenario_segment_not_crossing (zoom : R) :
  isCrossingBounds (Bounds.mk 0 0 (100 - 0) (100 - 0))
                   (Canvas.bounds (scenarioCanvas zoom)) = false.
Proof.
  apply isCrossingBounds_contains. unfold contains, scenarioCanvas, Canvas.bounds.
  cbn [Bounds.x Bounds.y Bounds.width Bounds.height
       Canvas.x Canvas.y Canvas.width Canvas.height]. lra.
Qed.

Lemma scenario_edgeCrossings (edge : SKEdge) (zoom : R) :
  SKEdge.routingPoints edge = scenarioRoute ->
  Bounds.x (getCanvasBounds edge) = Bounds.x (SKEdge.bounds edge) ->
  Bounds.y (getCanvasBounds edge) = Bounds.y (SKEdge.bounds edge) ->
  edgeCrossings edge (scenarioCanvas zoom) =
  Some (Pushed (Crossing.mk edge [Bounds.mk 0 0 (100 - 0) (100 - 0)]
                            [scenarioRoute] [])).
Proof.
  intros Hroute Hx Hy. unfold edgeCrossings.
  rewrite map_offset_zero by lra. rewrite Hroute.
  change (length scenarioRoute) with 4%nat.
  cbn [Nat.modulo Nat.divmod Nat.eqb Nat.leb andb fst snd Nat.div seq map].
  change (slice (0 * 3) (0 * 3 + 4) scenarioRoute) with scenarioRoute.
  cbn [mapM]. rewrite scenarioRoute_bounds. cbn [bind segmentCrossings].
  rewrite scenario_segment_not_crossing. reflexivity.
Qed.

Lemma scenario_getCrossings (edge : SKEdge) (zoom : R) :
  SKEdge.routingPoints edge = scenarioRoute ->
  Bounds.x (getCanvasBounds edge) = Bounds.x (SKEdge.bounds edge) ->
  Bounds.y (getCanvasBounds edge) = Bounds.y (SKEdge.bounds edge) ->
  getCrossings [edge] (scenarioCanvas zoom)
  = (Some [Crossing.mk edge [Bounds.mk 0 0 (100 - 0) (100 - 0)] [scenarioRoute] []],
     []).
Proof.
  intros Hroute Hx Hy. unfold getCrossings. cbn [getCrossings_from].
  rewrite (scenario_edgeCrossings edge zoom Hroute Hx Hy). reflexivity.
Qed.

(** C2 (as amended).  The scenario edge, placed where its route is, against
    the viewport of side 60 yields no crossing point: the bounding box
    [(0, 0, 100, 100)] of its only segment contains the viewport, so that
    [isCrossingBounds] rejects the segment. *)
Theorem scenario_no_crossing_point (edge : SKEdge) (zoom : R)
        (self : Element) (absoluteX absoluteY : R) :
  SKEdge.routingPoints edge = scenarioRoute ->
  Bounds.x (getCanvasBounds edge) = Bounds.x (SKEdge.bounds edge) ->
  Bounds.y (getCanvasBounds edge) = Bounds.y (SKEdge.bounds edge) ->
  let root := SKNode.mk self absoluteX absoluteY [ChildEdge edge] in
  getCrossings [edge] (scenarioCanvas zoom)
  = (Some [Crossing.mk edge [Bounds.mk 0 0 (100 - 0) (100 - 0)] [scenarioRoute] []],
     []) /\
  exists crossings,
    detectCrossings root (scenarioCanvas zoom) = (Some crossings, []) /\
    flat_map Crossing.crossingPoints crossings = [].
Proof.
  intros Hroute Hx Hy root.
  pose proof (scenario_getCrossings edge zoom Hroute Hx Hy) as Hone.
  split; [exact Hone |].
  unfold detectCrossings, root. cbn [getPossibleEdges].
  destruct (isCrossingBounds (getCanvasBounds edge) (Canvas.bounds (scenarioCanvas zoom))).
  - cbn [app]. rewrite Hone. eexists. split; reflexivity.
  - cbn [app]. exists []. split; reflexivity.
Qed.

(** ** The anchor search *)

Lemma searchAnchor_none_in_range (fuel : nat) (crossing : Crossing) (side : Sides)
      (bound : Bounds) (stop direction pos : Z) (found : option Point) :
  (direction = 1%Z /\ (pos <= stop)%Z) \/ (direction = (-1)%Z /\ (stop <= pos)%Z) ->
  (forall pos' pointBound bPoints p,
      visited pos stop direction pos' ->
      nth_error (Crossing.pointBounds crossing) (Z.to_nat pos') = Some pointBound ->
      isCrossingBounds pointBound bound = true ->
      nth_error (Crossing.bezierPoints crossing) (Z.to_nat pos') = Some bPoints ->
      anchorCandidates side bound bPoints = Some p ->
      p = []) ->
  searchAnchor fuel crossing side bound stop direction pos = Some found ->
  found = None.
Proof.
  revert pos. induction fuel as [| fuel IH]; intros pos Hdir Hnone Hsearch;
    cbn [searchAnchor] in Hsearch;
    destruct (Z.eqb_spec pos stop) as [Heq | Hne];
    try (now injection Hsearch as <-); try discriminate.
  assert (Hhere : visited pos stop direction pos) by (unfold visited; lia).
  assert (Hnext : found = None \/
                  searchAnchor fuel crossing side bound stop direction
                               (pos + direction)%Z = Some found).
  { destruct (pos <? 0)%Z; [discriminate |].
    destruct (nth_error (Crossing.pointBounds crossing) (Z.to_nat pos))
      as [pointBound |] eqn:Hpb; [| discriminate].
    destruct (isCrossingBounds pointBound bound) eqn:Hcross; [| now right].
    destruct (nth_error (Crossing.bezierPoints crossing) (Z.to_nat pos))
      as [bPoints |] eqn:Hbp; [| discriminate].
    destruct (anchorCandidates side bound bPoints) as [p |] eqn:Hp; [| discriminate].
    cbn [bind] in Hsearch.
    rewrite (Hnone pos pointBound bPoints p Hhere Hpb Hcross Hbp Hp) in Hsearch.
    now right. }
  destruct Hnext as [Hnext | Hnext]; [exact Hnext |].
  apply (IH (pos + direction)%Z); [lia | | exact Hnext].
  intros pos' pointBound bPoints p Hv. apply Hnone. unfold visited in *. lia.
Qed.

Lemma searchDirection_ordered (crossing : Crossing) (a : nat) (cross : CrossingPoint)
      (direction end_ : Z) :
  inSegmentOrder crossing ->
  nth_error (Crossing.crossingPoints crossing) a = Some cross ->
  searchDirection crossing a cross = Some (direction, end_) ->
  (direction = 1%Z /\ (Z.of_nat (CrossingPoint.section cross) <= end_ + direction)%Z) \/
  (direction = (-1)%Z /\ (end_ + direction <= Z.of_nat (CrossingPoint.section cross))%Z).
Proof.
  intros [Hsorted Hrange] Ha. unfold searchDirection.
  destruct (CrossingPoint.incoming cross).
  - destruct (length (Crossing.crossingPoints crossing) <=? a + 1)%nat.
    + intros [= <- <-]. left. split; [reflexivity |].
      pose proof (Hrange cross (nth_error_In _ _ Ha)). lia.
    + destruct (nth_error (Crossing.crossingPoints crossing) (a + 1)) as [next |] eqn:Hn;
        [| discriminate].
      cbn [bind]. intros [= <- <-]. left. split; [reflexivity |].
      pose proof (Hsorted a (a + 1)%nat cross next ltac:(lia) Ha Hn). lia.
  - destruct a as [| a'].
    + intros [= <- <-]. right. split; [reflexivity | lia].
    + destruct (nth_error (Crossing.crossingPoints crossing) a') as [previous |] eqn:Hp;
        [| discriminate].
      cbn [bind]. intros [= <- <-]. right. split; [reflexivity |].
      pose proof (Hsorted a' (Datatypes.S a') previous cross ltac:(lia) Hp Ha). lia.
Qed.

Lemma placeCrossingPoint_frame (anchor : Anchors) (canvasCRF : Canvas)
      (crossing : Crossing) (a : nat) (cross cross' : CrossingPoint) :
  placeCrossingPoint anchor canvasCRF crossing a cross = Some cross' ->
  sameButPlacement cross cross' /\
  (inSegmentOrder crossing ->
   nth_error (Crossing.crossingPoints crossing) a = Some cross ->
   noAnchorInRange anchor canvasCRF crossing a cross ->
   cross' = cross).
Proof.
  unfold placeCrossingPoint. intros H.
  apply bind_Some in H. destruct H as (size & Hsize & H).
  apply bind_Some in H. destruct H as ([direction end_] & Hde & H).
  apply bind_Some in H. destruct H as (found & Hfound & H).
  injection H as <-. split.
  - destruct found; unfold sameButPlacement; repeat split.
  - intros Hord Ha Hnone.
    pose proof (searchDirection_ordered crossing a cross direction end_ Hord Ha Hde) as Hdir.
    assert (Hnot : found = None).
    { eapply searchAnchor_none_in_range; [exact Hdir | | exact Hfound].
      intros pos' pointBound bPoints p Hv Hpb Hcross Hbp Hp.
      exact (Hnone size direction end_ pos' pointBound bPoints p
                   Hsize Hde Hv Hpb Hcross Hbp Hp). }
    now rewrite Hnot.
Qed.

Lemma placeCrossingPoints_frame (anchor : Anchors) (canvasCRF : Canvas)
      (crossing : Crossing) (a : nat) (todo cps : list CrossingPoint) :
  placeCrossingPoints anchor canvasCRF crossing a todo = Some cps ->
  length cps = length todo /\
  forall k cross cross',
    nth_error todo k = Some cross -> nth_error cps k = Some cross' ->
    placeCrossingPoint anchor canvasCRF crossing (a + k) cross = Some cross'.
Proof.
  revert a cps. induction todo as [| first rest IH]; intros a cps H;
    cbn [placeCrossingPoints] in H.
  - injection H as <-. split; [reflexivity |]. intros [| k] ? ? [=].
  - apply bind_Some in H. destruct H as (first' & Hfirst & H).
    apply bind_Some in H. destruct H as (rest' & Hrest & [= <-]).
    destruct (IH _ _ Hrest) as [Hlen Hnth]. split; [simpl; now rewrite Hlen |].
    intros [| k] cross cross'; cbn [nth_error].
    + intros [= <-] [= <-]. now rewrite Nat.add_0_r.
    + intros Hk Hk'. replace (a + Datatypes.S k)%nat with (Datatypes.S a + k)%nat by lia.
      now apply Hnth.
Qed.

(** *** The crossing points that [getCrossings] builds *)

Lemma classify_shape (edge : SKEdge) (canvasCRF : Canvas) (bPoints : list Point)
      (i : nat) (cp : SidedPoint) (cross : CrossingPoint) :
  classify edge canvasCRF bPoints i cp = Some cross ->
  CrossingPoint.section cross = i /\ atBoundary cross.
Proof.
  unfold classify. intros H.
  apply bind_Some in H. destruct H as (incoming & _ & H).
  apply bind_Some in H. destruct H as (node & _ & H).
  destruct (getSynthesisProxyRenderingSingle node) as [proxyNode proxyBounds].
  injection H as <-. repeat split.
Qed.

Lemma segmentCrossings_shape (edge : SKEdge) (canvasCRF : Canvas) (i : nat)
      (pointBounds : list Bounds) (bezierPoints : list (list Point))
      (cps : list CrossingPoint) :
  segmentCrossings edge canvasCRF i pointBounds bezierPoints = Some cps ->
  Forall (fun cp => (i <= CrossingPoint.section cp < i + length pointBounds)%nat
                    /\ atBoundary cp) cps /\
  (forall j k cpj cpk,
      (j <= k)%nat -> nth_error cps j = Some cpj -> nth_error cps k = Some cpk ->
      (CrossingPoint.section cpj <= CrossingPoint.section cpk)%nat).
Proof.
  revert i bezierPoints cps.
  induction pointBounds as [| pointBound pointBounds IH]; intros i bezierPoints cps H.
  - cbn [segmentCrossings] in H. injection H as <-.
    split; [constructor |]. intros [| j] k ? ? _ [=].
  - destruct bezierPoints as [| bPoints bezierPoints]; cbn [segmentCrossings] in H.
    { injection H as <-. split; [constructor |]. intros [| j] k ? ? _ [=]. }
    apply bind_Some in H. destruct H as (here & Hhere & H).
    apply bind_Some in H. destruct H as (later & Hlater & [= <-]).
    destruct (IH _ _ _ Hlater) as [Hall Hsorted].
    assert (Hsec : Forall (fun cp => CrossingPoint.section cp = i /\ atBoundary cp) here).
    { destruct (isCrossingBounds pointBound (Canvas.bounds canvasCRF)).
      - apply bind_Some in Hhere. destruct Hhere as (cPoints & _ & Hmap).
        apply mapM_Forall2 in Hmap. clear - Hmap.
        induction Hmap as [| cp cross cPoints here Hc _ IHm]; constructor;
          [eapply classify_shape, Hc | exact IHm].
      - injection Hhere as <-. constructor. }
    split.
    + apply Forall_app. split.
      * eapply Forall_impl; [| exact Hsec]. cbn [length].
        intros cp [-> Hb]. split; [lia | exact Hb].
      * eapply Forall_impl; [| exact Hall]. cbn [length].
        intros cp [Hr Hb]. split; [lia | exact Hb].
    + intros j k cpj cpk Hjk Hj Hk.
      rewrite Forall_forall in Hsec, Hall.
      destruct (Nat.lt_ge_cases k (length here)) as [Hkh | Hkh].
      * rewrite nth_error_app1 in Hj, Hk by lia.
        apply nth_error_In in Hj, Hk.
        destruct (Hsec _ Hj) as [-> _]. destruct (Hsec _ Hk) as [-> _]. lia.
      * rewrite nth_error_app2 in Hk by lia.
        destruct (Nat.lt_ge_cases j (length here)) as [Hjh | Hjh].
        -- rewrite nth_error_app1 in Hj by lia.
           apply nth_error_In in Hj, Hk.
           destruct (Hsec _ Hj) as [-> _]. destruct (Hall _ Hk) as [Hr _]. lia.
        -- rewrite nth_error_app2 in Hj by lia.
           apply (Hsorted (j - length here)%nat (k - length here)%nat); [lia | exact Hj | exact Hk].
Qed.

Lemma mapM_length {A B : Type} (f : A -> option B) (l : list A) (l' : list B) :
  mapM f l = Some l' -> length l' = length l.
Proof.
  intros H. apply mapM_Forall2 in H. symmetry. eapply Forall2_length, H.
Qed.

Lemma slice_length {A : Type} (start : nat) (arr : list A) :
  (start + 4 <= length arr)%nat -> length (slice start (start + 4) arr) = 4%nat.
Proof.
  intros H. unfold slice. rewrite length_firstn, length_skipn. lia.
Qed.

Lemma edgeCrossings_shape (edge : SKEdge) (canvasCRF : Canvas) (crossing : Crossing) :
  edgeCrossings edge canvasCRF = Some (Pushed crossing) ->
  wellFormedCrossing crossing /\ Forall atBoundary (Crossing.crossingPoints crossing).
Proof.
  unfold edgeCrossings.
  set (rpoints := map _ (SKEdge.routingPoints edge)).
  destruct (Nat.eqb (length rpoints mod 3) 1 && (4 <=? length rpoints))%nat eqn:Htest;
    [| discriminate].
  apply andb_true_iff in Htest. destruct Htest as [Hmod Hfour].
  apply Nat.eqb_eq in Hmod. apply Nat.leb_le in Hfour.
  intros H. apply bind_Some in H. destruct H as (pointBounds & Hpb & H).
  apply bind_Some in H. destruct H as (newCrossings & Hnew & [= <-]).
  destruct (segmentCrossings_shape _ _ _ _ _ _ Hnew) as [Hall Hsorted].
  unfold wellFormedCrossing, inSegmentOrder.
  cbn [Crossing.crossingPoints Crossing.pointBounds Crossing.bezierPoints].
  split; [split; [split; [exact Hsorted |] | split] |].
  - intros cp Hcp. rewrite Forall_forall in Hall.
    destruct (Hall cp Hcp) as [Hr _]. lia.
  - symmetry. eapply mapM_length, Hpb.
  - apply Forall_forall. intros bPoints Hin. apply in_map_iff in Hin.
    destruct Hin as (i & <- & Hi). apply in_seq in Hi.
    pose proof (Nat.div_mod_eq (length rpoints) 3) as Hd.
    assert (Hin : (i * 3 + 4 <= length rpoints)%nat).
    { rewrite Hmod in Hd. destruct Hi as [_ Hi]. simpl in Hi.
      change (fst (Nat.divmod (length rpoints) 2 0 2))
        with (length rpoints / 3)%nat in Hi. lia. }
    rewrite (slice_length (i * 3) rpoints Hin). lia.
  - eapply Forall_impl; [| exact Hall]. now intros cp [_ Hb].
Qed.

Lemma getCrossings_from_shape (P : Crossing -> Prop) (proxyEdges : list SKEdge)
      (canvasCRF : Canvas) (crossings result : list Crossing)
      (console console' : list string) :
  (forall edge crossing,
      edgeCrossings edge canvasCRF = Some (Pushed crossing) -> P crossing) ->
  Forall P crossings ->
  getCrossings_from proxyEdges canvasCRF crossings console = (Some result, console') ->
  Forall P result.
Proof.
  intros HP. revert crossings console.
  induction proxyEdges as [| edge proxyEdges IH]; intros crossings console Hall H;
    cbn [getCrossings_from] in H.
  - now injection H as <- _.
  - destruct (edgeCrossings edge canvasCRF) as [[crossing | message] |] eqn:Hedge.
    + apply (IH (crossings ++ [crossing]) console); [| exact H].
      apply Forall_app. split; [exact Hall |].
      constructor; [exact (HP _ _ Hedge) | constructor].
    + apply (IH _ _ Hall H).
    + discriminate.
Qed.

(** The crossings of [getCrossings] are well formed, and each of their
    crossing points is anchored at its boundary intersection. *)
Lemma getCrossings_shape (proxyEdges : list SKEdge) (canvasCRF : Canvas)
      (crossings : list Crossing) (console : list string) :
  getCrossings proxyEdges canvasCRF = (Some crossings, console) ->
  Forall (fun crossing =>
            wellFormedCrossing crossing /\
            Forall atBoundary (Crossing.crossingPoints crossing)) crossings.
Proof.
  unfold getCrossings. intros H.
  eapply getCrossings_from_shape; [| constructor | exact H].
  intros edge crossing. apply edgeCrossings_shape.
Qed.

(** *** The anchor search returns *)

Lemma anchorCandidates_returns (side : Sides) (bound : Bounds) (bPoints : list Point) :
  (4 <= length bPoints)%nat -> exists p, anchorCandidates side bound bPoints = Some p.
Proof.
  intros Hlen. unfold anchorCandidates.
  destruct side;
    match goal with
    | |- context [getValueAt ?v bPoints ?axis] =>
        destruct (getValueAt_returns v bPoints axis Hlen) as (p & ->)
    end; cbn [bind]; eexists; reflexivity.
Qed.

(** The fuel is enough on the segments up to [stop]. *)
Lemma searchAnchor_returns (fuel : nat) (crossing : Crossing) (side : Sides)
      (bound : Bounds) (stop direction pos : Z) :
  length (Crossing.bezierPoints crossing) = length (Crossing.pointBounds crossing) ->
  Forall (fun bPoints => (4 <= length bPoints)%nat) (Crossing.bezierPoints crossing) ->
  (direction = 1%Z /\ (0 <= pos <= stop)%Z /\
   (stop <= Z.of_nat (length (Crossing.pointBounds crossing)))%Z /\
   (stop - pos < Z.of_nat fuel)%Z)
  \/
  (direction = (-1)%Z /\ (-1 <= stop <= pos)%Z /\
   (pos < Z.of_nat (length (Crossing.pointBounds crossing)))%Z /\
   (pos - stop < Z.of_nat fuel)%Z) ->
  exists found, searchAnchor fuel crossing side bound stop direction pos = Some found.
Proof.
  intros Hlen Hfour. revert pos.
  induction fuel as [| fuel IH]; intros pos Hrange; cbn [searchAnchor];
    destruct (Z.eqb_spec pos stop) as [Heq | Hne]; try (now eexists); [lia |].
  assert (Hpos : (0 <= pos < Z.of_nat (length (Crossing.pointBounds crossing)))%Z) by lia.
  destruct (Z.ltb_spec pos 0) as [Hneg | _]; [lia |].
  assert (Hnat : (Z.to_nat pos < length (Crossing.pointBounds crossing))%nat) by lia.
  destruct (nth_error (Crossing.pointBounds crossing) (Z.to_nat pos))
    as [pointBound |] eqn:Hpb; [| apply nth_error_None in Hpb; lia].
  assert (Hnext : exists found,
             searchAnchor fuel crossing side bound stop direction (pos + direction)%Z
             = Some found) by (apply IH; lia).
  destruct (isCrossingBounds pointBound bound); [| exact Hnext].
  destruct (nth_error (Crossing.bezierPoints crossing) (Z.to_nat pos))
    as [bPoints |] eqn:Hbp; [| apply nth_error_None in Hbp; lia].
  rewrite Forall_forall in Hfour.
  destruct (anchorCandidates_returns side bound bPoints
              (Hfour _ (nth_error_In _ _ Hbp))) as (p & ->).
  cbn [bind]. destruct p as [| first p]; [exact Hnext | now eexists].
Qed.

Lemma searchDirection_returns (crossing : Crossing) (a : nat) (cross : CrossingPoint) :
  nth_error (Crossing.crossingPoints crossing) a = Some cross ->
  exists direction end_, searchDirection crossing a cross = Some (direction, end_).
Proof.
  intros Ha. unfold searchDirection.
  destruct (CrossingPoint.incoming cross).
  - destruct (Nat.leb_spec (length (Crossing.crossingPoints crossing)) (a + 1))
      as [Hlast | Hmore]; [now eexists; eexists |].
    destruct (nth_error (Crossing.crossingPoints crossing) (a + 1)) as [next |] eqn:Hn;
      [now eexists; eexists | apply nth_error_None in Hn; lia].
  - destruct a as [| a']; [now eexists; eexists |].
    destruct (nth_error (Crossing.crossingPoints crossing) a') as [previous |] eqn:Hp;
      [now eexists; eexists |].
    apply nth_error_None in Hp.
    assert (Datatypes.S a' < length (Crossing.crossingPoints crossing))%nat
      by (apply nth_error_Some; congruence).
    lia.
Qed.

Lemma placeCrossingPoint_returns (anchor : Anchors) (canvasCRF : Canvas)
      (crossing : Crossing) (a : nat) (cross : CrossingPoint) :
  wellFormedCrossing crossing ->
  nth_error (Crossing.crossingPoints crossing) a = Some cross ->
  (exists size, transformWidthHeight (CrossingPoint.nodeBounds cross) canvasCRF = Some size) ->
  exists cross', placeCrossingPoint anchor canvasCRF crossing a cross = Some cross'.
Proof.
  intros (Hord & Hlen & Hfour) Ha (size & Hsize).
  destruct (searchDirection_returns crossing a cross Ha) as (direction & end_ & Hde).
  pose proof (searchDirection_ordered crossing a cross direction end_ Hord Ha Hde) as Hdir.
  unfold placeCrossingPoint. rewrite Hsize, Hde. cbn [bind].
  assert (Hsection : (CrossingPoint.section cross
                      < length (Crossing.pointBounds crossing))%nat).
  { apply (proj2 Hord). eapply nth_error_In, Ha. }
  assert (Hend : (direction = 1%Z ->
                  (end_ < Z.of_nat (length (Crossing.pointBounds crossing)))%Z) /\
                 (direction = (-1)%Z -> (0 <= end_)%Z)).
  { unfold searchDirection in Hde. destruct (CrossingPoint.incoming cross).
    - destruct (length (Crossing.crossingPoints crossing) <=? a + 1)%nat.
      + injection Hde as <- <-. split; [lia | discriminate].
      + destruct (nth_error (Crossing.crossingPoints crossing) (a + 1))
          as [next |] eqn:Hn; [| discriminate].
        cbn [bind] in Hde. injection Hde as <- <-. split; [| discriminate].
        intros _. pose proof (proj2 Hord next (nth_error_In _ _ Hn)). lia.
    - destruct a as [| a'].
      + injection Hde as <- <-. split; [discriminate | lia].
      + destruct (nth_error (Crossing.crossingPoints crossing) a') as [previous |];
          [| discriminate].
        cbn [bind] in Hde. injection Hde as <- <-. split; [discriminate | lia]. }
  destruct (searchAnchor_returns
              (Datatypes.S (length (Crossing.pointBounds crossing))) crossing
              (CrossingPoint.side cross)
              (searchBound (CrossingPoint.side cross)
                           (proxyWidth size * offsetMultiplierOf anchor)
                           (proxyHeight size * offsetMultiplierOf anchor) canvasCRF)
              (end_ + direction)%Z direction
              (Z.of_nat (CrossingPoint.section cross)) Hlen Hfour) as (found & ->).
  - destruct Hdir as [[-> Hle] | [-> Hle]]; [left | right]; lia.
  - eexists. reflexivity.
Qed.

Lemma placeCrossingPoints_returns (anchor : Anchors) (canvasCRF : Canvas)
      (crossing : Crossing) (a : nat) (todo : list CrossingPoint) :
  wellFormedCrossing crossing ->
  (forall k, nth_error todo k = nth_error (Crossing.crossingPoints crossing) (a + k)) ->
  (forall cross, In cross todo ->
     exists size, transformWidthHeight (CrossingPoint.nodeBounds cross) canvasCRF = Some size) ->
  exists cps, placeCrossingPoints anchor canvasCRF crossing a todo = Some cps.
Proof.
  intros Hwf. revert a. induction todo as [| cross rest IH]; intros a Hnth Hsize;
    cbn [placeCrossingPoints]; [now eexists |].
  destruct (placeCrossingPoint_returns anchor canvasCRF crossing a cross Hwf)
    as (cross' & ->).
  - rewrite <- (Nat.add_0_r a), <- Hnth. reflexivity.
  - apply Hsize. now left.
  - destruct (IH (Datatypes.S a)) as (cps & ->).
    + intros k. rewrite Nat.add_succ_comm, <- Hnth. reflexivity.
    + intros c Hc. apply Hsize. now right.
    + cbn [bind]. eexists. reflexivity.
Qed.

(** On well-formed crossings whose markers have a size
    [updateProxyPlacementPoints] returns. *)
Lemma updateProxyPlacementPoints_returns (crossings : list Crossing) (canvasCRF : Canvas) :
  Forall wellFormedCrossing crossings ->
  (forall crossing cross,
      In crossing crossings -> In cross (Crossing.crossingPoints crossing) ->
      exists size, transformWidthHeight (CrossingPoint.nodeBounds cross) canvasCRF = Some size) ->
  exists crossings', updateProxyPlacementPoints crossings canvasCRF = Some crossings'.
Proof.
  intros Hwf Hsize. unfold updateProxyPlacementPoints, updateProxyPlacementPoints_with.
  apply mapM_total. intros crossing Hin.
  rewrite Forall_forall in Hwf.
  destruct (placeCrossingPoints_returns Anchors.towardsMiddle canvasCRF crossing 0
              (Crossing.crossingPoints crossing) (Hwf _ Hin)) as (cps & ->).
  - reflexivity.
  - intros cross Hc. now apply (Hsize crossing).
  - cbn [bind]. eexists. reflexivity.
Qed.

(** What the placement leaves of the crossings, for any value of the local
    [anchor]. *)
Lemma updateProxyPlacementPoints_with_frame (anchor : Anchors)
      (crossings crossings' : list Crossing) (canvasCRF : Canvas) :
  updateProxyPlacementPoints_with anchor crossings canvasCRF = Some crossings' ->
  Forall2
    (fun crossing crossing' =>
       Crossing.edge crossing' = Crossing.edge crossing /\
       Crossing.pointBounds crossing' = Crossing.pointBounds crossing /\
       Crossing.bezierPoints crossing' = Crossing.bezierPoints crossing /\
       length (Crossing.crossingPoints crossing')
       = length (Crossing.crossingPoints crossing) /\
       forall a cross cross',
         nth_error (Crossing.crossingPoints crossing) a = Some cross ->
         nth_error (Crossing.crossingPoints crossing') a = Some cross' ->
         CrossingPoint.side cross' = CrossingPoint.side cross /\
         sameButPlacement cross cross' /\
         (inSegmentOrder crossing ->
          noAnchorInRange anchor canvasCRF crossing a cross ->
          CrossingPoint.proxyPoint cross' = CrossingPoint.proxyPoint cross /\
          CrossingPoint.anchor cross' = CrossingPoint.anchor cross))
    crossings crossings'.
Proof.
  unfold updateProxyPlacementPoints_with. intros H.
  apply mapM_Forall2 in H. eapply Forall2_impl; [| exact H].
  intros crossing crossing' Hc. cbv beta in Hc.
  apply bind_Some in Hc. destruct Hc as (cps & Hcps & [= <-]).
  cbn [Crossing.with_crossingPoints Crossing.edge Crossing.pointBounds
       Crossing.bezierPoints Crossing.crossingPoints].
  destruct (placeCrossingPoints_frame _ _ _ _ _ _ Hcps) as [Hlen Hnth].
  split; [reflexivity |]. split; [reflexivity |]. split; [reflexivity |].
  split; [exact Hlen |].
  intros a cross cross' Ha Ha'.
  specialize (Hnth a cross cross' Ha Ha'). cbn [Nat.add] in Hnth.
  destruct (placeCrossingPoint_frame _ _ _ _ _ _ Hnth) as [Hsame Hkeep].
  split; [apply Hsame |]. split; [exact Hsame |].
  intros Hord Hnone. now rewrite (Hkeep Hord Ha Hnone).
Qed.

(** C8.  [updateProxyPlacementPoints] never changes the side of a crossing
    point, with or without a new anchor point; and a crossing point in whose
    search range no segment crosses the shrunk rectangle with a root that
    passes the filter keeps the anchor point (and the anchor) it had. *)
Theorem updateProxyPlacementPoints_frame (crossings crossings' : list Crossing)
        (canvasCRF : Canvas) :
  updateProxyPlacementPoints crossings canvasCRF = Some crossings' ->
  Forall2
    (fun crossing crossing' =>
       Crossing.edge crossing' = Crossing.edge crossing /\
       Crossing.pointBounds crossing' = Crossing.pointBounds crossing /\
       Crossing.bezierPoints crossing' = Crossing.bezierPoints crossing /\
       length (Crossing.crossingPoints crossing')
       = length (Crossing.crossingPoints crossing) /\
       forall a cross cross',
         nth_error (Crossing.crossingPoints crossing) a = Some cross ->
         nth_error (Crossing.crossingPoints crossing') a = Some cross' ->
         CrossingPoint.side cross' = CrossingPoint.side cross /\
         sameButPlacement cross cross' /\
         (inSegmentOrder crossing ->
          noAnchorInRange Anchors.towardsMiddle canvasCRF crossing a cross ->
          CrossingPoint.proxyPoint cross' = CrossingPoint.proxyPoint cross /\
          CrossingPoint.anchor cross' = CrossingPoint.anchor cross))
    crossings crossings'.
Proof.
  apply updateProxyPlacementPoints_with_frame.
Qed.

(** After [getCrossings] the placement returns, and a crossing point without
    an anchor in its search range stays at its boundary intersection. *)
Lemma placement_after_getCrossings (proxyEdges : list SKEdge) (canvasCRF : Canvas)
      (crossings : list Crossing) (console : list string) :
  getCrossings proxyEdges canvasCRF = (Some crossings, console) ->
  (forall crossing cross,
      In crossing crossings -> In cross (Crossing.crossingPoints crossing) ->
      exists size, transformWidthHeight (CrossingPoint.nodeBounds cross) canvasCRF = Some size) ->
  exists crossings',
    updateProxyPlacementPoints crossings canvasCRF = Some crossings' /\
    Forall2
      (fun crossing crossing' =>
         forall a cross cross',
           nth_error (Crossing.crossingPoints crossing) a = Some cross ->
           nth_error (Crossing.crossingPoints crossing') a = Some cross' ->
           noAnchorInRange Anchors.towardsMiddle canvasCRF crossing a cross ->
           CrossingPoint.proxyPoint cross' = CrossingPoint.point cross)
      crossings crossings'.
Proof.
  intros Hget Hsize. pose proof (getCrossings_shape _ _ _ _ Hget) as Hshape.
  destruct (updateProxyPlacementPoints_returns crossings canvasCRF)
    as (crossings' & Hupdate); [| exact Hsize |].
  { eapply Forall_impl; [| exact Hshape]. now intros crossing [Hwf _]. }
  exists crossings'. split; [exact Hupdate |].
  pose proof (updateProxyPlacementPoints_with_frame _ _ _ _ Hupdate) as Hframe.
  clear Hget Hsize Hupdate.
  induction Hframe as [| crossing crossing' crossings crossings' Hc _ IH];
    constructor.
  - inversion Hshape as [| ? ? [Hwf Hb] _]; subst.
    destruct Hc as (_ & _ & _ & _ & Hc).
    intros a cross cross' Ha Ha' Hnone.
    destruct (Hc a cross cross' Ha Ha') as (_ & _ & Hkeep).
    destruct (Hkeep (proj1 Hwf) Hnone) as [-> _].
    rewrite Forall_forall in Hb. apply (Hb cross). eapply nth_error_In, Ha.
  - apply IH. now inversion Hshape.
Qed.

(** ** The overlap filter *)

Lemma In_skipn_nth_error {A : Type} (d : nat) (l : list A) (x : A) :
  In x (skipn d l) <-> exists i, (d <= i)%nat /\ nth_error l i = Some x.
Proof.
  revert l. induction d as [| d IH]; intros l.
  - cbn [skipn]. split.
    + intros H. apply In_nth_error in H. destruct H as (i & Hi).
      exists i. split; [lia | exact Hi].
    + intros (i & _ & Hi). eapply nth_error_In, Hi.
  - destruct l as [| a l]; cbn [skipn].
    + split; [intros [] |]. intros (i & _ & Hi). now destruct i.
    + rewrite IH. split.
      * intros (i & Hle & Hi). exists (Datatypes.S i). split; [lia | exact Hi].
      * intros (i & Hle & Hi). destruct i as [| i]; [lia |].
        exists i. split; [lia | exact Hi].
Qed.

Lemma foundOverlapIn_spec (rows : list (list SKNode)) (canvasCRF : Canvas)
      (cp : CrossingPoint) (foundOverlap : bool) :
  foundOverlapIn rows canvasCRF cp = Some foundOverlap ->
  (foundOverlap = true <->
   exists size row n,
     transformWidthHeight (CrossingPoint.nodeBounds cp) canvasCRF = Some size /\
     In row rows /\ In n row /\
     isInBounds
       (Bounds.mk (Point.x (CrossingPoint.proxyPoint cp))
                  (Point.y (CrossingPoint.proxyPoint cp))
                  (proxyWidth size) (proxyHeight size))
       (filterBounds n) = true).
Proof.
  induction rows as [| row rows IH]; cbn [foundOverlapIn].
  - intros [= <-]. split; [discriminate |]. now intros (? & ? & ? & _ & [] & _).
  - intros H. apply bind_Some in H. destruct H as (size & Hsize & H).
    destruct (existsb _ row) eqn:Hrow.
    + injection H as <-. split; [intros _ | reflexivity].
      apply existsb_exists in Hrow. destruct Hrow as (n & Hn & Hover).
      exists size, row, n. repeat split; [exact Hsize | now left | exact Hn | exact Hover].
    + rewrite (IH H). split.
      * intros (size' & row' & n & Hs & Hr & Hn & Hover).
        exists size', row', n. repeat split; [exact Hs | now right | exact Hn | exact Hover].
      * intros (size' & row' & n & Hs & [<- | Hr] & Hn & Hover).
        -- exfalso. rewrite Hsize in Hs. injection Hs as <-.
           assert (Hex : existsb
                           (fun n => isInBounds
                              (Bounds.mk (Point.x (CrossingPoint.proxyPoint cp))
                                         (Point.y (CrossingPoint.proxyPoint cp))
                                         (proxyWidth size) (proxyHeight size))
                              (filterBounds n)) row = true).
           { apply existsb_exists. now exists n. }
           congruence.
        -- exists size', row', n. repeat split; assumption.
Qed.

Lemma foundOverlapIn_overlapsNodeFrom (nodes : list (list SKNode)) (depth : nat)
      (canvasCRF : Canvas) (cp : CrossingPoint) (foundOverlap : bool) :
  foundOverlapIn (skipn depth nodes) canvasCRF cp = Some foundOverlap ->
  (foundOverlap = true <-> overlapsNodeFrom nodes depth canvasCRF cp).
Proof.
  intros H. rewrite (foundOverlapIn_spec _ _ _ _ H). unfold overlapsNodeFrom. split.
  - intros (size & row & n & Hs & Hr & Hn & Hover).
    apply In_skipn_nth_error in Hr. destruct Hr as (i & Hi & Hnth).
    exists size, i, row, n. repeat split; assumption.
  - intros (size & i & row & n & Hs & Hi & Hnth & Hn & Hover).
    exists size, row, n. repeat split; try assumption.
    apply In_skipn_nth_error. now exists i.
Qed.

Lemma filterCrossingPoints_spec (nodes : list (list SKNode)) (root : SKNode)
      (canvasCRF : Canvas) (depth : option nat) (cps filtered : list CrossingPoint) :
  filterCrossingPoints nodes root canvasCRF depth cps = Some filtered ->
  let baseline :=
    match depth with
    | Some d => d
    | None =>
        match cps with
        | cp :: _ => getDepth (CrossingPoint.node cp) (SKNode.self root)
        | [] => 0%nat
        end
    end in
  forall cp, In cp filtered <->
             In cp cps /\ ~ overlapsNodeFrom nodes baseline canvasCRF cp.
Proof.
  revert depth filtered. induction cps as [| first rest IH]; intros depth filtered H;
    cbn [filterCrossingPoints] in H.
  - injection H as <-. intros baseline cp. simpl. tauto.
  - cbv zeta in H.
    set (d := match depth with
              | Some d => d
              | None => getDepth (CrossingPoint.node first) (SKNode.self root)
              end) in *.
    apply bind_Some in H. destruct H as (foundOverlap & Hfound & H).
    apply bind_Some in H. destruct H as (later & Hlater & [= <-]).
    pose proof (IH (Some d) later Hlater) as Hrest. cbv zeta in Hrest.
    pose proof (foundOverlapIn_overlapsNodeFrom _ _ _ _ _ Hfound) as Hfirst.
    intros baseline cp.
    assert (Hb : baseline = d) by (unfold baseline, d; now destruct depth).
    rewrite Hb. destruct foundOverlap; cbn [negb].
    + rewrite Hrest. split.
      * intros [Hin Hno]. split; [now right | exact Hno].
      * intros [[<- | Hin] Hno]; [| now split].
        exfalso. apply Hno, Hfirst. reflexivity.
    + cbn [In]. rewrite Hrest. split.
      * intros [<- | [Hin Hno]].
        -- split; [now left |]. intros Hover. apply Hfirst in Hover. discriminate.
        -- split; [now right | exact Hno].
      * intros [[<- | Hin] Hno]; [now left | right; now split].
Qed.

Lemma filterCrossings_kept (nodes : list (list SKNode)) (root : SKNode)
      (canvasCRF : Canvas) (crossings result : list Crossing) :
  filterCrossings nodes root canvasCRF crossings = Some result ->
  exists filtereds,
    Forall2
      (fun crossing filtered =>
         forall cp,
           In cp filtered <->
           In cp (Crossing.crossingPoints crossing) /\
           ~ overlapsNodeFrom nodes (baselineDepth crossing root) canvasCRF cp)
      crossings filtereds /\
    result = keptCrossings crossings filtereds.
Proof.
  revert result. induction crossings as [| crossing crossings IH]; intros result H;
    cbn [filterCrossings] in H.
  - injection H as <-. exists []. split; [constructor | reflexivity].
  - cbv zeta in H.
    apply bind_Some in H. destruct H as (filtered & Hfiltered & H).
    apply bind_Some in H. destruct H as (later & Hlater & [= <-]).
    destruct (IH later Hlater) as (filtereds & Hall & ->).
    exists (filtered :: filtereds).
    split; [| unfold keptCrossings; cbn [combine flat_map];
              now destruct (0 <? length filtered)%nat].
    constructor; [| exact Hall].
    exact (filterCrossingPoints_spec _ _ _ _ _ _ Hfiltered).
Qed.

(** The overlap filter returns when every marker has a size. *)
Lemma filterOverlappingWithNodes_returns (crossings : list Crossing) (root : SKNode)
      (canvasCRF : Canvas) :
  (forall crossing cp,
      In crossing crossings -> In cp (Crossing.crossingPoints crossing) ->
      exists size, transformWidthHeight (CrossingPoint.nodeBounds cp) canvasCRF = Some size) ->
  exists result, filterOverlappingWithNodes crossings root canvasCRF = Some result.
Proof.
  unfold filterOverlappingWithNodes. cbv zeta. generalize (getTreeDepths root) as nodes.
  intros nodes Hsize.
  assert (Hfound : forall rows cp,
             (exists size, transformWidthHeight (CrossingPoint.nodeBounds cp) canvasCRF
                           = Some size) ->
             exists foundOverlap, foundOverlapIn rows canvasCRF cp = Some foundOverlap).
  { intros rows cp (size & Hs). induction rows as [| row rows IHr];
      cbn [foundOverlapIn]; [now eexists |].
    rewrite Hs. cbn [bind]. destruct (existsb _ row); [now eexists | exact IHr]. }
  assert (Hpoints : forall cps depth,
             (forall cp, In cp cps ->
                exists size, transformWidthHeight (CrossingPoint.nodeBounds cp) canvasCRF
                             = Some size) ->
             exists filtered,
               filterCrossingPoints nodes root canvasCRF depth cps = Some filtered).
  { induction cps as [| cp cps IHc]; intros depth Hs; cbn [filterCrossingPoints];
      [now eexists |].
    cbv zeta.
    destruct (Hfound (skipn match depth with
                            | Some d => d
                            | None => getDepth (CrossingPoint.node cp) (SKNode.self root)
                            end nodes) cp (Hs cp (or_introl eq_refl)))
      as (foundOverlap & ->).
    destruct (IHc (Some match depth with
                        | Some d => d
                        | None => getDepth (CrossingPoint.node cp) (SKNode.self root)
                        end)) as (filtered & ->);
      [intros c Hc; apply Hs; now right |].
    cbn [bind]. eexists. reflexivity. }
  induction crossings as [| crossing crossings IH]; cbn [filterCrossings];
    [now eexists |].
  cbv zeta.
  destruct (Hpoints (Crossing.crossingPoints crossing)
                    (edgeDepth (Crossing.edge crossing) root)) as (filtered & ->);
    [intros cp Hcp; apply (Hsize crossing); [now left | exact Hcp] |].
  destruct IH as (result & ->);
    [intros c cp Hc Hcp; apply (Hsize c); [now right | exact Hcp] |].
  cbn [bind]. eexists. reflexivity.
Qed.

(** C4 (as amended).  A crossing point survives [filterOverlappingWithNodes]
    if and only if its marker overlaps no node of the rows of the tree from
    the baseline depth of its crossing on; that depth is the deeper of the
    two endpoint depths when both endpoints of the edge are nodes, and
    otherwise the depth of the node of the first crossing point of the
    crossing; a crossing without a surviving crossing point is left out. *)
Theorem filterOverlappingWithNodes_survivors (crossings result : list Crossing)
        (root : SKNode) (canvasCRF : Canvas) :
  filterOverlappingWithNodes crossings root canvasCRF = Some result ->
  (exists filtereds,
      Forall2
        (fun crossing filtered =>
           forall cp,
             In cp filtered <->
             In cp (Crossing.crossingPoints crossing) /\
             ~ overlapsNodeFrom (getTreeDepths root) (baselineDepth crossing root)
                                canvasCRF cp)
        crossings filtereds /\
      result = keptCrossings crossings filtereds) /\
  (forall crossing source target,
      SKEdge.source (Crossing.edge crossing) = Some source ->
      SKEdge.target (Crossing.edge crossing) = Some target ->
      Element.instanceofSKNode source = true ->
      Element.instanceofSKNode target = true ->
      baselineDepth crossing root
      = Nat.max (getDepth (Model source) (SKNode.self root))
                (getDepth (Model target) (SKNode.self root))) /\
  (forall crossing cp rest,
      instanceofSKNode (SKEdge.target (Crossing.edge crossing))
      && instanceofSKNode (SKEdge.source (Crossing.edge crossing)) = false ->
      Crossing.crossingPoints crossing = cp :: rest ->
      baselineDepth crossing root
      = getDepth (CrossingPoint.node cp) (SKNode.self root)).
Proof.
  intros H. split; [apply filterCrossings_kept, H |]. split.
  - intros crossing source target Hs Ht Hsn Htn.
    unfold baselineDepth, edgeDepth. rewrite Hs, Ht. cbn [instanceofSKNode].
    now rewrite Hsn, Htn.
  - intros crossing cp rest Hnot Hcps.
    unfold baselineDepth, edgeDepth. now rewrite Hnot, Hcps.
Qed.

(** ** Further properties of the root solver *)

(** X1.  [crt] is the real cube root: its cube is its argument, it is odd,
    and it has the sign of its argument. *)
Theorem crt_real_cube_root (v : R) :
  crt v * crt v * crt v = v /\
  crt (- v) = - crt v /\
  (v < 0 -> crt v < 0) /\
  (v = 0 -> crt v = 0) /\
  (0 < v -> 0 < crt v).
Proof.
  pose proof (crt_cube v) as Hc.
  split; [exact Hc |]. split; [apply crt_opp |].
  assert (Hsq : 0 <= crt v * crt v) by apply Rle_0_sqr.
  split; [| split].
  - intros Hv. destruct (Rlt_dec (crt v) 0) as [Hn | Hn]; [exact Hn |].
    exfalso. assert (0 <= crt v * crt v * crt v) by (apply Rmult_le_pos; lra). lra.
  - intros Hv. apply crt_unique. rewrite Hv. ring.
  - intros Hv. destruct (Rlt_dec 0 (crt v)) as [Hp | Hp]; [exact Hp |].
    exfalso.
    assert (0 <= crt v * crt v * - crt v) by (apply Rmult_le_pos; lra). lra.
Qed.

(** X2.  The curve starts at its first control point and ends at its
    fourth. *)
Theorem computeCubic_endpoints (p0 p1 p2 p3 : Point) (more : list Point) :
  computeCubic 0 (p0 :: p1 :: p2 :: p3 :: more) = Some p0 /\
  computeCubic 1 (p0 :: p1 :: p2 :: p3 :: more) = Some p3.
Proof.
  destruct p0 as [x0 y0], p3 as [x3 y3]. unfold computeCubic.
  cbn [Point.x Point.y]. split; f_equal; apply f_equal2; ring.
Qed.

Lemma convex_combination_bounds (a b c d x0 x1 x2 x3 lo hi : R) :
  0 <= a -> 0 <= b -> 0 <= c -> 0 <= d -> a + b + c + d = 1 ->
  lo <= x0 <= hi -> lo <= x1 <= hi -> lo <= x2 <= hi -> lo <= x3 <= hi ->
  lo <= a * x0 + b * x1 + c * x2 + d * x3 <= hi.
Proof.
  intros Ha Hb Hc Hd Hsum H0 H1 H2 H3.
  assert (0 <= a * (x0 - lo)) by (apply Rmult_le_pos; lra).
  assert (0 <= b * (x1 - lo)) by (apply Rmult_le_pos; lra).
  assert (0 <= c * (x2 - lo)) by (apply Rmult_le_pos; lra).
  assert (0 <= d * (x3 - lo)) by (apply Rmult_le_pos; lra).
  assert (0 <= a * (hi - x0)) by (apply Rmult_le_pos; lra).
  assert (0 <= b * (hi - x1)) by (apply Rmult_le_pos; lra).
  assert (0 <= c * (hi - x2)) by (apply Rmult_le_pos; lra).
  assert (0 <= d * (hi - x3)) by (apply Rmult_le_pos; lra).
  assert (Hlo : a * x0 + b * x1 + c * x2 + d * x3 - lo
                = a * (x0 - lo) + b * (x1 - lo) + c * (x2 - lo) + d * (x3 - lo)).
  { replace lo with ((a + b + c + d) * lo) at 1 by (rewrite Hsum; ring). ring. }
  assert (Hhi : hi - (a * x0 + b * x1 + c * x2 + d * x3)
                = a * (hi - x0) + b * (hi - x1) + c * (hi - x2) + d * (hi - x3)).
  { replace hi with ((a + b + c + d) * hi) at 1 by (rewrite Hsum; ring). ring. }
  lra.
Qed.

Lemma bernstein_weights (t : R) :
  0 <= t <= 1 ->
  let mt := 1 - t in
  0 <= mt * mt * mt /\ 0 <= mt * mt * t * 3 /\ 0 <= mt * t * t * 3 /\
  0 <= t * t * t /\
  mt * mt * mt + mt * mt * t * 3 + mt * t * t * 3 + t * t * t = 1.
Proof.
  intros Ht mt. assert (Hmt : 0 <= mt) by (unfold mt; lra).
  split; [repeat apply Rmult_le_pos; lra |].
  split; [repeat apply Rmult_le_pos; lra |].
  split; [repeat apply Rmult_le_pos; lra |].
  split; [repeat apply Rmult_le_pos; lra |].
  unfold mt. ring.
Qed.

(** X3.  For a parameter in [[0, 1]] the point of the curve lies in the
    bounding box of the control points, the rectangle that [getCrossings]
    tests before it solves a segment. *)
Theorem computeCubic_in_bounds (t : R) (p0 p1 p2 p3 : Point) (more : list Point) :
  0 <= t <= 1 ->
  exists pt b,
    computeCubic t (p0 :: p1 :: p2 :: p3 :: more) = Some pt /\
    getBoundsFromPoints (p0 :: p1 :: p2 :: p3 :: more) = Some b /\
    inside pt b.
Proof.
  intros Ht. eexists. eexists. split; [reflexivity |]. split; [reflexivity |].
  destruct (bernstein_weights t Ht) as (Ha & Hb & Hc & Hd & Hsum).
  destruct (Math_min_spec (Point.x p0) (map Point.x (p1 :: p2 :: p3 :: more)))
    as [_ Hxl].
  destruct (Math_min_spec (Point.y p0) (map Point.y (p1 :: p2 :: p3 :: more)))
    as [_ Hyl].
  destruct (Math_max_spec (Point.x p0) (map Point.x (p1 :: p2 :: p3 :: more)))
    as [_ HXl].
  destruct (Math_max_spec (Point.y p0) (map Point.y (p1 :: p2 :: p3 :: more)))
    as [_ HYl].
  unfold inside. cbn [Bounds.x Bounds.y Bounds.width Bounds.height Point.x Point.y].
  set (xmin := Math_min (Point.x p0) (map Point.x (p1 :: p2 :: p3 :: more))) in *.
  set (ymin := Math_min (Point.y p0) (map Point.y (p1 :: p2 :: p3 :: more))) in *.
  set (xmax := Math_max (Point.x p0) (map Point.x (p1 :: p2 :: p3 :: more))) in *.
  set (ymax := Math_max (Point.y p0) (map Point.y (p1 :: p2 :: p3 :: more))) in *.
  replace (xmin + (xmax - xmin)) with xmax by ring.
  replace (ymin + (ymax - ymin)) with ymax by ring.
  cbn [map] in Hxl, Hyl, HXl, HYl.
  split; apply convex_combination_bounds; try assumption;
    (split; [first [apply Hxl | apply Hyl] | first [apply HXl | apply HYl]]);
    simpl; auto.
Qed.

(** *** What [getValueAt] returns *)

Lemma roots_of_length (pa pb pc pd : R) : (length (roots_of pa pb pc pd) <= 3)%nat.
Proof.
  unfold roots_of.
  repeat match goal with
         | |- context [if ?c then _ else _] => destruct c
         | |- context [match Math_sqrt ?v with _ => _ end] => destruct (Math_sqrt v)
         end;
    try (simpl; lia);
    match goal with
    | |- (length (filter ?f ?l) <= 3)%nat =>
        pose proof (filter_length_le f l) as Hle; simpl in Hle; simpl; lia
    end.
Qed.

Lemma evaluate_roots_more (root : list R) (p0 p1 p2 p3 : Point) (more : list Point) :
  exists result,
    evaluate_roots root (p0 :: p1 :: p2 :: p3 :: more) = Some result /\
    map cv_t result = root /\
    forall e, In e result ->
              computeCubic (cv_t e) (p0 :: p1 :: p2 :: p3 :: more) = Some (cv_point e).
Proof.
  induction root as [| t rest IH].
  - exists []. simpl. repeat split; intros e [].
  - destruct IH as (result & Hr & Hm & He).
    destruct (computeCubic t (p0 :: p1 :: p2 :: p3 :: more)) as [pt |] eqn:Hc;
      [| discriminate Hc].
    exists (mkCurvePoint pt t :: result).
    cbn [evaluate_roots]. rewrite Hc, Hr. repeat split.
    + simpl. now rewrite Hm.
    + intros e [<- | Hin]; [exact Hc | now apply He].
Qed.

Lemma getValueAt_roots_of_more (value : R) (p0 p1 p2 p3 : Point) (more : list Point)
      (axis : nat) :
  getValueAt value (p0 :: p1 :: p2 :: p3 :: more) axis =
  evaluate_roots
    (if Nat.eqb axis 1
     then roots_of (- (Point.y p0 - value)) (- (Point.y p1 - value))
                   (- (Point.y p2 - value)) (- (Point.y p3 - value))
     else roots_of (Point.x p0 - value) (Point.x p1 - value)
                   (Point.x p2 - value) (Point.x p3 - value))
    (p0 :: p1 :: p2 :: p3 :: more).
Proof.
  unfold getValueAt, roots, align, align_point.
  destruct (Nat.eqb axis 1); cbn [map Line.p1 Line.p2 Point.x Point.y].
  - rewrite Math_atan2_y_axis, cos_neg, sin_neg, cos_PI2, sin_PI2.
    f_equal. f_equal; ring.
  - rewrite Math_atan2_x_axis, Ropp_0, cos_0, sin_0.
    f_equal. f_equal; ring.
Qed.

Lemma getValueAt_Some (value : R) (points : list Point) (axis : nat)
      (result : list CurvePoint) :
  getValueAt value points axis = Some result ->
  (length result <= 3)%nat /\
  forall e, In e result ->
            0 <= cv_t e <= 1 /\
            computeCubic (cv_t e) points = Some (cv_point e).
Proof.
  intros Hres.
  destruct points as [| p0 [| p1 [| p2 [| p3 more]]]];
    try (unfold getValueAt, roots, align in Hres; discriminate Hres).
  rewrite getValueAt_roots_of_more in Hres.
  set (root := if Nat.eqb axis 1
               then roots_of (- (Point.y p0 - value)) (- (Point.y p1 - value))
                             (- (Point.y p2 - value)) (- (Point.y p3 - value))
               else roots_of (Point.x p0 - value) (Point.x p1 - value)
                             (Point.x p2 - value) (Point.x p3 - value)) in Hres.
  destruct (evaluate_roots_more root p0 p1 p2 p3 more) as (result' & Hres' & Hmap & Hev).
  rewrite Hres' in Hres. injection Hres as <-. split.
  - rewrite <- (length_map cv_t), Hmap. unfold root.
    destruct (Nat.eqb axis 1); apply roots_of_length.
  - intros e Hin. specialize (Hev e Hin).
    assert (Hroot : In (cv_t e) root) by (rewrite <- Hmap; now apply in_map).
    split; [| exact Hev].
    unfold root in Hroot. destruct (Nat.eqb axis 1); eapply roots_of_range, Hroot.
Qed.

(** X5.  [getValueAt] throws exactly on fewer than four control points. *)
Theorem getValueAt_throws_iff (value : R) (points : list Point) (axis : nat) :
  getValueAt value points axis = None <-> (length points < 4)%nat.
Proof.
  split.
  - intros Hnone. destruct (Nat.lt_ge_cases (length points) 4) as [Hlt | Hge];
      [exact Hlt |].
    destruct (getValueAt_returns value points axis Hge) as (result & Hr). congruence.
  - intros Hlt. unfold getValueAt, roots, align.
    destruct points as [| p0 [| p1 [| p2 [| p3 more]]]]; try reflexivity.
    simpl in Hlt. lia.
Qed.

(** *** The alignment is a rigid motion *)

Lemma sqrt_one_plus_sqr (x y : R) :
  0 < x -> sqrt (1 + (y / x)²) = sqrt (x * x + y * y) / x.
Proof.
  intros Hx. assert (Hr : 0 < x * x + y * y) by nra.
  pose proof (sqrt_lt_R0 _ Hr) as Hrpos.
  pose proof (sqrt_sqrt (x * x + y * y) (Rlt_le _ _ Hr)) as Hsq.
  apply sqrt_lem_1.
  - pose proof (Rle_0_sqr (y / x)). lra.
  - apply Rmult_le_pos; [lra |]. left. now apply Rinv_0_lt_compat.
  - unfold Rsqr.
    replace (sqrt (x * x + y * y) / x * (sqrt (x * x + y * y) / x))
      with (sqrt (x * x + y * y) * sqrt (x * x + y * y) / (x * x)) by (field; lra).
    rewrite Hsq. field. lra.
Qed.

Lemma Math_atan2_trig (y x : R) :
  ~ (x = 0 /\ y = 0) ->
  cos (Math_atan2 y x) = x / sqrt (x * x + y * y) /\
  sin (Math_atan2 y x) = y / sqrt (x * x + y * y).
Proof.
  intros Hne. assert (Hr : 0 < x * x + y * y).
  { destruct (Req_dec_T x 0) as [-> | Hx].
    - assert (y <> 0) by tauto. nra.
    - nra. }
  pose proof (sqrt_lt_R0 _ Hr) as Hrpos.
  unfold Math_atan2. destruct (Rlt_dec 0 x) as [Hpos | Hnpos].
  - rewrite cos_atan, sin_atan, sqrt_one_plus_sqr by exact Hpos.
    split; field; lra.
  - destruct (Rlt_dec x 0) as [Hneg | Hnneg].
    + assert (Hs : sqrt (1 + (y / x)²) = sqrt (x * x + y * y) / - x).
      { replace (y / x) with (- y / - x) by (field; lra).
        rewrite sqrt_one_plus_sqr by lra. f_equal. f_equal. ring. }
      destruct (Rle_dec 0 y).
      * rewrite neg_cos, neg_sin, cos_atan, sin_atan, Hs. split; field; lra.
      * rewrite cos_minus, sin_minus, cos_PI, sin_PI, cos_atan, sin_atan, Hs.
        split; field; lra.
    + assert (Hx : x = 0) by lra. subst x.
      replace (0 * 0 + y * y) with (y * y) in * by ring.
      destruct (Rlt_dec 0 y) as [Hy | Hy].
      * rewrite cos_PI2, sin_PI2, sqrt_square by lra. split; field; lra.
      * destruct (Rlt_dec y 0) as [Hy' | Hy']; [| exfalso; apply Hne; split; lra].
        rewrite cos_neg, sin_neg, cos_PI2, sin_PI2.
        replace (y * y) with (- y * - y) by ring.
        rewrite sqrt_square by lra. split; field; lra.
Qed.

(** X6.  [align] is a rigid motion that lays the line on the x axis: it
    keeps the distance of any two points, sends the first point of the line
    to the origin and the second one to the x axis, at the length of the
    line from the origin. *)
Theorem align_rigid_motion (line : Line) :
  let dx := Point.x (Line.p2 line) - Point.x (Line.p1 line) in
  let dy := Point.y (Line.p2 line) - Point.y (Line.p1 line) in
  (forall u v,
      (Point.x (align_point line u) - Point.x (align_point line v))
      * (Point.x (align_point line u) - Point.x (align_point line v))
      + (Point.y (align_point line u) - Point.y (align_point line v))
        * (Point.y (align_point line u) - Point.y (align_point line v))
      = (Point.x u - Point.x v) * (Point.x u - Point.x v)
        + (Point.y u - Point.y v) * (Point.y u - Point.y v)) /\
  Point.x (align_point line (Line.p1 line)) = 0 /\
  Point.y (align_point line (Line.p1 line)) = 0 /\
  Point.x (align_point line (Line.p2 line)) = sqrt (dx * dx + dy * dy) /\
  Point.y (align_point line (Line.p2 line)) = 0.
Proof.
  intros dx dy. unfold align_point. cbn [Point.x Point.y]. fold dx dy.
  set (a := - Math_atan2 dy dx).
  pose proof (sin2_cos2 a) as Hsc. unfold Rsqr in Hsc.
  split; [| split; [ring | split; [ring |]]].
  - intros u v.
    replace ((Point.x u - Point.x (Line.p1 line)) * cos a
             - (Point.y u - Point.y (Line.p1 line)) * sin a
             - ((Point.x v - Point.x (Line.p1 line)) * cos a
                - (Point.y v - Point.y (Line.p1 line)) * sin a))
      with ((Point.x u - Point.x v) * cos a - (Point.y u - Point.y v) * sin a) by ring.
    replace ((Point.x u - Point.x (Line.p1 line)) * sin a
             + (Point.y u - Point.y (Line.p1 line)) * cos a
             - ((Point.x v - Point.x (Line.p1 line)) * sin a
                + (Point.y v - Point.y (Line.p1 line)) * cos a))
      with ((Point.x u - Point.x v) * sin a + (Point.y u - Point.y v) * cos a) by ring.
    set (ex := Point.x u - Point.x v). set (ey := Point.y u - Point.y v).
    replace ((ex * cos a - ey * sin a) * (ex * cos a - ey * sin a)
             + (ex * sin a + ey * cos a) * (ex * sin a + ey * cos a))
      with ((ex * ex + ey * ey) * (sin a * sin a + cos a * cos a)) by ring.
    rewrite Hsc. ring.
  - unfold a. rewrite cos_neg, sin_neg.
    destruct (Req_dec_T dx 0) as [Hx | Hx]; [destruct (Req_dec_T dy 0) as [Hy | Hy] |].
    + rewrite Hx, Hy. replace (0 * 0 + 0 * 0) with 0 by ring. rewrite sqrt_0.
      split; ring.
    + destruct (Math_atan2_trig dy dx) as [Hc Hs]; [tauto |]. rewrite Hc, Hs.
      assert (Hr : 0 < dx * dx + dy * dy) by nra.
      pose proof (sqrt_lt_R0 _ Hr) as Hrpos.
      pose proof (sqrt_sqrt _ (Rlt_le _ _ Hr)) as Hsq.
      split; [| field; lra].
      replace (dx * (dx / sqrt (dx * dx + dy * dy))
               - dy * - (dy / sqrt (dx * dx + dy * dy)))
        with ((dx * dx + dy * dy) / sqrt (dx * dx + dy * dy)) by (field; lra).
      rewrite <- Hsq at 1. field. lra.
    + destruct (Math_atan2_trig dy dx) as [Hc Hs]; [tauto |]. rewrite Hc, Hs.
      assert (Hr : 0 < dx * dx + dy * dy) by nra.
      pose proof (sqrt_lt_R0 _ Hr) as Hrpos.
      pose proof (sqrt_sqrt _ (Rlt_le _ _ Hr)) as Hsq.
      split; [| field; lra].
      replace (dx * (dx / sqrt (dx * dx + dy * dy))
               - dy * - (dy / sqrt (dx * dx + dy * dy)))
        with ((dx * dx + dy * dy) / sqrt (dx * dx + dy * dy)) by (field; lra).
      rewrite <- Hsq at 1. field. lra.
Qed.

(** ** Further properties of the crossing detection *)

(** X7.  For a parameter in [[0, 1]] [isIncoming] probes the same segment
    at a parameter between 0.03 and 0.97, 0.03 away from the crossing
    towards the middle of the segment; on four control points or more it
    returns, and its answer is the probe's being inside the bounds, negated
    in the second half of the segment. *)
Theorem isIncoming_probe (t : R) (bounds : Bounds)
        (p0 p1 p2 p3 : Point) (more : list Point) :
  0 <= t <= 1 ->
  3 / 100 <= probeParameter t <= 97 / 100 /\
  (t <= 1 / 2 -> probeParameter t = t + 3 / 100) /\
  (1 / 2 < t -> probeParameter t = t - 3 / 100) /\
  exists newPoint,
    computeCubic (probeParameter t) (p0 :: p1 :: p2 :: p3 :: more) = Some newPoint /\
    isIncoming t bounds (p0 :: p1 :: p2 :: p3 :: more)
    = Some (if Rlt_dec (1 / 2) t
            then negb (isInBounds (asBounds newPoint) bounds)
            else isInBounds (asBounds newPoint) bounds).
Proof.
  intros Ht. unfold probeParameter, isIncoming.
  destruct (t >? 1 / 2) eqn:Hhalf.
  - apply ltb_num_true in Hhalf. split; [lra |]. split; [lra |].
    split; [reflexivity |]. eexists. split; [reflexivity |].
    cbn [computeCubic bind]. destruct (Rlt_dec (1 / 2) t); [| lra].
    now destruct (isInBounds _ bounds).
  - apply ltb_num_false in Hhalf. split; [lra |]. split; [reflexivity |].
    split; [lra |]. eexists. split; [reflexivity |].
    cbn [computeCubic bind]. destruct (Rlt_dec (1 / 2) t); [lra |].
    now destruct (isInBounds _ bounds).
Qed.

(** X8.  When [isInBounds] holds of overlapping rectangles only, a segment
    whose bounding box crosses the viewport straddles one of the four
    boundary lines at least, so that [getCrossings] solves one boundary at
    least for it. *)
Theorem isCrossingBounds_straddles (b1 b2 : Bounds) :
  (isInBounds b1 b2 = true -> overlaps b1 b2) ->
  isCrossingBounds b1 b2 = true ->
  (Bounds.x b1 <=? Bounds.x b2)
  && (Bounds.x b1 + Bounds.width b1 >=? Bounds.x b2) = true \/
  (Bounds.x b1 <=? Bounds.x b2 + Bounds.width b2)
  && (Bounds.x b1 + Bounds.width b1 >=? Bounds.x b2 + Bounds.width b2) = true \/
  (Bounds.y b1 <=? Bounds.y b2)
  && (Bounds.y b1 + Bounds.height b1 >=? Bounds.y b2) = true \/
  (Bounds.y b1 <=? Bounds.y b2 + Bounds.height b2)
  && (Bounds.y b1 + Bounds.height b1 >=? Bounds.y b2 + Bounds.height b2) = true.
Proof.
  intros Hin Hcross. apply isCrossingBounds_true_iff in Hcross.
  destruct Hcross as (Hover & _ & Hnot). apply Hin in Hover.
  unfold overlaps in Hover. unfold contains in Hnot.
  rewrite !andb_true_iff, !leb_num_true.
  destruct (Rle_dec (Bounds.x b2) (Bounds.x b1)) as [H1 | H1]; [| left; lra].
  destruct (Rle_dec (Bounds.x b1 + Bounds.width b1) (Bounds.x b2 + Bounds.width b2))
    as [H2 | H2]; [| right; left; lra].
  destruct (Rle_dec (Bounds.y b2) (Bounds.y b1)) as [H3 | H3];
    [| right; right; left; lra].
  destruct (Rle_dec (Bounds.y b1 + Bounds.height b1) (Bounds.y b2 + Bounds.height b2))
    as [H4 | H4]; [| right; right; right; lra].
  exfalso. apply Hnot. repeat split; assumption.
Qed.

(** *** The loop over the edges *)

Lemma routePoints_length (edge : SKEdge) :
  length (routePoints edge) = length (SKEdge.routingPoints edge).
Proof. unfold routePoints. now rewrite length_map. Qed.

Lemma edgeCrossings_unfold (edge : SKEdge) (canvasCRF : Canvas) :
  edgeCrossings edge canvasCRF =
  if validRoute (SKEdge.routingPoints edge) then
    pointBounds <-
      mapM getBoundsFromPoints
           (map (fun i => slice (i * 3) (i * 3 + 4) (routePoints edge))
                (seq 0 (length (SKEdge.routingPoints edge) / 3))) ;;
    newCrossings <-
      segmentCrossings edge canvasCRF 0 pointBounds
        (map (fun i => slice (i * 3) (i * 3 + 4) (routePoints edge))
             (seq 0 (length (SKEdge.routingPoints edge) / 3))) ;;
    Some (Pushed (Crossing.mk edge pointBounds
                    (map (fun i => slice (i * 3) (i * 3 + 4) (routePoints edge))
                         (seq 0 (length (SKEdge.routingPoints edge) / 3)))
                    newCrossings))
  else Some (Logged diagnostic).
Proof.
  unfold edgeCrossings, validRoute, routePoints. cbv zeta.
  rewrite length_map. reflexivity.
Qed.

Lemma edgeCrossings_pushed (edge : SKEdge) (canvasCRF : Canvas) (crossing : Crossing) :
  edgeCrossings edge canvasCRF = Some (Pushed crossing) ->
  validRoute (SKEdge.routingPoints edge) = true /\ Crossing.edge crossing = edge.
Proof.
  rewrite edgeCrossings_unfold.
  destruct (validRoute (SKEdge.routingPoints edge)); [| discriminate].
  intros H. split; [reflexivity |].
  apply bind_Some in H. destruct H as (pointBounds & _ & H).
  apply bind_Some in H. destruct H as (newCrossings & _ & H).
  injection H as <-. reflexivity.
Qed.

Lemma edgeCrossings_logged (edge : SKEdge) (canvasCRF : Canvas) (message : string) :
  edgeCrossings edge canvasCRF = Some (Logged message) ->
  validRoute (SKEdge.routingPoints edge) = false /\ message = diagnostic.
Proof.
  rewrite edgeCrossings_unfold.
  destruct (validRoute (SKEdge.routingPoints edge)).
  - intros H. apply bind_Some in H. destruct H as (pointBounds & _ & H).
    apply bind_Some in H. destruct H as (newCrossings & _ & H). discriminate H.
  - intros H. injection H as <-. split; reflexivity.
Qed.

Lemma getCrossings_from_edges (proxyEdges : list SKEdge) (canvasCRF : Canvas) :
  forall (crossings result : list Crossing) (console console' : list string),
    getCrossings_from proxyEdges canvasCRF crossings console = (Some result, console') ->
    map Crossing.edge result
    = map Crossing.edge crossings
      ++ filter (fun edge => validRoute (SKEdge.routingPoints edge)) proxyEdges /\
    console'
    = console
      ++ map (fun _ => diagnostic)
             (filter (fun edge => negb (validRoute (SKEdge.routingPoints edge)))
                     proxyEdges).
Proof.
  induction proxyEdges as [| edge rest IH]; intros crossings result console console' H.
  - injection H as <- <-. cbn [filter map]. now rewrite !app_nil_r.
  - cbn [getCrossings_from] in H.
    destruct (edgeCrossings edge canvasCRF) as [[crossing | message] |] eqn:Hedge;
      [| | discriminate H].
    + apply edgeCrossings_pushed in Hedge. destruct Hedge as (Hvalid & Hsame).
      apply IH in H. destruct H as (Hedges & Hconsole).
      cbn [filter]. rewrite Hvalid. cbn [negb].
      split; [| exact Hconsole].
      rewrite Hedges, map_app, <- app_assoc. cbn [map app]. now rewrite Hsame.
    + apply edgeCrossings_logged in Hedge. destruct Hedge as (Hvalid & ->).
      apply IH in H. destruct H as (Hedges & Hconsole).
      cbn [filter]. rewrite Hvalid. cbn [negb map].
      split; [exact Hedges |].
      rewrite Hconsole, <- app_assoc. reflexivity.
Qed.

(** X10.  When [getCrossings] returns, it has one crossing for each edge
    whose route has [3n + 1] points with [n > 0], in the order of the edges
    and whether the edge crosses the viewport or not, and the console has
    one diagnostic for each other edge. *)
Theorem getCrossings_edges (proxyEdges : list SKEdge) (canvasCRF : Canvas)
        (crossings : list Crossing) (console : list string) :
  getCrossings proxyEdges canvasCRF = (Some crossings, console) ->
  map Crossing.edge crossings
  = filter (fun edge => validRoute (SKEdge.routingPoints edge)) proxyEdges /\
  console
  = map (fun _ => diagnostic)
        (filter (fun edge => negb (validRoute (SKEdge.routingPoints edge))) proxyEdges).
Proof.
  intros H. apply getCrossings_from_edges in H. exact H.
Qed.

(** *** The segments of a route *)

Lemma slice_four {A : Type} (start : nat) (arr : list A) :
  (start + 4 <= length arr)%nat ->
  exists a b c d,
    nth_error arr start = Some a /\ nth_error arr (start + 1) = Some b /\
    nth_error arr (start + 2) = Some c /\ nth_error arr (start + 3) = Some d /\
    slice start (start + 4) arr = [a; b; c; d].
Proof.
  unfold slice. replace (start + 4 - start)%nat with 4%nat by lia.
  revert arr. induction start as [| s IH]; intros arr Hlen.
  - destruct arr as [| a [| b [| c [| d rest]]]]; simpl in Hlen; try lia.
    exists a, b, c, d. repeat split.
  - destruct arr as [| x arr]; simpl in Hlen; [lia |].
    destruct (IH arr) as (a & b & c & d & H); [lia |]. exists a, b, c, d. exact H.
Qed.

Lemma mapM_nth_error {A B : Type} (f : A -> option B) (l : list A) (l' : list B) :
  mapM f l = Some l' ->
  forall i a, nth_error l i = Some a ->
              exists b, nth_error l' i = Some b /\ f a = Some b.
Proof.
  revert l'. induction l as [| x rest IH]; intros l' H i a Hi.
  - destruct i; discriminate Hi.
  - cbn [mapM] in H. apply bind_Some in H. destruct H as (b & Hb & H).
    apply bind_Some in H. destruct H as (bs & Hbs & H). injection H as <-.
    destruct i as [| i].
    + injection Hi as <-. exists b. split; [reflexivity | exact Hb].
    + exact (IH bs Hbs i a Hi).
Qed.

(** X11.  The crossing of an edge cuts the route of [3n + 1] points into
    [n] segments of four points, the fourth of each being the first of the
    next, and has the bounding box of each segment at the same index. *)
Theorem edgeCrossings_segments (edge : SKEdge) (canvasCRF : Canvas)
        (crossing : Crossing) :
  edgeCrossings edge canvasCRF = Some (Pushed crossing) ->
  exists n,
    (1 <= n)%nat /\
    length (routePoints edge) = (3 * n + 1)%nat /\
    length (Crossing.bezierPoints crossing) = n /\
    length (Crossing.pointBounds crossing) = n /\
    forall i, (i < n)%nat ->
      exists a b c d bound,
        nth_error (routePoints edge) (3 * i) = Some a /\
        nth_error (routePoints edge) (3 * i + 1) = Some b /\
        nth_error (routePoints edge) (3 * i + 2) = Some c /\
        nth_error (routePoints edge) (3 * i + 3) = Some d /\
        nth_error (Crossing.bezierPoints crossing) i = Some [a; b; c; d] /\
        nth_error (Crossing.pointBounds crossing) i = Some bound /\
        getBoundsFromPoints [a; b; c; d] = Some bound.
Proof.
  rewrite edgeCrossings_unfold.
  destruct (validRoute (SKEdge.routingPoints edge)) eqn:Hvalid; [| discriminate].
  apply route_test_true in Hvalid. destruct Hvalid as (n & Hn & Hlen).
  assert (Hdiv : (length (SKEdge.routingPoints edge) / 3 = n)%nat).
  { rewrite Hlen. replace (3 * n + 1)%nat with (1 + n * 3)%nat by lia.
    rewrite Nat.div_add by lia. reflexivity. }
  rewrite Hdiv.
  intros H. apply bind_Some in H. destruct H as (pointBounds & Hbounds & H).
  apply bind_Some in H. destruct H as (newCrossings & _ & H).
  injection H as <-. cbn [Crossing.bezierPoints Crossing.pointBounds].
  exists n. split; [exact Hn |]. split; [now rewrite routePoints_length |].
  split; [now rewrite length_map, length_seq |].
  split; [rewrite (mapM_length _ _ _ Hbounds); now rewrite length_map, length_seq |].
  intros i Hi.
  destruct (slice_four (i * 3) (routePoints edge)) as (a & b & c & d & Ha & Hb & Hc & Hd & Hs).
  { rewrite routePoints_length. lia. }
  assert (Hseg : nth_error
                   (map (fun i => slice (i * 3) (i * 3 + 4) (routePoints edge)) (seq 0 n)) i
                 = Some [a; b; c; d]).
  { rewrite nth_error_map, nth_error_seq.
    destruct (Nat.ltb_spec i n) as [_ | Hge]; [| lia].
    cbn [option_map Nat.add]. now rewrite Hs. }
  destruct (mapM_nth_error _ _ _ Hbounds i _ Hseg) as (bound & Hbound & Hget).
  exists a, b, c, d, bound.
  replace (3 * i)%nat with (i * 3)%nat by lia.
  split; [exact Ha |]. split; [exact Hb |]. split; [exact Hc |].
  split; [exact Hd |]. split; [exact Hseg |]. split; [exact Hbound | exact Hget].
Qed.

(** *** Routes inside the viewport *)







(** *** The crossing points *)

Lemma sidePoints_sound (test : bool) (side : Sides) (b2 : Bounds)
      (bPoints : list Point) (l : list SidedPoint) :
  (if test
   then a <- getValueAt (sideValue side b2) bPoints (sideAxis side) ;;
        Some (map (fun p => mkSidedPoint (cv_point p) (cv_t p) side) a)
   else Some []) = Some l ->
  Forall (fun sp => solvedOnSide (sp_side sp) b2 bPoints (sp_point sp) (sp_t sp) /\
                    0 <= sp_t sp <= 1 /\
                    computeCubic (sp_t sp) bPoints = Some (sp_point sp)) l.
Proof.
  destruct test; intros H.
  - apply bind_Some in H. destruct H as (a & Ha & H). injection H as <-.
    apply Forall_forall. intros sp Hsp. apply in_map_iff in Hsp.
    destruct Hsp as (e & <- & He). cbn [sp_t sp_point sp_side].
    destruct (proj2 (getValueAt_Some _ _ _ _ Ha) e He) as (Ht & Hpt).
    split; [| split; [exact Ht | exact Hpt]].
    exists a. split; [exact Ha |]. now destruct e.
  - injection H as <-. constructor.
Qed.

Lemma boundaryPoints_sound (b1 b2 : Bounds) (bPoints : list Point)
      (cPoints : list SidedPoint) :
  boundaryPoints b1 b2 bPoints = Some cPoints ->
  Forall (fun sp => solvedOnSide (sp_side sp) b2 bPoints (sp_point sp) (sp_t sp) /\
                    0 <= sp_t sp <= 1 /\
                    computeCubic (sp_t sp) bPoints = Some (sp_point sp) /\
                    inGrace b2 (sp_point sp) = true) cPoints.
Proof.
  intros H. unfold boundaryPoints in H. cbv beta zeta in H.
  apply bind_Some in H. destruct H as (w & Hw & H).
  apply bind_Some in H. destruct H as (e & He & H).
  apply bind_Some in H. destruct H as (n & Hn & H).
  apply bind_Some in H. destruct H as (s & Hs & H).
  apply (sidePoints_sound _ Sides.W b2) in Hw.
  apply (sidePoints_sound _ Sides.E b2) in He.
  apply (sidePoints_sound _ Sides.N b2) in Hn.
  apply (sidePoints_sound _ Sides.S b2) in Hs.
  assert (Hall : Forall (fun sp =>
                           solvedOnSide (sp_side sp) b2 bPoints (sp_point sp) (sp_t sp) /\
                           0 <= sp_t sp <= 1 /\
                           computeCubic (sp_t sp) bPoints = Some (sp_point sp))
                        (w ++ e ++ n ++ s)).
  { apply Forall_app; split; [| apply Forall_app; split; [| apply Forall_app; split]];
      assumption. }
  injection H as <-.
  destruct (0 <? length (w ++ e ++ n ++ s))%nat eqn:Hlen.
  - apply Forall_forall. intros sp Hsp. apply filter_In in Hsp.
    destruct Hsp as (Hsp & Hgrace).
    rewrite Forall_forall in Hall. destruct (Hall sp Hsp) as (Hsolved & Ht & Hpt).
    repeat split; try assumption; apply Ht.
  - apply Nat.ltb_ge in Hlen. destruct (w ++ e ++ n ++ s); [constructor |].
    simpl in Hlen. lia.
Qed.

Lemma classify_sound (edge : SKEdge) (canvasCRF : Canvas) (bPoints : list Point)
      (i : nat) (sp : SidedPoint) (cross : CrossingPoint) :
  classify edge canvasCRF bPoints i sp = Some cross ->
  CrossingPoint.section cross = i /\
  CrossingPoint.point cross = sp_point sp /\
  CrossingPoint.t_ cross = sp_t sp /\
  CrossingPoint.side cross = sp_side sp /\
  isIncoming (sp_t sp) (Canvas.bounds canvasCRF) bPoints
  = Some (CrossingPoint.incoming cross) /\
  exists node,
    Object_create (if CrossingPoint.incoming cross
                   then SKEdge.source edge else SKEdge.target edge) = Some node /\
    getSynthesisProxyRenderingSingle node
    = (CrossingPoint.node cross, CrossingPoint.nodeBounds cross).
Proof.
  unfold classify. intros H.
  apply bind_Some in H. destruct H as (incoming & Hincoming & H).
  apply bind_Some in H. destruct H as (node & Hnode & H).
  destruct (getSynthesisProxyRenderingSingle node) as (proxyNode, proxyBounds) eqn:Hsyn.
  injection H as <-.
  cbn [CrossingPoint.section CrossingPoint.point CrossingPoint.t_ CrossingPoint.side
       CrossingPoint.incoming CrossingPoint.node CrossingPoint.nodeBounds].
  repeat split; try assumption.
  exists node. split; [| exact Hsyn]. now destruct incoming.
Qed.

Lemma segmentCrossings_sound (edge : SKEdge) (canvasCRF : Canvas)
      (pointBounds : list Bounds) :
  forall (i : nat) (bezierPoints : list (list Point)) (cps : list CrossingPoint),
    segmentCrossings edge canvasCRF i pointBounds bezierPoints = Some cps ->
    Forall (fun cp =>
              exists bPoints,
                (i <= CrossingPoint.section cp)%nat /\
                nth_error bezierPoints (CrossingPoint.section cp - i) = Some bPoints /\
                crossesSegment edge canvasCRF bPoints cp) cps.
Proof.
  induction pointBounds as [| pointBound rest IH]; intros i bezierPoints cps H.
  - injection H as <-. constructor.
  - destruct bezierPoints as [| bPoints bezierPoints'];
      [injection H as <-; constructor |].
    cbn [segmentCrossings] in H.
    apply bind_Some in H. destruct H as (here & Hhere & H).
    apply bind_Some in H. destruct H as (later & Hlater & H). injection H as <-.
    apply Forall_app. split.
    + destruct (isCrossingBounds pointBound (Canvas.bounds canvasCRF));
        [| injection Hhere as <-; constructor].
      apply bind_Some in Hhere. destruct Hhere as (cPoints & HcPoints & Hhere).
      apply boundaryPoints_sound in HcPoints.
      apply mapM_Forall2 in Hhere.
      clear - HcPoints Hhere. induction Hhere as [| sp cp sps cps' Hcp _ IHf];
        [constructor |].
      inversion HcPoints as [| ? ? (Hsolved & Ht & Hpt & Hgrace) Hrest]; subst.
      constructor; [| exact (IHf Hrest)].
      apply classify_sound in Hcp.
      destruct Hcp as (Hsection & Hpoint & Ht' & Hside & Hincoming & Hnode).
      exists bPoints. rewrite Hsection, Nat.sub_diag.
      split; [lia |]. split; [reflexivity |].
      unfold crossesSegment. rewrite Hpoint, Ht', Hside.
      repeat split; try assumption; apply Ht.
    + apply IH in Hlater. eapply Forall_impl; [| exact Hlater].
      intros cp (bPoints' & Hle & Hnth & Hcross). exists bPoints'.
      split; [lia |]. split; [| exact Hcross].
      replace (CrossingPoint.section cp - i)%nat
        with (Datatypes.S (CrossingPoint.section cp - Datatypes.S i)) by lia.
      exact Hnth.
Qed.

Lemma edgeCrossings_sound (edge : SKEdge) (canvasCRF : Canvas) (crossing : Crossing) :
  edgeCrossings edge canvasCRF = Some (Pushed crossing) ->
  Forall (fun cp =>
            exists bPoints,
              nth_error (Crossing.bezierPoints crossing) (CrossingPoint.section cp)
              = Some bPoints /\
              crossesSegment (Crossing.edge crossing) canvasCRF bPoints cp)
         (Crossing.crossingPoints crossing).
Proof.
  rewrite edgeCrossings_unfold.
  destruct (validRoute (SKEdge.routingPoints edge)); [| discriminate].
  intros H. apply bind_Some in H. destruct H as (pointBounds & _ & H).
  apply bind_Some in H. destruct H as (newCrossings & Hnew & H).
  injection H as <-.
  cbn [Crossing.bezierPoints Crossing.crossingPoints Crossing.edge].
  apply segmentCrossings_sound in Hnew. eapply Forall_impl; [| exact Hnew].
  intros cp (bPoints & _ & Hnth & Hcross). rewrite Nat.sub_0_r in Hnth.
  exists bPoints. split; assumption.
Qed.

(** X12.  Every crossing point [getCrossings] returns is an entry
    [{point, t}] of what [getValueAt] answers, on the segment [section] of
    its edge, for the line of its [side] of the viewport: the point of that
    segment at the parameter [t], which lies in [[0, 1]].  The point is no
    more than the grace offset outside the viewport, the direction is the
    one [isIncoming] finds at [t], and the crossing point carries a
    snapshot of the source of the edge when incoming and of its target
    otherwise. *)
Theorem getCrossings_crossingPoints (proxyEdges : list SKEdge) (canvasCRF : Canvas)
        (crossings : list Crossing) (console : list string) :
  getCrossings proxyEdges canvasCRF = (Some crossings, console) ->
  Forall (fun crossing =>
            Forall (fun cp =>
                      exists bPoints,
                        nth_error (Crossing.bezierPoints crossing)
                                  (CrossingPoint.section cp) = Some bPoints /\
                        crossesSegment (Crossing.edge crossing) canvasCRF bPoints cp)
                   (Crossing.crossingPoints crossing)) crossings.
Proof.
  intros H. unfold getCrossings in H.
  eapply getCrossings_from_shape; [| | exact H].
  - intros edge crossing Hedge. exact (edgeCrossings_sound edge canvasCRF crossing Hedge).
  - constructor.
Qed.

(** ** Further properties of the tree walks *)

Lemma getPossibleEdges_leaf (self : Element) (absoluteX absoluteY : R)
      (canvasCRF : Canvas) :
  getPossibleEdges (SKNode.mk self absoluteX absoluteY []) canvasCRF = [].
Proof. reflexivity. Qed.

Lemma getPossibleEdges_filter_size (canvasCRF : Canvas) (k : nat) :
  forall root, (node_size root <= k)%nat ->
               getPossibleEdges root canvasCRF
               = filter (crossesCanvas canvasCRF) (allEdges root).
Proof.
  induction k as [| k IH]; intros [self ax ay children] Hsize.
  - simpl in Hsize. lia.
  - cbn [getPossibleEdges allEdges]. cbn [node_size] in Hsize.
    apply le_S_n in Hsize. revert Hsize.
    induction children as [| [e | m |] rest IHc]; intros Hsize.
    + reflexivity.
    + cbn [filter]. rewrite IHc by exact Hsize. unfold crossesCanvas at 2.
      now destruct (isCrossingBounds (getCanvasBounds e) (Canvas.bounds canvasCRF)).
    + rewrite filter_app, <- IH by lia. rewrite IHc by lia.
      f_equal. destruct m as [mself mx my [| c cs]]; reflexivity.
    + exact (IHc Hsize).
Qed.

(** X13.  [getPossibleEdges] returns the edges of the whole tree below the
    root whose bounds on the canvas cross the viewport, each once and in
    the order of the children lists, whatever the depth of the edge. *)
Theorem getPossibleEdges_filter (root : SKNode) (canvasCRF : Canvas) :
  getPossibleEdges root canvasCRF
  = filter (crossesCanvas canvasCRF) (allEdges root).
Proof.
  exact (getPossibleEdges_filter_size canvasCRF (node_size root) root (le_n _)).
Qed.

(** *** The rows of the tree *)

Lemma rowAtDepth_nil (k : nat) : rowAtDepth k [] = [].
Proof. induction k as [| k IH]; [reflexivity | exact IH]. Qed.

Lemma rowAtDepth_next (k : nat) :
  forall row, rowAtDepth (Datatypes.S k) row = nextRow (rowAtDepth k row).
Proof.
  induction k as [| k IH]; intros row; [reflexivity |].
  change (rowAtDepth (Datatypes.S (Datatypes.S k)) row)
    with (rowAtDepth (Datatypes.S k) (nextRow row)).
  rewrite IH. reflexivity.
Qed.

Lemma getTreeDepths_rows_nth (k : nat) :
  forall currentRow row,
    nth_error (getTreeDepths_rows currentRow) k = Some row <->
    row = rowAtDepth k currentRow /\ row <> [].
Proof.
  induction k as [| k IH]; intros [| n ns] row.
  - rewrite getTreeDepths_rows_equation_1. cbn [nth_error rowAtDepth].
    split; [discriminate | intros [-> H]; now contradiction H].
  - rewrite getTreeDepths_rows_equation_2. cbn [nth_error rowAtDepth].
    split; [intros [= <-]; split; [reflexivity | discriminate]
           | intros [-> _]; reflexivity].
  - rewrite getTreeDepths_rows_equation_1. cbn [nth_error].
    split; [discriminate |]. intros [-> H]. contradiction H. apply rowAtDepth_nil.
  - rewrite getTreeDepths_rows_equation_2. cbn [nth_error]. rewrite IH. reflexivity.
Qed.

Lemma row_size_nextRow (row : list SKNode) :
  (row_size (nextRow row) + length row = row_size row)%nat.
Proof.
  unfold row_size, nextRow. induction row as [| m row IH]; [reflexivity |].
  simpl. rewrite map_app, list_sum_app.
  assert (Hm : (list_sum (map node_size (childNodes m)) + 1 = node_size m)%nat).
  { destruct m as [self ax ay children]. unfold childNodes. simpl.
    induction children as [| c cs IHc]; [reflexivity |].
    destruct c as [e | m |]; simpl in *; lia. }
  lia.
Qed.

Lemma getTreeDepths_rows_length (size : nat) :
  forall currentRow, (row_size currentRow <= size)%nat ->
                     (length (getTreeDepths_rows currentRow) <= size)%nat.
Proof.
  induction size as [| size IH]; intros [| n ns] Hsize.
  - rewrite getTreeDepths_rows_equation_1. simpl. lia.
  - pose proof (row_size_nextRow (n :: ns)) as H. simpl in H. lia.
  - rewrite getTreeDepths_rows_equation_1. simpl. lia.
  - rewrite getTreeDepths_rows_equation_2. cbn [length].
    pose proof (row_size_nextRow (n :: ns)) as H. cbn [length] in H.
    apply le_n_S, IH. lia.
Qed.

(** X14.  The row of index [k] of [getTreeDepths] is the row of the node
    children of the row before it, starting from the row of the root alone;
    the rows stop before the first empty one, so that there is one row at
    least and no more rows than nodes in the tree. *)
Theorem getTreeDepths_rows_spec (currRoot : SKNode) :
  (forall k row,
      nth_error (getTreeDepths currRoot) k = Some row <->
      row = rowAtDepth k [currRoot] /\ row <> []) /\
  nth_error (getTreeDepths currRoot) 0 = Some [currRoot] /\
  (forall k row next,
      nth_error (getTreeDepths currRoot) k = Some row ->
      nth_error (getTreeDepths currRoot) (Datatypes.S k) = Some next ->
      next = flat_map childNodes row) /\
  (1 <= length (getTreeDepths currRoot) <= node_size currRoot)%nat.
Proof.
  unfold getTreeDepths. split; [| split; [| split]].
  - intros k row. apply getTreeDepths_rows_nth.
  - apply getTreeDepths_rows_nth. split; [reflexivity | discriminate].
  - intros k row next Hrow Hnext.
    apply getTreeDepths_rows_nth in Hrow, Hnext.
    destruct Hrow as (-> & _). destruct Hnext as (-> & _).
    apply rowAtDepth_next.
  - split.
    + rewrite getTreeDepths_rows_equation_2. cbn [length]. lia.
    + apply getTreeDepths_rows_length. unfold row_size. simpl. lia.
Qed.

(** ** Further properties of the marker geometry *)

(** X15.  For a node of positive width and height, and when the node's own
    scale is not used, the marker keeps the aspect ratio of the node and
    its larger side is the share [sizePercentage] of the smaller side of
    the viewport; with [capScaleToOne] it is that or the larger side of the
    node, whichever is smaller. *)
Theorem transformWidthHeight_fit (proxyBounds : Bounds) (canvas : Canvas) :
  originalNodeScale this = false ->
  0 < Bounds.width proxyBounds -> 0 < Bounds.height proxyBounds ->
  0 <= Rmin (Canvas.width canvas) (Canvas.height canvas) * sizePercentage this ->
  exists size,
    transformWidthHeight proxyBounds canvas = Some size /\
    proxyWidth size * Bounds.height proxyBounds
    = proxyHeight size * Bounds.width proxyBounds /\
    Rmax (proxyWidth size) (proxyHeight size)
    = if capScaleToOne this
      then Rmin (Rmin (Canvas.width canvas) (Canvas.height canvas) * sizePercentage this)
                (Rmax (Bounds.width proxyBounds) (Bounds.height proxyBounds))
      else Rmin (Canvas.width canvas) (Canvas.height canvas) * sizePercentage this.
Proof.
  intros Horiginal Hw Hh Htarget. unfold transformWidthHeight. rewrite Horiginal.
  set (target := Rmin (Canvas.width canvas) (Canvas.height canvas) * sizePercentage this)
    in *.
  replace (Bounds.width proxyBounds =? 0) with false
    by (symmetry; apply eqb_num_false; lra).
  replace (Bounds.height proxyBounds =? 0) with false
    by (symmetry; apply eqb_num_false; lra).
  cbn [orb bind]. eexists. split; [reflexivity |].
  cbn [proxyWidth proxyHeight].
  set (w := Bounds.width proxyBounds) in *. set (h := Bounds.height proxyBounds) in *.
  assert (Hsw : target / w * w = target) by (field; lra).
  assert (Hsh : target / h * h = target) by (field; lra).
  assert (Hpw : 0 <= target / w).
  { apply Rmult_le_pos; [exact Htarget |]. left. now apply Rinv_0_lt_compat. }
  assert (Hph : 0 <= target / h).
  { apply Rmult_le_pos; [exact Htarget |]. left. now apply Rinv_0_lt_compat. }
  set (sw := target / w) in *. set (sh := target / h) in *.
  split; [ring |].
  destruct (capScaleToOne this); unfold Rmin, Rmax;
    repeat match goal with
           | |- context [Rle_dec ?a ?b] =>
               lazymatch a with
               | context [Rle_dec] => fail
               | _ => lazymatch b with
                      | context [Rle_dec] => fail
                      | _ => destruct (Rle_dec a b)
                      end
               end
           end; nra.
Qed.

(** X16.  [applyAnchors] moves the placement point so that a marker of a
    size that is not negative, drawn with its top left corner at the new
    placement point, contains the point it was anchored at. *)
Theorem applyAnchor_marker_contains (canvas : Canvas) (cp cp' : CrossingPoint)
        (size : ProxySize) :
  applyAnchor canvas cp = Some cp' ->
  transformWidthHeight (CrossingPoint.nodeBounds cp) canvas = Some size ->
  0 <= proxyWidth size -> 0 <= proxyHeight size ->
  inside (CrossingPoint.proxyPoint cp)
         (Bounds.mk (Point.x (CrossingPoint.proxyPoint cp'))
                    (Point.y (CrossingPoint.proxyPoint cp'))
                    (proxyWidth size) (proxyHeight size)).
Proof.
  intros Happly Hsize Hw Hh. apply applyAnchor_anchored in Happly.
  destruct Happly as (size' & Hsize' & ->).
  rewrite Hsize in Hsize'. injection Hsize' as <-.
  unfold inside, getAnchorOffsets.
  cbn [CrossingPoint.with_placement CrossingPoint.proxyPoint Point.x Point.y
       Bounds.x Bounds.y Bounds.width Bounds.height].
  destruct (CrossingPoint.anchor cp), (CrossingPoint.side cp); cbn [fst snd]; lra.
Qed.

Lemma applyAnchor_again (canvas : Canvas) (cp cp' : CrossingPoint) :
  applyAnchor canvas cp = Some cp' -> applyAnchor canvas cp' = Some cp'.
Proof.
  intros Happly. apply applyAnchor_anchored in Happly.
  destruct Happly as (size & Hsize & ->).
  unfold applyAnchor.
  cbn [CrossingPoint.with_placement CrossingPoint.nodeBounds CrossingPoint.side
       CrossingPoint.anchor CrossingPoint.proxyPoint CrossingPoint.point
       CrossingPoint.t_ CrossingPoint.incoming CrossingPoint.section
       CrossingPoint.node].
  rewrite Hsize. cbn [bind getAnchorOffsets Point.x Point.y]. rewrite !Rminus_0_r.
  reflexivity.
Qed.

Lemma mapM_again {A : Type} (f : A -> option A) (l l' : list A) :
  (forall a b, f a = Some b -> f b = Some b) ->
  mapM f l = Some l' -> mapM f l' = Some l'.
Proof.
  intros Hf. revert l'. induction l as [| a rest IH]; intros l' H.
  - injection H as <-. reflexivity.
  - cbn [mapM] in H. apply bind_Some in H. destruct H as (b & Hb & H).
    apply bind_Some in H. destruct H as (bs & Hbs & H). injection H as <-.
    cbn [mapM]. rewrite (Hf a b Hb), (IH bs Hbs). reflexivity.
Qed.

(** X17.  [applyAnchors] is idempotent: it leaves every crossing point
    anchored at the top left corner, and on such points it changes
    nothing. *)
Theorem applyAnchors_idempotent (crossings crossings' : list Crossing)
        (canvas : Canvas) :
  applyAnchors crossings canvas = Some crossings' ->
  applyAnchors crossings' canvas = Some crossings'.
Proof.
  unfold applyAnchors. apply mapM_again.
  intros crossing crossing' H.
  apply bind_Some in H. destruct H as (cps & Hcps & H). injection H as <-.
  cbn [Crossing.with_crossingPoints Crossing.crossingPoints Crossing.edge
       Crossing.pointBounds Crossing.bezierPoints].
  rewrite (mapM_again (applyAnchor canvas) _ _ (applyAnchor_again canvas) Hcps).
  reflexivity.
Qed.

(** ** Further properties of the marker placement *)

Lemma anchorCandidates_sound (side : Sides) (bound : Bounds) (bPoints : list Point)
      (first : CurvePoint) (others : list CurvePoint) :
  anchorCandidates side bound bPoints = Some (first :: others) ->
  solvedOnSide side bound bPoints (cv_point first) (cv_t first) /\
  0 <= cv_t first <= 1 /\
  computeCubic (cv_t first) bPoints = Some (cv_point first) /\
  inGrace bound (cv_point first) = true.
Proof.
  unfold anchorCandidates. intros H.
  apply bind_Some in H. destruct H as (p & Hp & H). injection H as H.
  assert (Hin : In first p /\ inGrace bound (cv_point first) = true).
  { destruct (0 <? length p)%nat eqn:Hlen.
    - apply (proj1 (filter_In (fun e => inGrace bound (cv_point e)) first p)).
      rewrite H. now left.
    - apply Nat.ltb_ge in Hlen. subst p. simpl in Hlen. lia. }
  destruct Hin as (Hin & Hgrace).
  assert (Hasked : getValueAt (sideValue side bound) bPoints (sideAxis side) = Some p)
    by (destruct side; exact Hp).
  destruct (proj2 (getValueAt_Some _ _ _ _ Hasked) first Hin) as (Ht & Hpt).
  split; [| split; [exact Ht | split; [exact Hpt | exact Hgrace]]].
  exists p. split; [exact Hasked |]. now destruct first.
Qed.

Lemma searchAnchor_found (fuel : nat) (crossing : Crossing) (side : Sides)
      (bound : Bounds) (stop direction : Z) :
  forall (pos : Z) (p : Point),
    searchAnchor fuel crossing side bound stop direction pos = Some (Some p) ->
    exists pos' bPoints t,
      nth_error (Crossing.bezierPoints crossing) pos' = Some bPoints /\
      solvedOnSide side bound bPoints p t /\
      0 <= t <= 1 /\
      computeCubic t bPoints = Some p /\
      inGrace bound p = true.
Proof.
  induction fuel as [| fuel IH]; intros pos p H; cbn [searchAnchor] in H.
  - destruct (Z.eqb pos stop); discriminate H.
  - destruct (Z.eqb pos stop); [discriminate H |].
    destruct (pos <? 0)%Z; [discriminate H |].
    destruct (nth_error (Crossing.pointBounds crossing) (Z.to_nat pos))
      as [pointBound |]; [| discriminate H].
    destruct (isCrossingBounds pointBound bound); [| exact (IH _ _ H)].
    destruct (nth_error (Crossing.bezierPoints crossing) (Z.to_nat pos))
      as [bPoints |] eqn:HbPoints; [| discriminate H].
    apply bind_Some in H. destruct H as (candidates & Hcandidates & H).
    destruct candidates as [| first others]; [exact (IH _ _ H) |].
    injection H as <-.
    destruct (anchorCandidates_sound _ _ _ _ _ Hcandidates)
      as (Hsolved & Ht & Hpt & Hgrace).
    exists (Z.to_nat pos), bPoints, (cv_t first).
    split; [exact HbPoints |]. split; [exact Hsolved |]. split; [exact Ht |].
    split; [exact Hpt | exact Hgrace].
Qed.

Lemma placeCrossingPoint_sound (anchor : Anchors) (canvasCRF : Canvas)
      (crossing : Crossing) (a : nat) (cross cross' : CrossingPoint) :
  placeCrossingPoint anchor canvasCRF crossing a cross = Some cross' ->
  cross' = cross \/ anchoredOnCurve anchor canvasCRF crossing cross cross'.
Proof.
  unfold placeCrossingPoint. intros H.
  apply bind_Some in H. destruct H as (size & Hsize & H).
  apply bind_Some in H. destruct H as ([direction end_] & Hde & H).
  apply bind_Some in H. destruct H as (found & Hfound & H).
  injection H as <-. destruct found as [p |]; [right | now left].
  destruct (searchAnchor_found _ _ _ _ _ _ _ _ Hfound)
    as (pos & bPoints & t & HbPoints & Hsolved & Ht & Hpt & Hgrace).
  exists size, pos, bPoints, t. split; [exact Hsize |].
  cbn [CrossingPoint.with_placement CrossingPoint.proxyPoint CrossingPoint.anchor].
  split; [exact HbPoints |]. split; [exact Hsolved |]. split; [exact Ht |].
  split; [exact Hpt |]. split; [exact Hgrace | reflexivity].
Qed.

(** X18.  [updateProxyPlacementPoints] leaves a crossing point as it is or
    moves its placement point onto the curve of the same edge: to the point
    of an entry of what [getValueAt] answers, on one of the segments, for
    the line of the side of the crossing point of the viewport shrunk by
    the marker size.  That point is the point of the segment at a parameter
    in [[0, 1]] and no more than the grace offset outside the shrunk
    rectangle; a moved point is anchored towards the middle. *)
Theorem updateProxyPlacementPoints_on_curve (crossings crossings' : list Crossing)
        (canvasCRF : Canvas) :
  updateProxyPlacementPoints crossings canvasCRF = Some crossings' ->
  Forall2
    (fun crossing crossing' =>
       Crossing.bezierPoints crossing' = Crossing.bezierPoints crossing /\
       forall a cross cross',
         nth_error (Crossing.crossingPoints crossing) a = Some cross ->
         nth_error (Crossing.crossingPoints crossing') a = Some cross' ->
         cross' = cross \/
         anchoredOnCurve Anchors.towardsMiddle canvasCRF crossing cross cross')
    crossings crossings'.
Proof.
  unfold updateProxyPlacementPoints, updateProxyPlacementPoints_with. intros H.
  apply mapM_Forall2 in H. eapply Forall2_impl; [| exact H].
  intros crossing crossing' Hc. cbv beta in Hc.
  apply bind_Some in Hc. destruct Hc as (cps & Hcps & [= <-]).
  cbn [Crossing.with_crossingPoints Crossing.bezierPoints Crossing.crossingPoints].
  split; [reflexivity |].
  destruct (placeCrossingPoints_frame _ _ _ _ _ _ Hcps) as [_ Hnth].
  intros a cross cross' Ha Ha'.
  specialize (Hnth a cross cross' Ha Ha'). cbn [Nat.add] in Hnth.
  exact (placeCrossingPoint_sound _ _ _ _ _ _ Hnth).
Qed.

(** ** Further properties of the overlap filter *)

Lemma filterCrossingPoints_subsequence (nodes : list (list SKNode)) (root : SKNode)
      (canvasCRF : Canvas) (cps : list CrossingPoint) :
  forall (depth : option nat) (filtered : list CrossingPoint),
    filterCrossingPoints nodes root canvasCRF depth cps = Some filtered ->
    Subsequence filtered cps.
Proof.
  induction cps as [| cp rest IH]; intros depth filtered H.
  - injection H as <-. constructor.
  - cbn [filterCrossingPoints] in H.
    apply bind_Some in H. destruct H as (foundOverlap & _ & H).
    apply bind_Some in H. destruct H as (filtered' & Hrest & H).
    injection H as <-. apply IH in Hrest.
    destruct foundOverlap; cbn [negb]; now constructor.
Qed.

Lemma filterCrossings_subsequence (nodes : list (list SKNode)) (root : SKNode)
      (canvasCRF : Canvas) (crossings : list Crossing) :
  forall result,
    filterCrossings nodes root canvasCRF crossings = Some result ->
    exists kept,
      Subsequence kept crossings /\
      Forall2 (fun crossing crossing' =>
                 Crossing.edge crossing' = Crossing.edge crossing /\
                 Crossing.pointBounds crossing' = Crossing.pointBounds crossing /\
                 Crossing.bezierPoints crossing' = Crossing.bezierPoints crossing /\
                 Subsequence (Crossing.crossingPoints crossing')
                             (Crossing.crossingPoints crossing) /\
                 Crossing.crossingPoints crossing' <> [])
              kept result.
Proof.
  induction crossings as [| crossing rest IH]; intros result H.
  - injection H as <-. exists []. split; constructor.
  - cbn [filterCrossings] in H.
    apply bind_Some in H. destruct H as (filtered & Hfiltered & H).
    apply bind_Some in H. destruct H as (result' & Hrest & H).
    injection H as <-. destruct (IH _ Hrest) as (kept & Hkept & Hall).
    apply filterCrossingPoints_subsequence in Hfiltered.
    destruct (0 <? length filtered)%nat eqn:Hlen.
    + exists (crossing :: kept). split; [now constructor |].
      constructor; [| exact Hall].
      cbn [Crossing.with_crossingPoints Crossing.edge Crossing.pointBounds
           Crossing.bezierPoints Crossing.crossingPoints].
      repeat split; try assumption.
      intros ->. discriminate Hlen.
    + exists kept. split; [now constructor | exact Hall].
Qed.

(** X19.  [filterOverlappingWithNodes] only leaves out: the crossings it
    returns are crossings it was given, in the same order and with the
    same edge and segments, each with some of its crossing points in their
    order, and none of them without a crossing point. *)
Theorem filterOverlappingWithNodes_subsequence (crossings result : list Crossing)
        (root : SKNode) (canvasCRF : Canvas) :
  filterOverlappingWithNodes crossings root canvasCRF = Some result ->
  exists kept,
    Subsequence kept crossings /\
    Forall2 (fun crossing crossing' =>
               Crossing.edge crossing' = Crossing.edge crossing /\
               Crossing.pointBounds crossing' = Crossing.pointBounds crossing /\
               Crossing.bezierPoints crossing' = Crossing.bezierPoints crossing /\
               Subsequence (Crossing.crossingPoints crossing')
                           (Crossing.crossingPoints crossing) /\
               Crossing.crossingPoints crossing' <> [])
            kept result.
Proof.
  unfold filterOverlappingWithNodes. apply filterCrossings_subsequence.
Qed.

(** *** Depths and rows *)

Lemma getDepth_Model (e root : Element) :
  getDepth (Model e) root = getDepth_element e root.
Proof.
  destruct e as [isNode id bounds [p |]]; unfold getDepth; cbn;
    destruct (Nat.eqb id (Element.id root)); cbn; reflexivity.
Qed.

Lemma getDepth_element_row (root : SKNode) :
  parentLinked root ->
  forall k n, In n (rowAtDepth k [root]) ->
              getDepth_element (SKNode.self n) (SKNode.self root) = k.
Proof.
  intros Hlinked. induction k as [| k IH]; intros n Hn.
  - destruct Hn as [<- | []].
    destruct (SKNode.self root) as [isNode id bounds parent]. cbn.
    now rewrite Nat.eqb_refl.
  - rewrite rowAtDepth_next in Hn. unfold nextRow in Hn.
    apply in_flat_map in Hn. destruct Hn as (m & Hm & Hn).
    destruct (Hlinked k m n Hm Hn) as (Hparent & Hnode & Hid).
    specialize (IH m Hm).
    destruct (SKNode.self n) as [isNode id bounds parent]. cbn in Hparent, Hid |- *.
    apply Nat.eqb_neq in Hid. rewrite Hid, Hparent, Hnode. cbn. now rewrite IH.
Qed.

(** X20.  In a tree whose nodes have their parents where the tree has them,
    [getDepth] of a node is the index of its row in [getTreeDepths], and so
    is [getDepth] of a snapshot of the node unless the node is the root. *)
Theorem getDepth_row (root : SKNode) (k : nat) (row : list SKNode) (n : SKNode) :
  parentLinked root ->
  nth_error (getTreeDepths root) k = Some row -> In n row ->
  getDepth (Model (SKNode.self n)) (SKNode.self root) = k /\
  ((0 < k)%nat -> getDepth (Created (SKNode.self n)) (SKNode.self root) = k).
Proof.
  intros Hlinked Hrow Hn. unfold getTreeDepths in Hrow.
  apply getTreeDepths_rows_nth in Hrow. destruct Hrow as (-> & _).
  split.
  - rewrite getDepth_Model. now apply getDepth_element_row.
  - intros Hk. destruct k as [| k]; [lia |].
    pose proof Hn as Hn'. rewrite rowAtDepth_next in Hn'. unfold nextRow in Hn'.
    apply in_flat_map in Hn'. destruct Hn' as (m & Hm & Hchild).
    destruct (Hlinked k m n Hm Hchild) as (Hparent & Hnode & _).
    unfold getDepth. cbn [differs fieldsOf andb]. rewrite Hparent.
    cbn [instanceofSKNode]. rewrite Hnode.
    now rewrite (getDepth_element_row root Hlinked k m Hm).
Qed.

(** ** The stages of [createAllProxies] together *)

Lemma Forall2_Forall {A B : Type} (R : A -> B -> Prop) (P : A -> Prop)
      (Q : B -> Prop) (l : list A) (l' : list B) :
  (forall x y, R x y -> P x -> Q y) ->
  Forall2 R l l' -> Forall P l -> Forall Q l'.
Proof.
  intros HRPQ HR. induction HR as [| x y l l' Hxy _ IH]; intros HP; [constructor |].
  inversion HP as [| ? ? Hx Hl]; subst.
  constructor; [exact (HRPQ x y Hxy Hx) | exact (IH Hl)].
Qed.

Lemma nth_error_Forall {A B : Type} (R : A -> B -> Prop) (P : A -> Prop)
      (Q : B -> Prop) (l : list A) (l' : list B) :
  (forall x y, R x y -> P x -> Q y) ->
  length l' = length l ->
  (forall a x y, nth_error l a = Some x -> nth_error l' a = Some y -> R x y) ->
  Forall P l -> Forall Q l'.
Proof.
  intros HRPQ Hlen Hnth HP. apply Forall_forall. intros y Hy.
  apply In_nth_error in Hy. destruct Hy as (a & Ha).
  assert (Hlt : (a < length l)%nat).
  { rewrite <- Hlen. apply nth_error_Some. congruence. }
  destruct (nth_error l a) as [x |] eqn:Hx;
    [| apply nth_error_Some in Hlt; contradiction].
  apply (HRPQ x y (Hnth a x y Hx Ha)).
  rewrite Forall_forall in HP. apply HP. eapply nth_error_In, Hx.
Qed.

Lemma Subsequence_Forall {A : Type} (P : A -> Prop) (l l' : list A) :
  Subsequence l l' -> Forall P l' -> Forall P l.
Proof.
  intros Hsub. induction Hsub as [| a l l' _ IH | a l l' _ IH]; intros HP.
  - constructor.
  - inversion HP; subst. constructor; [assumption | now apply IH].
  - inversion HP; subst. now apply IH.
Qed.

Lemma crossesSegment_same (edge : SKEdge) (canvasCRF : Canvas) (bPoints : list Point)
      (cp cp' : CrossingPoint) :
  sameButPlacement cp cp' ->
  crossesSegment edge canvasCRF bPoints cp -> crossesSegment edge canvasCRF bPoints cp'.
Proof.
  intros (Hside & Hpoint & Ht & Hincoming & _ & Hnode & HnodeBounds).
  unfold crossesSegment.
  now rewrite Hside, Hpoint, Ht, Hincoming, Hnode, HnodeBounds.
Qed.

Lemma foundOnSegment_same (canvasCRF : Canvas) (crossing crossing' : Crossing)
      (cp cp' : CrossingPoint) :
  Crossing.edge crossing' = Crossing.edge crossing ->
  Crossing.bezierPoints crossing' = Crossing.bezierPoints crossing ->
  sameButPlacement cp cp' ->
  foundOnSegment canvasCRF crossing cp -> foundOnSegment canvasCRF crossing' cp'.
Proof.
  intros Hedge Hsegments Hsame (bPoints & Hnth & Hcross).
  exists bPoints. rewrite Hedge, Hsegments.
  split; [| exact (crossesSegment_same _ _ _ _ _ Hsame Hcross)].
  destruct Hsame as (_ & _ & _ & _ & -> & _). exact Hnth.
Qed.

Lemma applyAnchors_frame (crossings crossings' : list Crossing) (canvas : Canvas) :
  applyAnchors crossings canvas = Some crossings' ->
  Forall2
    (fun crossing crossing' =>
       Crossing.edge crossing' = Crossing.edge crossing /\
       Crossing.bezierPoints crossing' = Crossing.bezierPoints crossing /\
       Forall2 (fun cp cp' =>
                  sameButPlacement cp cp' /\
                  CrossingPoint.anchor cp' = Anchors.topLeft)
               (Crossing.crossingPoints crossing) (Crossing.crossingPoints crossing'))
    crossings crossings'.
Proof.
  unfold applyAnchors. intros H. apply mapM_Forall2 in H.
  eapply Forall2_impl; [| exact H].
  intros crossing crossing' Hc. cbv beta in Hc.
  apply bind_Some in Hc. destruct Hc as (cps & Hcps & [= <-]).
  cbn [Crossing.with_crossingPoints Crossing.edge Crossing.bezierPoints
       Crossing.crossingPoints].
  split; [reflexivity |]. split; [reflexivity |].
  apply mapM_Forall2 in Hcps. eapply Forall2_impl; [| exact Hcps].
  intros cp cp' Hcp. apply applyAnchor_anchored in Hcp.
  destruct Hcp as (size & _ & ->). unfold sameButPlacement. repeat split.
Qed.

Lemma In_map_filter {A B : Type} (g : A -> B) (f : B -> bool) (l : list A)
      (l' : list B) (a : A) :
  map g l = filter f l' -> In a l -> In (g a) l' /\ f (g a) = true.
Proof.
  intros Hmap Hin. apply filter_In. rewrite <- Hmap. now apply in_map.
Qed.

(** X26.  The crossings that [createAllProxies] draws markers for: each is
    the crossing of an edge of the tree whose bounds cross the viewport and
    whose route has [3n + 1] points, [n > 0]; it has a crossing point at
    least; and each of its crossing points is anchored at its top left
    corner and is still the crossing point found on its segment: the
    entry of the solver's answer for the line of its side of the viewport,
    with the side, direction and node found there. *)
Theorem placedCrossings_markers (root : SKNode) (canvasCRF : Canvas)
        (result : list Crossing) (console : list string) :
  placedCrossings root canvasCRF = (Some result, console) ->
  Forall (fun crossing =>
            In (Crossing.edge crossing) (allEdges root) /\
            crossesCanvas canvasCRF (Crossing.edge crossing) = true /\
            validRoute (SKEdge.routingPoints (Crossing.edge crossing)) = true /\
            Crossing.crossingPoints crossing <> [] /\
            Forall (fun cp =>
                      CrossingPoint.anchor cp = Anchors.topLeft /\
                      foundOnSegment canvasCRF crossing cp)
                   (Crossing.crossingPoints crossing))
         result.
Proof.
  unfold placedCrossings.
  rewrite (getPossibleEdges_filter_size canvasCRF (node_size root) root (le_n _)).
  destruct (getCrossings (filter (crossesCanvas canvasCRF) (allEdges root)) canvasCRF)
    as [found console'] eqn:Hfound.
  intros H. injection H as H _.
  apply bind_Some in H. destruct H as (crossings & -> & H).
  apply bind_Some in H. destruct H as (placed & Hplaced & H).
  apply bind_Some in H. destruct H as (anchored & Hanchored & Hfiltered).
  set (fromTree := fun edge : SKEdge =>
                     In edge (allEdges root) /\
                     crossesCanvas canvasCRF edge = true /\
                     validRoute (SKEdge.routingPoints edge) = true).
  assert (H0 : Forall (fun crossing =>
                         fromTree (Crossing.edge crossing) /\
                         Forall (foundOnSegment canvasCRF crossing)
                                (Crossing.crossingPoints crossing)) crossings).
  { pose proof Hfound as Hedges. unfold getCrossings in Hedges.
    apply getCrossings_from_edges in Hedges. destruct Hedges as (Hedges & _).
    cbn [map app] in Hedges.
    assert (Hsound : Forall (fun crossing =>
                               Forall (foundOnSegment canvasCRF crossing)
                                      (Crossing.crossingPoints crossing)) crossings).
    { unfold getCrossings in Hfound.
      eapply getCrossings_from_shape; [| | exact Hfound]; [| constructor].
      intros edge crossing Hedge.
      exact (edgeCrossings_sound edge canvasCRF crossing Hedge). }
    apply Forall_forall. intros crossing Hin. split.
    - destruct (In_map_filter _ _ _ _ crossing Hedges Hin) as (Hfrom & Hvalid).
      apply filter_In in Hfrom. destruct Hfrom as (Htree & Hcrosses).
      repeat split; assumption.
    - rewrite Forall_forall in Hsound. now apply Hsound. }
  assert (H1 : Forall (fun crossing =>
                         fromTree (Crossing.edge crossing) /\
                         Forall (foundOnSegment canvasCRF crossing)
                                (Crossing.crossingPoints crossing)) placed).
  { apply updateProxyPlacementPoints_with_frame in Hplaced.
    eapply Forall2_Forall; [| exact Hplaced | exact H0].
    intros crossing crossing' (Hedge & _ & Hsegments & Hlen & Hnth) (Hfrom & Hcps).
    split; [now rewrite Hedge |].
    apply (nth_error_Forall sameButPlacement
                            (foundOnSegment canvasCRF crossing)
                            (foundOnSegment canvasCRF crossing')
                            (Crossing.crossingPoints crossing)
                            (Crossing.crossingPoints crossing')).
    - intros cp cp' Hsame Hcp.
      exact (foundOnSegment_same _ _ _ _ _ Hedge Hsegments Hsame Hcp).
    - exact Hlen.
    - intros a cp cp' Ha Ha'. apply (Hnth a cp cp' Ha Ha').
    - exact Hcps. }
  assert (H2 : Forall (fun crossing =>
                         fromTree (Crossing.edge crossing) /\
                         Forall (fun cp =>
                                   CrossingPoint.anchor cp = Anchors.topLeft /\
                                   foundOnSegment canvasCRF crossing cp)
                                (Crossing.crossingPoints crossing)) anchored).
  { apply applyAnchors_frame in Hanchored.
    eapply Forall2_Forall; [| exact Hanchored | exact H1].
    intros crossing crossing' (Hedge & Hsegments & Hall) (Hfrom & Hcps).
    split; [now rewrite Hedge |].
    eapply Forall2_Forall; [| exact Hall | exact Hcps].
    intros cp cp' (Hsame & Hanchor) Hcp. split; [exact Hanchor |].
    exact (foundOnSegment_same _ _ _ _ _ Hedge Hsegments Hsame Hcp). }
  unfold filterOverlappingWithNodes in Hfiltered.
  apply filterCrossings_subsequence in Hfiltered.
  destruct Hfiltered as (kept & Hkept & Hall).
  apply (Subsequence_Forall _ _ _ Hkept) in H2.
  eapply Forall2_Forall; [| exact Hall | exact H2].
  intros crossing crossing' (Hedge & _ & Hsegments & Hsub & Hnonempty) (Hfrom & Hcps).
  destruct Hfrom as (Htree & Hcrosses & Hvalid). rewrite Hedge.
  split; [exact Htree |]. split; [exact Hcrosses |]. split; [exact Hvalid |].
  split; [exact Hnonempty |].
  apply (Subsequence_Forall _ _ _ Hsub) in Hcps.
  eapply Forall_impl; [| exact Hcps].
  intros cp (Hanchor & bPoints & Hnth & Hcross). split; [exact Hanchor |].
  exists bPoints. rewrite Hedge, Hsegments. split; assumption.
Qed.

(** ** When the stages return *)

Lemma boundaryPoints_returns (b1 b2 : Bounds) (bPoints : list Point) :
  (4 <= length bPoints)%nat ->
  exists cPoints, boundaryPoints b1 b2 bPoints = Some cPoints.
Proof.
  intros Hlen. unfold boundaryPoints. cbv beta zeta.
  destruct (getValueAt_returns (Bounds.x b2) bPoints 0 Hlen) as (a1 & ->).
  destruct (getValueAt_returns (Bounds.x b2 + Bounds.width b2) bPoints 0 Hlen)
    as (a2 & ->).
  destruct (getValueAt_returns (Bounds.y b2) bPoints 1 Hlen) as (a3 & ->).
  destruct (getValueAt_returns (Bounds.y b2 + Bounds.height b2) bPoints 1 Hlen)
    as (a4 & ->).
  cbn [bind].
  destruct ((Bounds.x b1 <=? Bounds.x b2)
            && (Bounds.x b1 + Bounds.width b1 >=? Bounds.x b2));
    destruct ((Bounds.x b1 <=? Bounds.x b2 + Bounds.width b2)
              && (Bounds.x b1 + Bounds.width b1 >=? Bounds.x b2 + Bounds.width b2));
    destruct ((Bounds.y b1 <=? Bounds.y b2)
              && (Bounds.y b1 + Bounds.height b1 >=? Bounds.y b2));
    destruct ((Bounds.y b1 <=? Bounds.y b2 + Bounds.height b2)
              && (Bounds.y b1 + Bounds.height b1 >=? Bounds.y b2 + Bounds.height b2));
    cbn [bind]; eexists; reflexivity.
Qed.

Lemma classify_returns (edge : SKEdge) (canvasCRF : Canvas) (bPoints : list Point)
      (i : nat) (cp : SidedPoint) :
  (4 <= length bPoints)%nat ->
  SKEdge.source edge <> None -> SKEdge.target edge <> None ->
  exists cross, classify edge canvasCRF bPoints i cp = Some cross.
Proof.
  intros Hlen Hsource Htarget. unfold classify, isIncoming.
  destruct bPoints as [| p0 [| p1 [| p2 [| p3 more]]]]; simpl in Hlen; try lia.
  cbn [computeCubic bind].
  destruct (SKEdge.source edge) as [source |]; [| contradiction].
  destruct (SKEdge.target edge) as [target |]; [| contradiction].
  match goal with
  | |- context [if ?incoming then Object_create _ else Object_create _] =>
      destruct incoming
  end; cbn [Object_create bind];
    match goal with
    | |- context [getSynthesisProxyRenderingSingle ?node] =>
        destruct (getSynthesisProxyRenderingSingle node)
    end; eexists; reflexivity.
Qed.

Lemma segmentCrossings_returns (edge : SKEdge) (canvasCRF : Canvas)
      (pointBounds : list Bounds) :
  SKEdge.source edge <> None -> SKEdge.target edge <> None ->
  forall (i : nat) (bezierPoints : list (list Point)),
    Forall (fun bPoints => (4 <= length bPoints)%nat) bezierPoints ->
    exists cps, segmentCrossings edge canvasCRF i pointBounds bezierPoints = Some cps.
Proof.
  intros Hsource Htarget.
  induction pointBounds as [| pointBound rest IH]; intros i bezierPoints Hall.
  - exists []. reflexivity.
  - destruct bezierPoints as [| bPoints bezierPoints']; [exists []; reflexivity |].
    inversion Hall as [| ? ? Hlen Hall']; subst. cbn [segmentCrossings].
    destruct (IH (Datatypes.S i) bezierPoints' Hall') as (later & ->).
    destruct (isCrossingBounds pointBound (Canvas.bounds canvasCRF)).
    + destruct (boundaryPoints_returns pointBound (Canvas.bounds canvasCRF) bPoints Hlen)
        as (cPoints & ->). cbn [bind].
      destruct (mapM_total (classify edge canvasCRF bPoints i) cPoints) as (here & ->).
      * intros cp _. now apply classify_returns.
      * cbn [bind]. eexists. reflexivity.
    + cbn [bind]. eexists. reflexivity.
Qed.

Lemma edgeCrossings_returns (edge : SKEdge) (canvasCRF : Canvas) :
  SKEdge.source edge <> None -> SKEdge.target edge <> None ->
  exists result, edgeCrossings edge canvasCRF = Some result.
Proof.
  intros Hsource Htarget. rewrite edgeCrossings_unfold.
  destruct (validRoute (SKEdge.routingPoints edge)) eqn:Hvalid;
    [| eexists; reflexivity].
  apply route_test_true in Hvalid. destruct Hvalid as (n & Hn & Hlen).
  assert (Hdiv : (length (SKEdge.routingPoints edge) / 3 = n)%nat).
  { rewrite Hlen. replace (3 * n + 1)%nat with (1 + n * 3)%nat by lia.
    rewrite Nat.div_add by lia. reflexivity. }
  rewrite Hdiv.
  assert (Hsegments :
            Forall (fun bPoints => length bPoints = 4%nat)
                   (map (fun i => slice (i * 3) (i * 3 + 4) (routePoints edge))
                        (seq 0 n))).
  { apply Forall_forall. intros bPoints HbPoints. apply in_map_iff in HbPoints.
    destruct HbPoints as (i & <- & Hi). apply in_seq in Hi.
    apply slice_length. rewrite routePoints_length. lia. }
  destruct (mapM_total getBoundsFromPoints
              (map (fun i => slice (i * 3) (i * 3 + 4) (routePoints edge)) (seq 0 n)))
    as (pointBounds & ->).
  { intros bPoints HbPoints. rewrite Forall_forall in Hsegments.
    apply Hsegments in HbPoints. destruct bPoints; [discriminate HbPoints |].
    eexists. reflexivity. }
  cbn [bind].
  destruct (segmentCrossings_returns edge canvasCRF pointBounds Hsource Htarget 0
              (map (fun i => slice (i * 3) (i * 3 + 4) (routePoints edge)) (seq 0 n)))
    as (cps & ->).
  { eapply Forall_impl; [| exact Hsegments]. intros bPoints ->. lia. }
  cbn [bind]. eexists. reflexivity.
Qed.

Lemma getCrossings_from_returns (proxyEdges : list SKEdge) (canvasCRF : Canvas) :
  (forall edge, In edge proxyEdges ->
                SKEdge.source edge <> None /\ SKEdge.target edge <> None) ->
  forall (crossings : list Crossing) (console : list string),
  exists result console',
    getCrossings_from proxyEdges canvasCRF crossings console = (Some result, console').
Proof.
  induction proxyEdges as [| edge rest IH]; intros Hends crossings console.
  - exists crossings, console. reflexivity.
  - cbn [getCrossings_from].
    destruct (Hends edge (or_introl eq_refl)) as (Hsource & Htarget).
    destruct (edgeCrossings_returns edge canvasCRF Hsource Htarget)
      as ([crossing | message] & ->);
      apply IH; intros e He; apply Hends; now right.
Qed.

(** X27.  [getCrossings] returns when the source and the target of every
    given edge are defined: it solves the cubic of every segment that it
    accepts without throwing, whatever the route and the canvas. *)
Theorem getCrossings_returns (proxyEdges : list SKEdge) (canvasCRF : Canvas) :
  (forall edge, In edge proxyEdges ->
                SKEdge.source edge <> None /\ SKEdge.target edge <> None) ->
  exists crossings console,
    getCrossings proxyEdges canvasCRF = (Some crossings, console).
Proof.
  intros Hends. unfold getCrossings.
  exact (getCrossings_from_returns proxyEdges canvasCRF Hends [] []).
Qed.

Lemma transformWidthHeight_original (proxyBounds : Bounds) (canvas : Canvas) :
  originalNodeScale this = true ->
  exists size, transformWidthHeight proxyBounds canvas = Some size.
Proof.
  intros Horiginal. unfold transformWidthHeight. rewrite Horiginal.
  cbn [bind]. eexists. reflexivity.
Qed.

Lemma applyAnchors_returns (crossings : list Crossing) (canvas : Canvas) :
  (forall bounds, exists size, transformWidthHeight bounds canvas = Some size) ->
  exists crossings', applyAnchors crossings canvas = Some crossings'.
Proof.
  intros Hsize. unfold applyAnchors. apply mapM_total. intros crossing _.
  destruct (mapM_total (applyAnchor canvas) (Crossing.crossingPoints crossing))
    as (cps & ->).
  - intros cp _. unfold applyAnchor.
    destruct (Hsize (CrossingPoint.nodeBounds cp)) as (size & ->). cbn [bind].
    destruct (getAnchorOffsets _ (CrossingPoint.side cp) (CrossingPoint.anchor cp)).
    eexists. reflexivity.
  - cbn [bind]. eexists. reflexivity.
Qed.

(** X28.  With the node's own scale for the markers, the stages of
    [createAllProxies] up to the overlap filter return on every tree whose
    edges have a source and a target, whatever the routes, the bounds and
    the canvas: none of them throws. *)
Theorem placedCrossings_returns (root : SKNode) (canvasCRF : Canvas) :
  originalNodeScale this = true ->
  (forall edge, In edge (allEdges root) ->
                SKEdge.source edge <> None /\ SKEdge.target edge <> None) ->
  exists result console, placedCrossings root canvasCRF = (Some result, console).
Proof.
  intros Horiginal Hends. unfold placedCrossings.
  rewrite (getPossibleEdges_filter_size canvasCRF (node_size root) root (le_n _)).
  destruct (getCrossings_from_returns
              (filter (crossesCanvas canvasCRF) (allEdges root)) canvasCRF)
    with (crossings := @nil Crossing) (console := @nil string)
    as (crossings & console & Hfound).
  { intros edge Hedge. apply filter_In in Hedge. apply Hends, Hedge. }
  fold (getCrossings (filter (crossesCanvas canvasCRF) (allEdges root)) canvasCRF)
    in Hfound.
  rewrite Hfound. cbn [bind].
  assert (Hsize : forall bounds canvas,
             exists size, transformWidthHeight bounds canvas = Some size).
  { intros bounds canvas. now apply transformWidthHeight_original. }
  destruct (updateProxyPlacementPoints_returns crossings canvasCRF)
    as (placed & ->).
  { apply getCrossings_shape in Hfound. eapply Forall_impl; [| exact Hfound].
    intros crossing Hshape. apply Hshape. }
  { intros crossing cross _ _. apply Hsize. }
  cbn [bind].
  destruct (applyAnchors_returns placed canvasCRF (fun bounds => Hsize bounds canvasCRF))
    as (anchored & ->).
  cbn [bind].
  destruct (filterOverlappingWithNodes_returns anchored root canvasCRF)
    as (result & ->).
  { intros crossing cp _ _. apply Hsize. }
  exists result, console. reflexivity.
Qed.

(** ** The crossing detection of [proxy-view.tsx] *)

Lemma mapM_app {A B : Type} (f : A -> option B) (l1 l2 : list A) :
  mapM f (l1 ++ l2) = r1 <- mapM f l1 ;; r2 <- mapM f l2 ;; Some (r1 ++ r2).
Proof.
  induction l1 as [| a l1 IH]; cbn [app mapM bind].
  - now destruct (mapM f l2).
  - destruct (f a); cbn [bind]; [| reflexivity]. rewrite IH.
    destruct (mapM f l1); cbn [bind]; [| reflexivity].
    now destruct (mapM f l2).
Qed.

Lemma mapM_map {A B C : Type} (g : A -> B) (f : B -> option C) (l : list A) :
  mapM f (map g l) = mapM (fun a => f (g a)) l.
Proof.
  induction l as [| a l IH]; [reflexivity |]. cbn [map mapM]. now rewrite IH.
Qed.

Lemma Legacy_markersOf_app (r1 r2 : list Legacy.Crossing) :
  Legacy_markersOf (r1 ++ r2) = Legacy_markersOf r1 ++ Legacy_markersOf r2.
Proof. unfold Legacy_markersOf. apply flat_map_app. Qed.

Lemma Legacy_nodes_app (r1 r2 : list Legacy.Crossing) :
  Legacy_nodes (r1 ++ r2)
  = a <- Legacy_nodes r1 ;; b <- Legacy_nodes r2 ;; Some (a ++ b).
Proof.
  unfold Legacy_nodes, getCorrespondingCrossingNodes. rewrite mapM_app.
  match goal with
  | |- context [mapM ?f r1] => destruct (mapM f r1) as [n1 |]
  end; cbn [bind]; [| reflexivity].
  match goal with
  | |- context [mapM ?f r2] => destruct (mapM f r2) as [n2 |]
  end; cbn [bind].
  - unfold getCorrespondingSynthesis. rewrite mapM_app. reflexivity.
  - now destruct (getCorrespondingSynthesis n1).
Qed.

Lemma agrees_app (n1 n2 : option (list Marker)) (o1 o2 : option (list Legacy.Crossing)) :
  agrees n1 o1 -> agrees n2 o2 ->
  agrees (a <- n1 ;; b <- n2 ;; Some (a ++ b)) (a <- o1 ;; b <- o2 ;; Some (a ++ b)).
Proof.
  unfold agrees. destruct o1 as [r1 |]; intros H1 H2; cbn [bind].
  - destruct o2 as [r2 |]; cbn [bind].
    + rewrite Legacy_nodes_app, <- H1, <- H2.
      destruct (Legacy_nodes r1); cbn [bind option_map]; [| reflexivity].
      destruct (Legacy_nodes r2); cbn [bind option_map]; [| reflexivity].
      now rewrite Legacy_markersOf_app.
    + subst n2. now destruct n1.
  - now subst n1.
Qed.

Lemma option_map_app {A B : Type} (f : A -> B) (H L : option (list A)) :
  option_map (map f) (h <- H ;; l <- L ;; Some (h ++ l))
  = a <- option_map (map f) H ;; b <- option_map (map f) L ;; Some (a ++ b).
Proof.
  destruct H as [h |]; cbn [bind option_map]; [| reflexivity].
  destruct L as [l |]; cbn [bind option_map]; [| reflexivity].
  now rewrite map_app.
Qed.

Lemma Legacy_boundaryPoints_forget (b1 b2 : Bounds) (bPoints : list Point) :
  Legacy_boundaryPoints b1 b2 bPoints
  = option_map (map (fun sp => mkCurvePoint (sp_point sp) (sp_t sp)))
               (boundaryPoints b1 b2 bPoints).
Proof.
  assert (Hforget : forall (side : Sides) (a : list CurvePoint),
             map (fun sp => mkCurvePoint (sp_point sp) (sp_t sp))
                 (map (fun p => mkSidedPoint (cv_point p) (cv_t p) side) a) = a).
  { intros side a. rewrite map_map. cbn [sp_point sp_t].
    induction a as [| [point t] a IH]; [reflexivity |]. cbn [map cv_point cv_t].
    now rewrite IH. }
  assert (Hfinal : forall cPoints : list SidedPoint,
             (if (0 <? length (map (fun sp => mkCurvePoint (sp_point sp) (sp_t sp))
                                   cPoints))%nat
              then filter (fun p => inGrace b2 (cv_point p))
                          (map (fun sp => mkCurvePoint (sp_point sp) (sp_t sp)) cPoints)
              else map (fun sp => mkCurvePoint (sp_point sp) (sp_t sp)) cPoints)
             = map (fun sp => mkCurvePoint (sp_point sp) (sp_t sp))
                   (if (0 <? length cPoints)%nat
                    then filter (fun p => inGrace b2 (sp_point p)) cPoints
                    else cPoints)).
  { intros cPoints. rewrite length_map. destruct (0 <? length cPoints)%nat;
      [| reflexivity].
    induction cPoints as [| sp cPoints IH]; [reflexivity |].
    cbn [map filter cv_point]. destruct (inGrace b2 (sp_point sp)); cbn [map];
      now rewrite IH. }
  unfold Legacy_boundaryPoints, boundaryPoints. cbv beta zeta.
  rewrite !Rplus_0_r, !Rminus_0_r.
  destruct ((Bounds.x b1 <=? Bounds.x b2)
            && (Bounds.x b1 + Bounds.width b1 >=? Bounds.x b2));
    [destruct (getValueAt (Bounds.x b2) bPoints 0) as [a1 |]; [| reflexivity] |];
    (destruct ((Bounds.x b1 <=? Bounds.x b2 + Bounds.width b2)
               && (Bounds.x b1 + Bounds.width b1 >=? Bounds.x b2 + Bounds.width b2));
     [destruct (getValueAt (Bounds.x b2 + Bounds.width b2) bPoints 0) as [a2 |];
      [| reflexivity] |]);
    (destruct ((Bounds.y b1 <=? Bounds.y b2)
               && (Bounds.y b1 + Bounds.height b1 >=? Bounds.y b2));
     [destruct (getValueAt (Bounds.y b2) bPoints 1) as [a3 |]; [| reflexivity] |]);
    (destruct ((Bounds.y b1 <=? Bounds.y b2 + Bounds.height b2)
               && (Bounds.y b1 + Bounds.height b1 >=? Bounds.y b2 + Bounds.height b2));
     [destruct (getValueAt (Bounds.y b2 + Bounds.height b2) bPoints 1) as [a4 |];
      [| reflexivity] |]);
    cbn [bind option_map]; f_equal; rewrite <- Hfinal;
    rewrite ?map_app, ?Hforget; reflexivity.
Qed.

Lemma mapM_compose {A B C : Type} (f : A -> option B) (g : B -> option C)
      (l : list A) :
  mapM (fun a => b <- f a ;; g b) l = bs <- mapM f l ;; mapM g bs.
Proof.
  induction l as [| a l IH]; [reflexivity |]. cbn [mapM].
  destruct (f a) as [b |]; cbn [bind]; [| reflexivity]. rewrite IH.
  destruct (mapM f l) as [bs |]; cbn [bind mapM]; now destruct (g b).
Qed.

Lemma mapM_pointwise {A B B' C : Type} (f : A -> option B) (f' : A -> option B')
      (g : B -> C) (g' : B' -> C) (l : list A) :
  (forall a, option_map g (f a) = option_map g' (f' a)) ->
  option_map (map g) (mapM f l) = option_map (map g') (mapM f' l).
Proof.
  intros Hpoint. induction l as [| a l IH]; [reflexivity |]. cbn [mapM].
  specialize (Hpoint a).
  destruct (f a) as [b |], (f' a) as [b' |]; try discriminate Hpoint;
    cbn [bind]; [| reflexivity].
  injection Hpoint as Hpoint.
  destruct (mapM f l) as [bs |], (mapM f' l) as [bs' |]; try discriminate IH;
    cbn [bind option_map map]; [| reflexivity].
  injection IH as IH. now rewrite Hpoint, IH.
Qed.

Lemma Legacy_nodes_single (edge : SKEdge) (cross : list Legacy.CrossingPoint) :
  Legacy_nodes [Legacy.mk edge cross]
  = option_map (fun cps => [Legacy.mk edge cps])
               (cps <- mapM (correspondingNode edge) cross ;;
                mapM correspondingSynthesis cps).
Proof.
  unfold Legacy_nodes, getCorrespondingCrossingNodes, getCorrespondingSynthesis.
  cbn [mapM Legacy.edge Legacy.crossingPoints bind].
  destruct (mapM (correspondingNode edge) cross) as [cps |];
    cbn [bind mapM Legacy.edge Legacy.crossingPoints option_map]; [| reflexivity].
  now destruct (mapM correspondingSynthesis cps).
Qed.

Lemma classify_agrees (edge : SKEdge) (canvasCRF : Canvas) (bPoints : list Point)
      (i : nat) (sps : list SidedPoint) :
  option_map (map (markerOf edge)) (mapM (classify edge canvasCRF bPoints i) sps)
  = option_map
      (map (fun cp => (edge, Legacy.point cp, Legacy.incoming cp,
                       Legacy.node cp, Legacy.nodeBounds cp)))
      (cross <- mapM (Legacy_classify canvasCRF bPoints)
                     (map (fun sp => mkCurvePoint (sp_point sp) (sp_t sp)) sps) ;;
       cps <- mapM (correspondingNode edge) cross ;;
       mapM correspondingSynthesis cps).
Proof.
  transitivity
    (option_map
       (map (fun cp => (edge, Legacy.point cp, Legacy.incoming cp,
                        Legacy.node cp, Legacy.nodeBounds cp)))
       (mapM (fun sp =>
                lp <- Legacy_classify canvasCRF bPoints
                                      (mkCurvePoint (sp_point sp) (sp_t sp)) ;;
                (fun lp => lp1 <- correspondingNode edge lp ;;
                           correspondingSynthesis lp1) lp) sps)).
  - apply mapM_pointwise. intros sp.
    unfold classify, Legacy_classify, correspondingNode, correspondingSynthesis,
      markerOf.
    cbn [cv_t cv_point].
    destruct (isIncoming (sp_t sp) (Canvas.bounds canvasCRF) bPoints) as [incoming |];
      cbn [bind Legacy.incoming Legacy.point Legacy.nodeBounds]; [| reflexivity].
    destruct incoming;
      [destruct (SKEdge.source edge) as [e |] | destruct (SKEdge.target edge) as [e |]];
      cbn [Object_create bind Legacy.node]; try reflexivity;
      destruct (getSynthesisProxyRenderingSingle (Created e)); reflexivity.
  - f_equal.
    rewrite (mapM_compose
               (fun sp => Legacy_classify canvasCRF bPoints
                                          (mkCurvePoint (sp_point sp) (sp_t sp)))
               (fun lp => lp1 <- correspondingNode edge lp ;;
                          correspondingSynthesis lp1) sps).
    rewrite mapM_map.
    destruct (mapM (fun sp => Legacy_classify canvasCRF bPoints
                                {| cv_point := sp_point sp; cv_t := sp_t sp |}) sps)
      as [cross |]; cbn [bind]; [| reflexivity].
    apply mapM_compose.
Qed.

Lemma here_agrees (edge : SKEdge) (canvasCRF : Canvas) (i : nat)
      (pointBound : Bounds) (bPoints : list Point) :
  agrees
    (option_map (map (markerOf edge))
       (if isCrossingBounds pointBound (Canvas.bounds canvasCRF) then
          cPoints <- boundaryPoints pointBound (Canvas.bounds canvasCRF) bPoints ;;
          mapM (classify edge canvasCRF bPoints i) cPoints
        else Some []))
    (if isCrossingBounds pointBound (Canvas.bounds canvasCRF) then
       cPoints <- Legacy_boundaryPoints pointBound (Canvas.bounds canvasCRF) bPoints ;;
       if (0 <? length cPoints)%nat then
         cross <- mapM (Legacy_classify canvasCRF bPoints) cPoints ;;
         Some [Legacy.mk edge cross]
       else Some []
     else Some []).
Proof.
  destruct (isCrossingBounds pointBound (Canvas.bounds canvasCRF)); [| reflexivity].
  rewrite Legacy_boundaryPoints_forget.
  destruct (boundaryPoints pointBound (Canvas.bounds canvasCRF) bPoints) as [sps |];
    cbn [bind option_map]; [| reflexivity].
  rewrite length_map. destruct (0 <? length sps)%nat eqn:Hlen.
  - unfold agrees. rewrite classify_agrees.
    destruct (mapM (Legacy_classify canvasCRF bPoints)
                   (map (fun sp => mkCurvePoint (sp_point sp) (sp_t sp)) sps))
      as [cross |]; cbn [bind]; [| reflexivity].
    rewrite Legacy_nodes_single.
    destruct (cps <- mapM (correspondingNode edge) cross ;;
              mapM correspondingSynthesis cps) as [cps |]; cbn [option_map];
      [| reflexivity].
    unfold Legacy_markersOf. cbn [flat_map Legacy.edge Legacy.crossingPoints].
    now rewrite app_nil_r.
  - apply Nat.ltb_ge in Hlen. destruct sps; [reflexivity | simpl in Hlen; lia].
Qed.

Lemma segmentCrossings_agrees (edge : SKEdge) (canvasCRF : Canvas)
      (pointBounds : list Bounds) :
  forall (i : nat) (bezierPoints : list (list Point)),
    agrees (option_map (map (markerOf edge))
                       (segmentCrossings edge canvasCRF i pointBounds bezierPoints))
           (Legacy_segmentCrossings edge canvasCRF pointBounds bezierPoints).
Proof.
  induction pointBounds as [| pointBound rest IH]; intros i bezierPoints;
    [reflexivity |].
  destruct bezierPoints as [| bPoints bezierPoints']; [reflexivity |].
  cbn [segmentCrossings Legacy_segmentCrossings]. rewrite option_map_app.
  apply agrees_app; [apply here_agrees | apply IH].
Qed.

Lemma Legacy_edgeCrossings_unfold (edge : SKEdge) (canvasCRF : Canvas) :
  Legacy_edgeCrossings edge canvasCRF =
  if validRoute (SKEdge.routingPoints edge) then
    pointBounds <-
      mapM getBoundsFromPoints
           (map (fun i => slice (i * 3) (i * 3 + 4) (routePoints edge))
                (seq 0 (length (SKEdge.routingPoints edge) / 3))) ;;
    crossings <-
      Legacy_segmentCrossings edge canvasCRF pointBounds
        (map (fun i => slice (i * 3) (i * 3 + 4) (routePoints edge))
             (seq 0 (length (SKEdge.routingPoints edge) / 3))) ;;
    Some (Legacy.Pushed crossings)
  else Some (Legacy.Logged diagnostic).
Proof.
  unfold Legacy_edgeCrossings, validRoute, routePoints. cbv zeta.
  rewrite length_map. reflexivity.
Qed.

Lemma Legacy_getCrossings_from_prefix (proxyEdges : list SKEdge) (canvasCRF : Canvas) :
  forall (crossings final : list Legacy.Crossing) (console console' : list string),
    Legacy_getCrossings_from proxyEdges canvasCRF crossings console
    = (Some final, console') ->
    (exists later, final = crossings ++ later) /\
    console'
    = console
      ++ map (fun _ => diagnostic)
             (filter (fun edge => negb (validRoute (SKEdge.routingPoints edge)))
                     proxyEdges).
Proof.
  induction proxyEdges as [| edge rest IH]; intros crossings final console console' H.
  - injection H as <- <-. split; [exists []; now rewrite app_nil_r |].
    cbn. now rewrite app_nil_r.
  - cbn [Legacy_getCrossings_from] in H. rewrite Legacy_edgeCrossings_unfold in H.
    cbn [filter]. destruct (validRoute (SKEdge.routingPoints edge)); cbn [negb].
    + match type of H with
      | context [bind ?m ?k] => destruct (bind m k) as [[pushed | message] |] eqn:Hedge
      end; [| | discriminate H].
      * apply IH in H. destruct H as ((later & ->) & Hconsole).
        split; [| exact Hconsole]. exists (pushed ++ later). now rewrite app_assoc.
      * apply bind_Some in Hedge. destruct Hedge as (pointBounds & _ & Hedge).
        apply bind_Some in Hedge. destruct Hedge as (found & _ & Hedge).
        discriminate Hedge.
    + apply IH in H. destruct H as (Hlater & Hconsole). split; [exact Hlater |].
      rewrite Hconsole, <- app_assoc. reflexivity.
Qed.

Lemma getCrossings_from_agrees (proxyEdges : list SKEdge) (canvasCRF : Canvas) :
  forall (crossings : list Crossing) (found : list Legacy.Crossing)
         (console console' : list string),
    agrees (Some (markersOf crossings)) (Some found) ->
    agrees (option_map markersOf
                       (fst (getCrossings_from proxyEdges canvasCRF crossings console)))
           (fst (Legacy_getCrossings_from proxyEdges canvasCRF found console')).
Proof.
  induction proxyEdges as [| edge rest IH]; intros crossings found console console' Hacc.
  - exact Hacc.
  - cbn [getCrossings_from Legacy_getCrossings_from].
    rewrite edgeCrossings_unfold, Legacy_edgeCrossings_unfold.
    destruct (validRoute (SKEdge.routingPoints edge)); [| now apply IH].
    destruct (mapM getBoundsFromPoints
                (map (fun i => slice (i * 3) (i * 3 + 4) (routePoints edge))
                     (seq 0 (length (SKEdge.routingPoints edge) / 3))))
      as [pointBounds |]; cbn [bind]; [| reflexivity].
    pose proof (segmentCrossings_agrees edge canvasCRF pointBounds 0
                  (map (fun i => slice (i * 3) (i * 3 + 4) (routePoints edge))
                       (seq 0 (length (SKEdge.routingPoints edge) / 3)))) as Hseg.
    destruct (Legacy_segmentCrossings edge canvasCRF pointBounds _) as [pushed |];
      cbn [bind].
    + cbn [agrees] in Hseg.
      destruct (segmentCrossings edge canvasCRF 0 pointBounds _) as [cps |];
        cbn [bind option_map fst] in Hseg |- *.
      * apply IH. cbn [agrees] in Hacc |- *.
        rewrite Legacy_nodes_app.
        destruct (Legacy_nodes found) as [found' |]; [| discriminate Hacc].
        destruct (Legacy_nodes pushed) as [pushed' |]; [| discriminate Hseg].
        cbn [bind option_map] in Hacc, Hseg |- *.
        injection Hacc as Hacc. injection Hseg as Hseg.
        rewrite Legacy_markersOf_app, Hacc, Hseg. unfold markersOf.
        rewrite flat_map_app. cbn [flat_map Crossing.edge Crossing.crossingPoints].
        now rewrite app_nil_r.
      * destruct (Legacy_getCrossings_from rest canvasCRF (found ++ pushed) console')
          as [[final |] console''] eqn:Hrest; [| reflexivity].
        apply Legacy_getCrossings_from_prefix in Hrest.
        destruct Hrest as ((later & ->) & _). cbn [fst agrees].
        rewrite !Legacy_nodes_app.
        destruct (Legacy_nodes pushed); [discriminate Hseg |].
        now destruct (Legacy_nodes found).
    + cbn [agrees] in Hseg.
      destruct (segmentCrossings edge canvasCRF 0 pointBounds _); [discriminate Hseg |].
      reflexivity.
Qed.

(** X30.  The crossing detection of [proxy-view.tsx] ([getCrossings],
    [getCorrespondingCrossingNodes] and [getCorrespondingSynthesis] one
    after the other) and [getCrossings] of [proxy-view-bezier.ts] agree:
    either both throw, or both return and their crossing points are the
    same in the same order, each with the same edge, point, direction,
    node and node bounds, although the first has a crossing for each
    segment with a crossing point and the second a crossing for each
    edge; the console is then the same as well. *)
Theorem Legacy_detect_same_markers (proxyEdges : list SKEdge) (canvasCRF : Canvas) :
  option_map Legacy_markersOf (fst (Legacy_detect proxyEdges canvasCRF))
  = option_map markersOf (fst (getCrossings proxyEdges canvasCRF)) /\
  (fst (getCrossings proxyEdges canvasCRF) <> None ->
   snd (Legacy_detect proxyEdges canvasCRF) = snd (getCrossings proxyEdges canvasCRF)).
Proof.
  pose proof (getCrossings_from_agrees proxyEdges canvasCRF [] [] [] []
                (eq_refl : agrees (Some (markersOf [])) (Some []))) as Hagrees.
  fold (getCrossings proxyEdges canvasCRF) in Hagrees.
  fold (Legacy_getCrossings proxyEdges canvasCRF) in Hagrees.
  unfold Legacy_detect.
  destruct (Legacy_getCrossings proxyEdges canvasCRF) as [found console] eqn:Hfound.
  cbn [fst snd] in Hagrees |- *. split.
  - destruct found as [found |]; cbn [agrees bind] in Hagrees |- *;
      [exact Hagrees | now rewrite Hagrees].
  - intros Hreturns.
    destruct (getCrossings proxyEdges canvasCRF) as [[crossings |] console'] eqn:Hnew;
      [| now contradiction Hreturns].
    cbn [fst snd] in Hagrees |- *.
    destruct found as [found |]; [| discriminate Hagrees].
    unfold Legacy_getCrossings in Hfound.
    apply Legacy_getCrossings_from_prefix in Hfound. destruct Hfound as (_ & ->).
    unfold getCrossings in Hnew. apply getCrossings_from_edges in Hnew.
    destruct Hnew as (_ & ->). reflexivity.
Qed.

End ProxyView.

(** ** Instances *)

(** *** The root solver *)


(** *** A proxy view with the original node scale *)

Lemma AABB_overlap_true (a b : Bounds) : AABB_overlap a b = true <-> overlaps a b.
Proof.
  unfold AABB_overlap, overlaps. rewrite !andb_true_iff, !leb_num_true. tauto.
Qed.

Lemma exampleOptions_size (proxyBounds : Bounds) (canvas : Canvas) :
  transformWidthHeight exampleOptions proxyBounds canvas =
  Some (mkProxySize (Bounds.width proxyBounds * Canvas.zoom canvas)
                    (Bounds.height proxyBounds * Canvas.zoom canvas)
                    (Canvas.zoom canvas)).
Proof. reflexivity. Qed.

(** *** The crossing predicate *)

Lemma isCrossingBounds_symmetric_witness :
  isCrossingBounds AABB_overlap (Bounds.mk 0 0 100 100) (Bounds.mk 50 50 100 100)
  = isCrossingBounds AABB_overlap (Bounds.mk 50 50 100 100) (Bounds.mk 0 0 100 100).
Proof.
  exact (proj1 (isCrossingBounds_symmetric AABB_overlap AABB_overlap_true
                  (Bounds.mk 0 0 100 100) (Bounds.mk 50 50 100 100))).
Defined.

(** *** The end-to-end scenario *)

Lemma scenario_no_crossing_point_witness :
  exists crossings,
    detectCrossings SKEdge.bounds AABB_overlap point_asBounds noCalculatedBounds
                    exampleOptions scenarioRoot (scenarioCanvas 1)
    = (Some crossings, []) /\
    flat_map Crossing.crossingPoints crossings = [].
Proof.
  exact (proj2 (scenario_no_crossing_point
                  SKEdge.bounds AABB_overlap point_asBounds noCalculatedBounds
                  exampleOptions scenarioEdge 1
                  (Element.mk true 0 (Bounds.mk 0 0 200 200) None) 0 0
                  eq_refl eq_refl eq_refl)).
Defined.

(** C2 as stated fails: the edge is not selected, and [getCrossings] on it
    finds no crossing point either; there is not exactly one. *)
Lemma scenario_yields_no_crossing_point :
  detectCrossings SKEdge.bounds AABB_overlap point_asBounds noCalculatedBounds
                  exampleOptions scenarioRoot (scenarioCanvas 1)
  = (Some [], []) /\
  (exists crossing,
      getCrossings SKEdge.bounds AABB_overlap point_asBounds noCalculatedBounds
                   exampleOptions [scenarioEdge] (scenarioCanvas 1)
      = (Some [crossing], []) /\
      Crossing.crossingPoints crossing = []) /\
  length (flat_map Crossing.crossingPoints (@nil Crossing)) <> 1%nat.
Proof.
  split; [| split].
  - unfold detectCrossings, scenarioRoot. cbn [getPossibleEdges].
    replace (isCrossingBounds AABB_overlap (SKEdge.bounds scenarioEdge)
                              (Canvas.bounds (scenarioCanvas 1))) with false.
    + reflexivity.
    + symmetry. apply isCrossingBounds_contains.
      unfold contains, scenarioEdge, scenarioCanvas, Canvas.bounds.
      cbn [SKEdge.bounds Bounds.x Bounds.y Bounds.width Bounds.height
           Canvas.x Canvas.y Canvas.width Canvas.height]. lra.
  - eexists. split.
    + apply (scenario_getCrossings
               SKEdge.bounds AABB_overlap point_asBounds noCalculatedBounds
               exampleOptions scenarioEdge 1); reflexivity.
    + reflexivity.
  - simpl. lia.
Qed.

(** *** A route of five points *)

Lemma getCrossings_malformed_route_witness :
  getCrossings SKEdge.bounds AABB_overlap point_asBounds noCalculatedBounds
               exampleOptions [fivePointEdge] (scenarioCanvas 1)
  = (Some [], [diagnostic]) /\
  fst (getCrossings SKEdge.bounds AABB_overlap point_asBounds noCalculatedBounds
                    exampleOptions ([scenarioEdge] ++ fivePointEdge :: [])
                    (scenarioCanvas 1))
  = fst (getCrossings SKEdge.bounds AABB_overlap point_asBounds noCalculatedBounds
                      exampleOptions ([scenarioEdge] ++ []) (scenarioCanvas 1)).
Proof.
  assert (Hbad : ~ (exists n, (1 <= n /\
                    length (SKEdge.routingPoints fivePointEdge) = 3 * n + 1)%nat)).
  { intros (n & Hn & Hlen). simpl in Hlen. lia. }
  destruct (getCrossings_malformed_route
              SKEdge.bounds AABB_overlap point_asBounds noCalculatedBounds
              exampleOptions fivePointEdge (scenarioCanvas 1) [scenarioEdge] [] Hbad)
    as (Halone & Hothers & _).
  split; [exact Halone | exact Hothers].
Defined.

(** *** Marker placement *)

Lemma searchBound_inset_witness :
  Bounds.y (searchBound Sides.N (10 * 1 * 1) (10 * 1 * 1) exampleCanvas)
  = Canvas.y exampleCanvas + 1 * (10 * 1).
Proof.
  destruct (searchBound_inset AABB_overlap exampleOptions Anchors.towardsMiddle
              exampleCanvas northCrossing 0 northCrossingPoint
              (mkProxySize (10 * 1) (10 * 1) 1)
              (or_introl eq_refl) eq_refl) as (_ & _ & _ & _ & _ & Hy & _).
  exact Hy.
Defined.

(** C5 as stated fails: for a crossing on the north side the south side of
    the search rectangle is not that of the viewport. *)
Lemma searchBound_north_moves_south :
  transformWidthHeight exampleOptions (CrossingPoint.nodeBounds northCrossingPoint)
                       exampleCanvas
  = Some (mkProxySize (10 * 1) (10 * 1) 1) /\
  let bound :=
    searchBound (CrossingPoint.side northCrossingPoint)
                (10 * 1 * offsetMultiplierOf Anchors.towardsMiddle)
                (10 * 1 * offsetMultiplierOf Anchors.towardsMiddle) exampleCanvas in
  Bounds.y bound + Bounds.height bound = 90 /\
  Canvas.y exampleCanvas + Canvas.height exampleCanvas = 100 /\
  Bounds.y bound + Bounds.height bound
  <> Canvas.y exampleCanvas + Canvas.height exampleCanvas.
Proof.
  split; [reflexivity |].
  cbn [searchBound northCrossingPoint CrossingPoint.side Sides.eqb orb
       offsetMultiplierOf Anchors.eqb exampleCanvas
       Canvas.x Canvas.y Canvas.width Canvas.height
       Bounds.x Bounds.y Bounds.width Bounds.height].
  repeat split; lra.
Qed.

Lemma applyAnchors_offsets_witness :
  exists crossings',
    applyAnchors exampleOptions [northCrossing] exampleCanvas = Some crossings'.
Proof.
  destruct (applyAnchors_offsets exampleOptions [northCrossing] exampleCanvas)
    as ((crossings' & Happly & _) & _).
  - intros crossing cp _ _. eexists. apply exampleOptions_size.
  - exists crossings'. exact Happly.
Defined.

Ltac evaluate :=
  cbn -[IZR Rdiv Rminus Rmin Rmax leb_num ltb_num eqb_num
        AABB_overlap isCrossingBounds getValueAt].

(** Replaces a crossing test between given rectangles of which the first
    contains the second by its value. *)
Ltac reject_containing :=
  match goal with
  | |- context [isCrossingBounds ?f ?a ?b] =>
      replace (isCrossingBounds f a b) with false
        by (symmetry; apply isCrossingBounds_contains; unfold contains;
            cbn [Bounds.x Bounds.y Bounds.width Bounds.height]; lra)
  end.

Lemma northCrossing_placement :
  updateProxyPlacementPoints AABB_overlap exampleOptions [northCrossing] exampleCanvas
  = Some [northCrossing].
Proof.
  unfold updateProxyPlacementPoints, updateProxyPlacementPoints_with.
  evaluate. reject_containing. reflexivity.
Qed.

Lemma updateProxyPlacementPoints_frame_witness :
  Forall2
    (fun crossing crossing' =>
       forall a cross cross',
         nth_error (Crossing.crossingPoints crossing) a = Some cross ->
         nth_error (Crossing.crossingPoints crossing') a = Some cross' ->
         CrossingPoint.side cross' = CrossingPoint.side cross)
    [northCrossing] [northCrossing].
Proof.
  eapply Forall2_impl;
    [| exact (updateProxyPlacementPoints_frame AABB_overlap exampleOptions
                [northCrossing] [northCrossing] exampleCanvas
                northCrossing_placement)].
  intros crossing crossing' (_ & _ & _ & _ & H) a cross cross' Ha Ha'.
  exact (proj1 (H a cross cross' Ha Ha')).
Defined.

(** *** The overlap filter *)

Lemma treeRoot_rows : getTreeDepths treeRoot = [[treeRoot]; [innerNode]].
Proof.
  unfold getTreeDepths. rewrite getTreeDepths_rows_equation_2.
  change (nextRow [treeRoot]) with [innerNode].
  rewrite getTreeDepths_rows_equation_2.
  change (nextRow [innerNode]) with (@nil SKNode).
  rewrite getTreeDepths_rows_equation_1. reflexivity.
Qed.

Lemma portCrossing_filtered :
  filterOverlappingWithNodes AABB_overlap exampleOptions [portCrossing] treeRoot
                             exampleCanvas
  = Some [portCrossing].
Proof.
  unfold filterOverlappingWithNodes. rewrite treeRoot_rows. reflexivity.
Qed.

Lemma filterOverlappingWithNodes_survivors_witness :
  exists filtereds, [portCrossing] = keptCrossings [portCrossing] filtereds.
Proof.
  destruct (filterOverlappingWithNodes_survivors AABB_overlap exampleOptions
              [portCrossing] [portCrossing] treeRoot exampleCanvas
              portCrossing_filtered) as ((filtereds & _ & Hkept) & _).
  exists filtereds. exact Hkept.
Defined.

(** C4 as stated fails: the edge joins two ports, the second crossing point
    stands for a node of depth 1 and its marker overlaps a node of the row
    of depth 1, and yet it survives, because the rows are tested from the
    depth of the node of the first crossing point. *)
Lemma nearPoint_survives_overlap :
  filterOverlappingWithNodes AABB_overlap exampleOptions [portCrossing] treeRoot
                             exampleCanvas
  = Some [portCrossing] /\
  In nearPoint (Crossing.crossingPoints portCrossing) /\
  instanceofSKNode (SKEdge.target portEdge) = false /\
  getDepth (CrossingPoint.node nearPoint) (SKNode.self treeRoot) = 1%nat /\
  getDepth (CrossingPoint.node farPoint) (SKNode.self treeRoot) = 2%nat /\
  overlapsNodeFrom AABB_overlap exampleOptions (getTreeDepths treeRoot) 1
                   exampleCanvas nearPoint.
Proof.
  split; [exact portCrossing_filtered |].
  split; [right; left; reflexivity |].
  split; [reflexivity |]. split; [reflexivity |]. split; [reflexivity |].
  unfold overlapsNodeFrom. rewrite treeRoot_rows.
  exists (mkProxySize (10 * 1) (10 * 1) 1), 1%nat, [innerNode], innerNode.
  split; [reflexivity |]. split; [lia |]. split; [reflexivity |].
  split; [now left |].
  apply AABB_overlap_true. unfold overlaps, filterBounds.
  cbn [nearPoint innerNode innerElement CrossingPoint.proxyPoint Point.x Point.y
       SKNode.absoluteX SKNode.absoluteY SKNode.self Element.bounds
       Bounds.x Bounds.y Bounds.width Bounds.height proxyWidth proxyHeight].
  lra.
Qed.

(** ** The registry of filters *)

Section Registry.

Context {F : Type}.

Lemma Map_has_keys (m : StringMap F) (id : string) :
  Map_has m id = true <-> In id (map fst m).
Proof.
  unfold Map_has. rewrite existsb_exists, in_map_iff. split.
  - intros (entry & Hin & Heq). apply String.eqb_eq in Heq. now exists entry.
  - intros (entry & Heq & Hin). exists entry. split; [exact Hin |].
    now apply String.eqb_eq.
Qed.

Lemma Map_set_fresh (m : StringMap F) (id : string) (filter : F) :
  ~ In id (map fst m) -> Map_set m id filter = m ++ [(id, filter)].
Proof.
  induction m as [| [key value] rest IH]; intros Hfresh; [reflexivity |].
  cbn [Map_set]. destruct (String.eqb_spec key id) as [-> | Hne].
  - contradiction Hfresh. now left.
  - cbn [app]. f_equal. apply IH. intros Hin. apply Hfresh. now right.
Qed.

Lemma Map_set_keys (m : StringMap F) (id : string) (filter : F) :
  map fst (Map_set m id filter)
  = if Map_has m id then map fst m else map fst m ++ [id].
Proof.
  induction m as [| [key value] rest IH]; [reflexivity |].
  cbn [Map_set Map_has existsb fst]. destruct (String.eqb key id); cbn [orb map fst].
  - reflexivity.
  - rewrite IH. fold (Map_has rest id). now destruct (Map_has rest id).
Qed.

Lemma Map_set_get (m : StringMap F) (id id' : string) (filter : F) :
  Map_get (Map_set m id filter) id'
  = if String.eqb id id' then Some filter else Map_get m id'.
Proof.
  unfold Map_get. induction m as [| [key value] rest IH].
  - cbn. now destruct (String.eqb id id').
  - cbn [Map_set]. destruct (String.eqb_spec key id) as [-> | Hne].
    + cbn [find fst]. now destruct (String.eqb id id').
    + cbn [find fst]. destruct (String.eqb_spec key id') as [-> | Hne'].
      * destruct (String.eqb_spec id id') as [-> | _]; [now contradiction Hne |].
        reflexivity.
      * exact IH.
Qed.

Lemma NoDup_snoc (l : list string) (a : string) :
  NoDup l -> ~ In a l -> NoDup (l ++ [a]).
Proof.
  induction l as [| b l IH]; intros Hl Ha.
  - constructor; [intros [] | constructor].
  - inversion Hl as [| ? ? Hb Hl']; subst. cbn [app]. constructor.
    + rewrite in_app_iff. intros [Hin | [-> | []]]; [now apply Hb |].
      apply Ha. now left.
    + apply IH; [exact Hl' |]. intros Hin. apply Ha. now right.
Qed.

Lemma registerFilters_snoc (m : StringMap F) (filters : list (string * F))
      (entry : string * F) :
  registerFilters m (filters ++ [entry])
  = Map_set (registerFilters m filters) (fst entry) (snd entry).
Proof. unfold registerFilters. now rewrite fold_left_app. Qed.

(** X21.  After [registerFilters] the map has no key twice, and the filter
    under an identifier is the one of the last given entry with that
    identifier, or the one it was when no entry has it. *)
Theorem registerFilters_lookup (this_filters : StringMap F)
        (filters : list (string * F)) :
  NoDup (map fst this_filters) ->
  NoDup (map fst (registerFilters this_filters filters)) /\
  forall id,
    Map_get (registerFilters this_filters filters) id
    = match find (fun entry => String.eqb (fst entry) id) (rev filters) with
      | Some entry => Some (snd entry)
      | None => Map_get this_filters id
      end.
Proof.
  intros Hkeys. induction filters as [| entry filters IH] using rev_ind.
  - split; [exact Hkeys | reflexivity].
  - destruct IH as (IHkeys & IHget). rewrite registerFilters_snoc. split.
    + rewrite Map_set_keys.
      destruct (Map_has (registerFilters this_filters filters) (fst entry)) eqn:Hhas;
        [exact IHkeys |].
      apply NoDup_snoc; [exact IHkeys |].
      intros Hin. apply Map_has_keys in Hin. congruence.
    + intros id. rewrite Map_set_get, rev_app_distr. cbn [rev app find].
      destruct (String.eqb (fst entry) id); [reflexivity | apply IHget].
Qed.

(** X22.  Filters with identifiers that differ from each other and from
    the registered ones are registered after the filters that were there,
    in the order they are given in. *)
Theorem registerFilters_order (this_filters : StringMap F)
        (filters : list (string * F)) :
  NoDup (map fst filters) ->
  (forall id, In id (map fst filters) -> ~ In id (map fst this_filters)) ->
  registerFilters this_filters filters = this_filters ++ filters.
Proof.
  intros Hids. revert this_filters.
  induction filters as [| [id value] rest IH]; intros m Hfresh.
  - unfold registerFilters. cbn. now rewrite app_nil_r.
  - inversion Hids as [| ? ? Hid Hrest]; subst.
    change (registerFilters m ((id, value) :: rest))
      with (registerFilters (Map_set m id value) rest).
    rewrite Map_set_fresh by (apply Hfresh; now left).
    rewrite IH; [now rewrite <- app_assoc | exact Hrest |].
    intros id' Hin'. rewrite map_app, in_app_iff. cbn [map fst In].
    intros [Hm | [<- | []]]; [| contradiction].
    apply (Hfresh id'); [now right | exact Hm].
Qed.

Lemma Map_delete_keys (m : StringMap F) (id id' : string) :
  In id' (map fst (filter (fun entry => negb (String.eqb (fst entry) id)) m)) <->
  In id' (map fst m) /\ id' <> id.
Proof.
  rewrite !in_map_iff. split.
  - intros (entry & <- & Hin). apply filter_In in Hin. destruct Hin as (Hin & Hne).
    apply negb_true_iff, String.eqb_neq in Hne. split; [now exists entry | exact Hne].
  - intros ((entry & <- & Hin) & Hne). exists entry. split; [reflexivity |].
    apply filter_In. split; [exact Hin |].
    now apply negb_true_iff, String.eqb_neq.
Qed.

Lemma filter_twice {A : Type} (f g : A -> bool) (l : list A) :
  filter f (filter g l) = filter (fun a => g a && f a) l.
Proof.
  induction l as [| a l IH]; [reflexivity |].
  cbn [filter]. destruct (g a); cbn [andb filter]; [destruct (f a) |]; now rewrite IH.
Qed.

(** X23.  [unregisterFilters] returns [true] exactly when the given
    identifiers differ from each other and are registered all; the map is
    then the one before without the given identifiers, the others in
    their order. *)
Theorem unregisterFilters_true (this_filters : StringMap F)
        (filters : list (string * F)) :
  (fst (unregisterFilters this_filters filters) = true <->
   NoDup (map fst filters) /\
   forall id, In id (map fst filters) -> In id (map fst this_filters)) /\
  (fst (unregisterFilters this_filters filters) = true ->
   snd (unregisterFilters this_filters filters)
   = filter (fun entry =>
               negb (existsb (fun given => String.eqb (fst given) (fst entry)) filters))
            this_filters).
Proof.
  revert this_filters. induction filters as [| [id value] rest IH]; intros m.
  - cbn. split; [split; [intros _; split; [constructor | intros id []] | reflexivity] |].
    intros _. induction m as [| entry m IHm]; [reflexivity |]. cbn. now f_equal.
  - cbn [unregisterFilters]. unfold Map_delete. cbn [fst].
    destruct (Map_has m id) eqn:Hhas.
    + destruct (IH (filter (fun entry => negb (String.eqb (fst entry) id)) m))
        as (IHok & IHmap).
      apply Map_has_keys in Hhas. split.
      * rewrite IHok. cbn [map fst]. rewrite NoDup_cons_iff. split.
        -- intros (Hrest & Hincl). split; [split; [| exact Hrest] |].
           ++ intros Hin. apply Hincl in Hin.
              apply (Map_delete_keys m id id) in Hin. now destruct Hin.
           ++ intros id' [<- | Hin]; [exact Hhas |].
              apply Hincl in Hin. apply (Map_delete_keys m id id') in Hin. apply Hin.
        -- intros ((Hid & Hrest) & Hincl). split; [exact Hrest |].
           intros id' Hin. apply (Map_delete_keys m id id'). split.
           ++ apply Hincl. now right.
           ++ intros ->. contradiction.
      * intros Hok. rewrite (IHmap Hok), filter_twice. apply filter_ext.
        intros entry. cbn [existsb fst]. rewrite negb_orb.
        now rewrite (String.eqb_sym id (fst entry)).
    + cbn [fst snd]. split; [| discriminate]. split; [discriminate |].
      intros (_ & Hincl). assert (Hin : In id (map fst m)) by (apply Hincl; now left).
      apply Map_has_keys in Hin. congruence.
Qed.

Lemma Map_delete_absent (m : StringMap F) (id : string) :
  ~ In id (map fst m) -> Map_delete m id = (false, m).
Proof.
  intros Habsent. unfold Map_delete. f_equal.
  - destruct (Map_has m id) eqn:Hhas; [| reflexivity].
    apply Map_has_keys in Hhas. contradiction.
  - induction m as [| entry m IH]; [reflexivity |].
    cbn [filter]. destruct (String.eqb_spec (fst entry) id) as [Heq | Hne]; cbn [negb].
    + contradiction Habsent. left. exact Heq.
    + f_equal. apply IH. intros Hin. apply Habsent. now right.
Qed.

(** X24.  [unregisterFilters] stops at the first identifier that is not
    registered when its turn comes: it returns [false], and the filters
    given after that one stay registered. *)
Theorem unregisterFilters_stops (before after : list (string * F))
        (entry : string * F) :
  forall this_filters : StringMap F,
    fst (unregisterFilters this_filters before) = true ->
    ~ In (fst entry) (map fst (snd (unregisterFilters this_filters before))) ->
    unregisterFilters this_filters (before ++ entry :: after)
    = (false, snd (unregisterFilters this_filters before)).
Proof.
  induction before as [| first before IH]; intros m Hok Habsent.
  - cbn [app unregisterFilters snd] in *. now rewrite Map_delete_absent.
  - cbn [app unregisterFilters] in *.
    destruct (Map_delete m (fst first)) as [deleted m'].
    destruct deleted; [| discriminate Hok].
    exact (IH m' Hok Habsent).
Qed.

End Registry.

(** ** The data of the renderings *)

Section NodeData.

Context {D : Type}.
Variable titleScalingEnabled : bool.
Variable scale : R.

Lemma getNodeData_entry_withoutProxyFields :
  forall d : KGraphData D,
    withoutProxyFields (getNodeData_entry titleScalingEnabled scale d) = d.
Proof.
  fix IH 1. intros [fields [data |]]; cbn; [| reflexivity].
  f_equal. f_equal. induction data as [| d data IHdata]; [reflexivity |].
  cbn [map]. now rewrite IH, IHdata.
Qed.

Lemma getNodeData_entry_annotated :
  forall (d : KGraphData D) (entry : ProxyKGraphData D),
    In entry (entriesOf (getNodeData_entry titleScalingEnabled scale d)) ->
    proxyScaleOf entry = scale /\ useTitleScalingOf entry = titleScalingEnabled.
Proof.
  fix IH 1. intros [fields [data |]] entry; cbn.
  - intros [<- | Hin]; [split; reflexivity |].
    induction data as [| d data IHdata]; [destruct Hin |].
    cbn [map flat_map] in Hin. apply in_app_iff in Hin.
    destruct Hin as [Hin | Hin]; [exact (IH d entry Hin) | exact (IHdata Hin)].
  - intros [<- | []]. split; reflexivity.
Qed.

(** X25.  [getNodeData] copies the data with their children at every depth
    and in their order: without the two added fields the result is the
    data given, and every entry of the result, at any depth, has the given
    scale as [proxyScale] and the title scaling option as
    [useTitleScaling]; undefined data stay undefined. *)
Theorem getNodeData_annotates (data : option (list (KGraphData D))) :
  option_map (map withoutProxyFields) (getNodeData titleScalingEnabled data scale)
  = data /\
  (data = None <-> getNodeData titleScalingEnabled data scale = None) /\
  forall result d entry,
    getNodeData titleScalingEnabled data scale = Some result ->
    In d result -> In entry (entriesOf d) ->
    proxyScaleOf entry = scale /\ useTitleScalingOf entry = titleScalingEnabled.
Proof.
  destruct data as [data |]; cbn [getNodeData option_map].
  - split; [| split; [split; discriminate |]].
    + f_equal. rewrite map_map. induction data as [| d data IH]; [reflexivity |].
      cbn [map]. now rewrite getNodeData_entry_withoutProxyFields, IH.
    + intros result d entry [= <-] Hd Hentry. apply in_map_iff in Hd.
      destruct Hd as (d0 & <- & _).
      exact (getNodeData_entry_annotated d0 entry Hentry).
  - split; [reflexivity |]. split; [split; reflexivity |]. discriminate.
Qed.

End NodeData.


(** ** The loop that draws the markers *)

Section Markers.

Context {V St : Type}.
Variable createProxy : St -> NodeObject -> Bounds -> nat -> option V * St.

Lemma drawCrossingPoints_app (cps cps' : list CrossingPoint)
      (state : MarkerState V St) :
  drawCrossingPoints createProxy (cps ++ cps') state
  = drawCrossingPoints createProxy cps' (drawCrossingPoints createProxy cps state).
Proof.
  revert state. induction cps as [| cp cps IH]; intros state; [reflexivity |].
  cbn [app drawCrossingPoints]. apply IH.
Qed.

Lemma drawCrossings_flat (filteredOverlaps : list Crossing) (state : MarkerState V St) :
  drawCrossings createProxy filteredOverlaps state
  = drawCrossingPoints createProxy
      (flat_map Crossing.crossingPoints filteredOverlaps) state.
Proof.
  revert state. induction filteredOverlaps as [| crossing rest IH]; intros state;
    [reflexivity |].
  cbn [drawCrossings flat_map]. now rewrite drawCrossingPoints_app, IH.
Qed.

Lemma drawMarker_counts (state : MarkerState V St) (cp : CrossingPoint) :
  let state' := drawMarker createProxy state cp in
  idNr state' = Datatypes.S (idNr state) /\
  (proxies state = map fst (currProxies state) ->
   proxies state' = map fst (currProxies state')) /\
  (length (proxies state) <= length (proxies state')
   <= Datatypes.S (length (proxies state)))%nat.
Proof.
  unfold drawMarker.
  destruct (createProxy (rendererState state) (CrossingPoint.node cp)
                        (CrossingPoint.nodeBounds cp) (idNr state))
    as [[proxy |] rendererState']; cbn [idNr proxies currProxies].
  - split; [reflexivity |]. split.
    + intros ->. now rewrite map_app.
    + rewrite length_app. cbn [length]. lia.
  - split; [reflexivity |]. split; [trivial | lia].
Qed.

Lemma drawCrossingPoints_counts (cps : list CrossingPoint) :
  forall state : MarkerState V St,
    let state' := drawCrossingPoints createProxy cps state in
    idNr state' = (idNr state + length cps)%nat /\
    (proxies state = map fst (currProxies state) ->
     proxies state' = map fst (currProxies state')) /\
    (length (proxies state) <= length (proxies state')
     <= length (proxies state) + length cps)%nat.
Proof.
  induction cps as [| cp cps IH]; intros state; cbn [drawCrossingPoints length].
  - split; [lia |]. split; [trivial | lia].
  - destruct (drawMarker_counts state cp) as (Hnr & Hfst & Hlen).
    destruct (IH (drawMarker createProxy state cp)) as (Hnr' & Hfst' & Hlen').
    cbv zeta in *. split; [lia |]. split; [tauto | lia].
Qed.

(** X29.  The loops of [createAllProxies] over the crossings and their
    crossing points call [createProxy] once for each crossing point, in
    the order of the crossings and of their points, with the numbers 1, 2,
    ... without a gap across the crossings: a crossing point for which
    [createProxy] returns nothing uses up its number.  [proxies] holds the
    markers of [currProxies] in the same order, no more of them than there
    are crossing points. *)
Theorem drawMarkers_numbers (filteredOverlaps : list Crossing) (rendererState : St) :
  let cps := flat_map Crossing.crossingPoints filteredOverlaps in
  let start := mkMarkerState [] [] 1 rendererState in
  let final := drawMarkers createProxy filteredOverlaps rendererState in
  final = drawCrossingPoints createProxy cps start /\
  idNr final = (1 + length cps)%nat /\
  proxies final = map fst (currProxies final) /\
  (length (proxies final) <= length cps)%nat /\
  forall k cp,
    nth_error cps k = Some cp ->
    let before := drawCrossingPoints createProxy (firstn k cps) start in
    idNr before = (1 + k)%nat /\
    drawCrossingPoints createProxy (firstn (Datatypes.S k) cps) start
    = drawMarker createProxy before cp.
Proof.
  cbv zeta. unfold drawMarkers. rewrite drawCrossings_flat.
  set (cps := flat_map Crossing.crossingPoints filteredOverlaps).
  set (start := mkMarkerState [] [] 1 rendererState).
  destruct (drawCrossingPoints_counts cps start) as (Hnr & Hfst & Hlen).
  cbv zeta in Hnr, Hfst, Hlen. cbn [idNr proxies currProxies start length] in *.
  split; [reflexivity |]. split; [exact Hnr |]. split; [now apply Hfst |].
  split; [lia |].
  intros k cp Hk. split.
  - destruct (drawCrossingPoints_counts (firstn k cps) start) as (Hnr' & _).
    cbv zeta in Hnr'. rewrite Hnr'. cbn [idNr start].
    rewrite length_firstn, Nat.min_l; [reflexivity |].
    apply Nat.lt_le_incl, nth_error_Some. congruence.
  - assert (Hsplit : firstn (Datatypes.S k) cps = firstn k cps ++ [cp]).
    { clear - Hk. revert k Hk. induction cps as [| c cps IH]; intros k Hk.
      - destruct k; discriminate Hk.
      - destruct k as [| k]; [injection Hk as <-; reflexivity |].
        cbn [firstn app]. f_equal. now apply IH. }
    rewrite Hsplit, drawCrossingPoints_app. reflexivity.
Qed.

End Markers.

(** ** Further instances *)

(** Replaces the comparisons of given numbers by their values. *)
Ltac compare_nums :=
  repeat match goal with
    | |- context [leb_num ?a ?b] =>
        first [ replace (leb_num a b) with true
                  by (symmetry; apply leb_num_true; lra)
              | replace (leb_num a b) with false
                  by (symmetry; apply leb_num_false; lra) ]
    | |- context [ltb_num ?a ?b] =>
        first [ replace (ltb_num a b) with true
                  by (symmetry; apply ltb_num_true; lra)
              | replace (ltb_num a b) with false
                  by (symmetry; apply ltb_num_false; lra) ]
    | |- context [eqb_num ?a ?b] =>
        first [ replace (eqb_num a b) with true
                  by (symmetry; apply eqb_num_true; lra)
              | replace (eqb_num a b) with false
                  by (symmetry; apply eqb_num_false; lra) ]
    | |- context [Rmin ?a ?b] =>
        first [ rewrite (Rmin_left a b) by lra | rewrite (Rmin_right a b) by lra ]
    | |- context [Rmax ?a ?b] =>
        first [ rewrite (Rmax_left a b) by lra | rewrite (Rmax_right a b) by lra ]
    end.

(** *** A straight edge into the viewport *)

Lemma straightRoute_bounds : getBoundsFromPoints straightRoute = Some straightBounds.
Proof.
  unfold getBoundsFromPoints, straightRoute, straightBounds, Math_min, Math_max.
  cbn [map fold_left Point.x Point.y]. compare_nums. reflexivity.
Qed.

Lemma straightRoute_at (value : R) :
  -30 <= value <= 30 ->
  getValueAt value straightRoute 0
  = Some [mkCurvePoint (Point.mk value 50) ((value + 30) / 60)].
Proof.
  intros Hvalue. unfold straightRoute. rewrite getValueAt_roots_of.
  cbn [Nat.eqb Point.x Point.y]. unfold roots_of.
  replace (- (-30 - value) + 3 * (-10 - value) - 3 * (10 - value) + (30 - value) =? 0)
    with true by (symmetry; apply eqb_num_true; lra).
  replace (3 * (-30 - value) - 6 * (-10 - value) + 3 * (10 - value) =? 0)
    with true by (symmetry; apply eqb_num_true; lra).
  replace (- 3 * (-30 - value) + 3 * (-10 - value) =? 0)
    with false by (symmetry; apply eqb_num_false; lra).
  replace (- (-30 - value) / (- 3 * (-30 - value) + 3 * (-10 - value)))
    with ((value + 30) / 60) by (field; lra).
  unfold reduce. cbn [filter].
  replace (0 <=? (value + 30) / 60) with true by (symmetry; apply leb_num_true; lra).
  replace ((value + 30) / 60 <=? 1) with true by (symmetry; apply leb_num_true; lra).
  cbn [andb evaluate_roots computeCubic Point.x Point.y].
  f_equal. f_equal. f_equal. apply f_equal2; field.
Qed.

Ltac read_fields :=
  cbn [Bounds.x Bounds.y Bounds.width Bounds.height Point.x Point.y
       Canvas.x Canvas.y Canvas.width Canvas.height Canvas.zoom Canvas.bounds
       sp_point sp_t sp_side cv_point cv_t].

Lemma straightBounds_crosses (inset : R) :
  0 <= inset <= 20 ->
  isCrossingBounds AABB_overlap straightBounds
                   (Bounds.mk (0 + inset) 0 (100 - 2 * inset) 100) = true.
Proof.
  intros Hinset. unfold isCrossingBounds, AABB_overlap, straightBounds.
  read_fields. compare_nums. reflexivity.
Qed.

Lemma straightRoute_boundaryPoints :
  boundaryPoints straightBounds (Canvas.bounds exampleCanvas) straightRoute
  = Some [mkSidedPoint (Point.mk 0 50) (1 / 2) Sides.W].
Proof.
  unfold boundaryPoints, straightBounds, exampleCanvas. read_fields.
  compare_nums. cbn [andb bind].
  rewrite straightRoute_at by lra. cbn [bind map app length Nat.ltb Nat.leb filter].
  read_fields. unfold inGrace. read_fields. compare_nums. cbn [andb].
  f_equal. f_equal. f_equal. lra.
Qed.

Lemma straightRoute_isIncoming :
  isIncoming AABB_overlap point_asBounds (1 / 2) (Canvas.bounds exampleCanvas)
             straightRoute = Some true.
Proof.
  unfold isIncoming, straightRoute, exampleCanvas. compare_nums.
  cbn [computeCubic bind]. unfold AABB_overlap, point_asBounds. read_fields.
  compare_nums. reflexivity.
Qed.

Lemma straightEdge_crossing :
  edgeCrossings SKEdge.bounds AABB_overlap point_asBounds noCalculatedBounds
                exampleOptions straightEdge exampleCanvas
  = Some (Pushed (straightCrossing straightCrossingPoint)).
Proof.
  unfold edgeCrossings. rewrite map_offset_zero by lra.
  change (SKEdge.routingPoints straightEdge) with straightRoute.
  change (length straightRoute) with 4%nat.
  cbn [Nat.modulo Nat.divmod Nat.eqb Nat.leb andb fst snd Nat.div seq map].
  change (slice (0 * 3) (0 * 3 + 4) straightRoute) with straightRoute.
  cbn [mapM]. rewrite straightRoute_bounds. cbn [bind segmentCrossings].
  replace (Canvas.bounds exampleCanvas) with (Bounds.mk (0 + 0) 0 (100 - 2 * 0) 100)
    by (unfold exampleCanvas, Canvas.bounds; read_fields; f_equal; lra).
  rewrite straightBounds_crosses by lra.
  replace (Bounds.mk (0 + 0) 0 (100 - 2 * 0) 100) with (Canvas.bounds exampleCanvas)
    by (unfold exampleCanvas, Canvas.bounds; read_fields; f_equal; lra).
  rewrite straightRoute_boundaryPoints. cbn [bind mapM]. unfold classify.
  cbn [sp_t sp_point sp_side]. rewrite straightRoute_isIncoming. reflexivity.
Qed.

Lemma straightEdge_getCrossings :
  getCrossings SKEdge.bounds AABB_overlap point_asBounds noCalculatedBounds
               exampleOptions [straightEdge] exampleCanvas
  = (Some [straightCrossing straightCrossingPoint], []).
Proof.
  unfold getCrossings. cbn [getCrossings_from]. rewrite straightEdge_crossing.
  reflexivity.
Qed.

Lemma straightCrossing_placement :
  updateProxyPlacementPoints AABB_overlap exampleOptions
                             [straightCrossing straightCrossingPoint] exampleCanvas
  = Some [straightCrossing straightMovedPoint].
Proof.
  unfold updateProxyPlacementPoints, updateProxyPlacementPoints_with, straightCrossing.
  evaluate.
  rewrite (straightBounds_crosses (10 * 1 * 1)) by lra.
  unfold anchorCandidates. read_fields.
  rewrite (straightRoute_at (0 + 10 * 1 * 1)) by lra.
  cbn [bind length Nat.ltb Nat.leb filter]. unfold inGrace. read_fields.
  compare_nums. cbn [andb bind]. read_fields.
  unfold straightMovedPoint, straightCrossingPoint.
  cbn [CrossingPoint.with_placement Crossing.with_crossingPoints
       CrossingPoint.point CrossingPoint.t_ CrossingPoint.incoming
       CrossingPoint.section CrossingPoint.side CrossingPoint.node
       CrossingPoint.nodeBounds Crossing.edge Crossing.pointBounds
       Crossing.bezierPoints].
  replace (0 + 10 * 1 * 1) with 10 by lra. reflexivity.
Qed.

Lemma straightCrossing_anchored :
  applyAnchors exampleOptions [straightCrossing straightMovedPoint] exampleCanvas
  = Some [straightCrossing straightAnchoredPoint].
Proof.
  unfold applyAnchors, straightCrossing, straightMovedPoint, straightAnchoredPoint.
  cbn [mapM Crossing.crossingPoints bind]. unfold applyAnchor.
  cbn [CrossingPoint.nodeBounds]. rewrite exampleOptions_size. evaluate.
  replace (10 - 10 * 1) with 0 by lra.
  replace (50 - 10 * 1 * (1 / 2)) with 45 by lra.
  reflexivity.
Qed.

Lemma straightRoot_rows : getTreeDepths straightRoot = [[straightRoot]; [westNode]].
Proof.
  unfold getTreeDepths. rewrite getTreeDepths_rows_equation_2.
  change (nextRow [straightRoot]) with [westNode].
  rewrite getTreeDepths_rows_equation_2.
  change (nextRow [westNode]) with (@nil SKNode).
  rewrite getTreeDepths_rows_equation_1. reflexivity.
Qed.

Lemma straightCrossing_filtered :
  filterOverlappingWithNodes AABB_overlap exampleOptions
                             [straightCrossing straightAnchoredPoint]
                             straightRoot exampleCanvas
  = Some [straightCrossing straightAnchoredPoint].
Proof.
  unfold filterOverlappingWithNodes. rewrite straightRoot_rows.
  unfold straightCrossing, straightAnchoredPoint.
  cbn [filterCrossings Crossing.edge Crossing.crossingPoints].
  change (edgeDepth straightEdge straightRoot) with (Some 1%nat).
  cbn [filterCrossingPoints skipn foundOverlapIn CrossingPoint.nodeBounds].
  rewrite exampleOptions_size.
  cbn [bind existsb CrossingPoint.proxyPoint proxyWidth proxyHeight].
  unfold AABB_overlap, filterBounds, westNode, westElement.
  cbn [SKNode.absoluteX SKNode.absoluteY SKNode.self Element.bounds]. read_fields.
  compare_nums. reflexivity.
Qed.

Lemma straightRoot_edges :
  getPossibleEdges SKEdge.bounds AABB_overlap straightRoot exampleCanvas
  = [straightEdge].
Proof.
  unfold straightRoot, westNode. cbn [getPossibleEdges SKNode.children length Nat.ltb
                                      Nat.leb app].
  replace (isCrossingBounds AABB_overlap (SKEdge.bounds straightEdge)
                            (Canvas.bounds exampleCanvas)) with true; [reflexivity |].
  unfold isCrossingBounds, AABB_overlap, straightEdge, exampleCanvas.
  cbn [SKEdge.bounds]. read_fields. compare_nums. reflexivity.
Qed.

Lemma straightRoot_placedCrossings :
  placedCrossings SKEdge.bounds AABB_overlap point_asBounds noCalculatedBounds
                  exampleOptions straightRoot exampleCanvas
  = (Some [straightCrossing straightAnchoredPoint], []).
Proof.
  unfold placedCrossings. rewrite straightRoot_edges, straightEdge_getCrossings.
  cbn [bind]. rewrite straightCrossing_placement. cbn [bind].
  rewrite straightCrossing_anchored. cbn [bind].
  rewrite straightCrossing_filtered. reflexivity.
Qed.

Lemma straightMovedPoint_anchored :
  applyAnchor exampleOptions exampleCanvas straightMovedPoint
  = Some straightAnchoredPoint.
Proof.
  unfold applyAnchor, straightMovedPoint, straightAnchoredPoint.
  cbn [CrossingPoint.nodeBounds]. rewrite exampleOptions_size. evaluate.
  replace (10 - 10 * 1) with 0 by lra.
  replace (50 - 10 * 1 * (1 / 2)) with 45 by lra.
  reflexivity.
Qed.

Lemma straightEdge_then_fivePointEdge :
  getCrossings SKEdge.bounds AABB_overlap point_asBounds noCalculatedBounds
               exampleOptions [straightEdge; fivePointEdge] exampleCanvas
  = (Some [straightCrossing straightCrossingPoint], [diagnostic]).
Proof.
  unfold getCrossings. cbn [getCrossings_from]. rewrite straightEdge_crossing.
  rewrite edgeCrossings_malformed; [reflexivity |].
  intros (n & Hn & Hlen). simpl in Hlen. lia.
Qed.

Lemma straightRoot_parentLinked : parentLinked straightRoot.
Proof.
  intros [| [| k]] m n Hm Hn.
  - destruct Hm as [<- | []]. destruct Hn as [<- | []].
    split; [reflexivity |]. split; [reflexivity |]. discriminate.
  - destruct Hm as [<- | []]. destruct Hn.
  - change (rowAtDepth (Datatypes.S (Datatypes.S k)) [straightRoot])
      with (rowAtDepth k []) in Hm.
    rewrite rowAtDepth_nil in Hm. destruct Hm.
Qed.

(** ** The root solver on binary64 numbers *)




(** The straight vertical segment in exact arithmetic: the cubic and the
    quadratic coefficient are zero, and [roots] answers with the linear
    solution. *)
Lemma verticalSegment_exact :
  roots [Point.mk (-30) 50; Point.mk (-10) 50; Point.mk 10 50; Point.mk 30 50]
        (Line.mk (Point.mk 0 0) (Point.mk 0 1)) = Some [1 / 2].
Proof.
  unfold roots, align, align_point. cbn [map Line.p1 Line.p2 Point.x Point.y].
  rewrite Math_atan2_y_axis, cos_neg, sin_neg, cos_PI2, sin_PI2.
  f_equal.
  replace ((-30 - 0) * - (1) + (50 - 0) * 0) with 30 by ring.
  replace ((-10 - 0) * - (1) + (50 - 0) * 0) with 10 by ring.
  replace ((10 - 0) * - (1) + (50 - 0) * 0) with (-10) by ring.
  replace ((30 - 0) * - (1) + (50 - 0) * 0) with (-30) by ring.
  unfold roots_of.
  replace (- (30) + 3 * 10 - 3 * -10 + -30 =? 0) with true
    by (symmetry; apply eqb_num_true; lra).
  replace (3 * 30 - 6 * 10 + 3 * -10 =? 0) with true
    by (symmetry; apply eqb_num_true; lra).
  replace (- 3 * 30 + 3 * 10 =? 0) with false
    by (symmetry; apply eqb_num_false; lra).
  replace (- (30) / (- 3 * 30 + 3 * 10)) with (1 / 2) by field.
  cbn [filter]. unfold reduce.
  replace (0 <=? 1 / 2) with true by (symmetry; apply leb_num_true; lra).
  replace (1 / 2 <=? 1) with true by (symmetry; apply leb_num_true; lra).
  reflexivity.
Qed.

(** C6.  A straight vertical segment with evenly spaced control points,
    asked for the value [0] on the y axis.  In exact arithmetic the cubic
    and the quadratic coefficient are zero and [roots] answers with the
    linear solution [1 / 2].  On binary64 numbers, with the angle, the
    cosine and the sine that the engines return for the line of the
    y axis and a correctly rounded square root, the aligned ordinates are
    off by the cosine, the quadratic coefficient is [2^-48] and not zero,
    [roots] leaves through the quadratic solution and answers [1], and
    [getValueAt] returns the end point [(50, 30)] of the segment, which is
    not on the line [y = 0]. *)
Theorem roots_vertical_segment (M : Double.Math) :
  Double.atan2 M 1 0 = Double.halfPi ->
  Double.cos M (- Double.halfPi) = 0x1.1a62633145c07p-54%float ->
  Double.sin M (- Double.halfPi) = (-1)%float ->
  (forall v, Double.sqrt M v = PrimFloat.sqrt v) ->
  roots [Point.mk (-30) 50; Point.mk (-10) 50; Point.mk 10 50; Point.mk 30 50]
        (Line.mk (Point.mk 0 0) (Point.mk 0 1)) = Some [1 / 2] /\
  map Double.Point.y (Double.align M Double.verticalSegment_xcoords Double.yAxisLine)
  = [0x1.e000000000001p+4; 0x1.4000000000002p+3;
     -0x1.3fffffffffffep+3; -0x1.dffffffffffffp+4]%float /\
  Double.coefficients 0x1.e000000000001p+4 0x1.4000000000002p+3
                      (-0x1.3fffffffffffep+3) (-0x1.dffffffffffffp+4)
  = (0, 0x1p-48, -60, 0x1.e000000000001p+4)%float /\
  Double.roots M Double.verticalSegment_xcoords Double.yAxisLine = Some [1%float] /\
  Double.getValueAt M 0 Double.verticalSegment 1
  = Some [Double.mkCurvePoint (Double.Point.mk 50 30) 1].
Proof.
  intros Hatan2 Hcos Hsin Hsqrt.
  split; [exact verticalSegment_exact |].
  assert (Haligned :
            Double.align M Double.verticalSegment_xcoords Double.yAxisLine
            = [Double.Point.mk 50 0x1.e000000000001p+4;
               Double.Point.mk 50 0x1.4000000000002p+3;
               Double.Point.mk 50 (-0x1.3fffffffffffep+3);
               Double.Point.mk 50 (-0x1.dffffffffffffp+4)]).
  { unfold Double.align, Double.align_point, Double.verticalSegment_xcoords,
      Double.yAxisLine.
    cbn [map Double.Line.p1 Double.Line.p2 Double.Point.x Double.Point.y].
    change (1 - 0)%float with 1%float. change (0 - 0)%float with 0%float.
    rewrite Hatan2, Hcos, Hsin. vm_compute. reflexivity. }
  assert (Hroots :
            Double.roots M Double.verticalSegment_xcoords Double.yAxisLine
            = Some [1%float]).
  { unfold Double.roots. rewrite Haligned.
    cbn [Double.Point.y]. unfold Double.roots_of.
    replace (Double.coefficients 0x1.e000000000001p+4 0x1.4000000000002p+3
                                 (-0x1.3fffffffffffep+3) (-0x1.dffffffffffffp+4))
      with (0, 0x1p-48, -60, 0x1.e000000000001p+4)%float by (vm_compute; reflexivity).
    cbv iota beta. change (0 =? 0)%float with true. change (0x1p-48 =? 0)%float with false.
    cbv iota zeta. rewrite Hsqrt. vm_compute. reflexivity. }
  split; [rewrite Haligned; reflexivity |].
  split; [vm_compute; reflexivity |].
  split; [exact Hroots |].
  unfold Double.getValueAt. cbn [Nat.eqb].
  change (map (fun p => Double.Point.mk (Double.Point.y p - 0) (Double.Point.x p - 0))
              Double.verticalSegment)
    with Double.verticalSegment_xcoords.
  change (Double.Line.mk (Double.Point.mk 0 0) (Double.Point.mk 0 1))
    with Double.yAxisLine.
  rewrite Hroots. vm_compute. reflexivity.
Qed.

(** The same segment laid horizontally and asked for the value [0] on the
    x axis, on binary64 numbers: the alignment rounds nothing, the cubic
    and the quadratic coefficient are zero, and [getValueAt] returns the
    point of the segment on the line [x = 0]. *)
Lemma horizontalSegment_binary64 :
  map Double.Point.y
      (Double.align Double.axisMath
         (map (fun p => Double.Point.mk (Double.Point.y p - 0) (Double.Point.x p - 0))
              Double.horizontalSegment)
         (Double.Line.mk (Double.Point.mk 0 0) (Double.Point.mk 1 0)))
  = [-30; -10; 10; 30]%float /\
  Double.coefficients (-30) (-10) 10 30 = (0, 0, 60, -30)%float /\
  Double.getValueAt Double.axisMath 0 Double.horizontalSegment 0
  = Some [Double.mkCurvePoint (Double.Point.mk 0 50) 0.5].
Proof. repeat split; vm_compute; reflexivity. Qed.

(** A curve that is constant on the axis, on binary64 numbers: asked for
    the coordinate of the curve at [0.5], [getValueAt] returns nothing,
    where every parameter is a solution. *)
Lemma getValueAt_constant_axis_binary64 :
  Double.computeCubic 0.5
    [Double.Point.mk 0 0; Double.Point.mk 0 1; Double.Point.mk 0 2; Double.Point.mk 0 3]
  = Some (Double.Point.mk 0 1.5) /\
  Double.getValueAt Double.axisMath 0
    [Double.Point.mk 0 0; Double.Point.mk 0 1; Double.Point.mk 0 2; Double.Point.mk 0 3] 0
  = Some [].
Proof. split; vm_compute; reflexivity. Qed.

(** *** The further properties on the instances *)

Lemma computeCubic_in_bounds_witness :
  exists pt b,
    computeCubic (1 / 2) straightRoute = Some pt /\
    getBoundsFromPoints straightRoute = Some b /\ inside pt b.
Proof.
  apply (computeCubic_in_bounds (1 / 2) (Point.mk (-30) 50) (Point.mk (-10) 50)
                                (Point.mk 10 50) (Point.mk 30 50) []).
  lra.
Defined.

Lemma isIncoming_probe_witness : 3 / 100 <= probeParameter (1 / 2) <= 97 / 100.
Proof.
  refine (proj1 (isIncoming_probe AABB_overlap point_asBounds (1 / 2)
                   (Canvas.bounds exampleCanvas)
                   (Point.mk (-30) 50) (Point.mk (-10) 50)
                   (Point.mk 10 50) (Point.mk 30 50) [] _)).
  lra.
Defined.

Lemma isCrossingBounds_straddles_witness :
  let b1 := straightBounds in
  let b2 := Bounds.mk (0 + 0) 0 (100 - 2 * 0) 100 in
  (Bounds.x b1 <=? Bounds.x b2)
  && (Bounds.x b1 + Bounds.width b1 >=? Bounds.x b2) = true \/
  (Bounds.x b1 <=? Bounds.x b2 + Bounds.width b2)
  && (Bounds.x b1 + Bounds.width b1 >=? Bounds.x b2 + Bounds.width b2) = true \/
  (Bounds.y b1 <=? Bounds.y b2)
  && (Bounds.y b1 + Bounds.height b1 >=? Bounds.y b2) = true \/
  (Bounds.y b1 <=? Bounds.y b2 + Bounds.height b2)
  && (Bounds.y b1 + Bounds.height b1 >=? Bounds.y b2 + Bounds.height b2) = true.
Proof.
  apply (isCrossingBounds_straddles AABB_overlap).
  - apply AABB_overlap_true.
  - apply (straightBounds_crosses 0). lra.
Defined.


Lemma getCrossings_edges_witness :
  map Crossing.edge [straightCrossing straightCrossingPoint]
  = filter (fun edge => validRoute (SKEdge.routingPoints edge))
           [straightEdge; fivePointEdge] /\
  [diagnostic]
  = map (fun _ => diagnostic)
        (filter (fun edge => negb (validRoute (SKEdge.routingPoints edge)))
                [straightEdge; fivePointEdge]).
Proof.
  exact (getCrossings_edges SKEdge.bounds AABB_overlap point_asBounds
                            noCalculatedBounds exampleOptions
                            [straightEdge; fivePointEdge] exampleCanvas
                            [straightCrossing straightCrossingPoint] [diagnostic]
                            straightEdge_then_fivePointEdge).
Defined.

Lemma edgeCrossings_segments_witness :
  exists n,
    (1 <= n)%nat /\
    length (routePoints SKEdge.bounds straightEdge) = (3 * n + 1)%nat /\
    length (Crossing.bezierPoints (straightCrossing straightCrossingPoint)) = n.
Proof.
  destruct (edgeCrossings_segments SKEdge.bounds AABB_overlap point_asBounds
              noCalculatedBounds exampleOptions straightEdge exampleCanvas
              (straightCrossing straightCrossingPoint) straightEdge_crossing)
    as (n & Hn & Hlen & Hsegments & _).
  exists n. split; [exact Hn |]. split; [exact Hlen | exact Hsegments].
Defined.

Lemma getCrossings_crossingPoints_witness :
  Forall (fun crossing =>
            Forall (fun cp =>
                      exists bPoints,
                        nth_error (Crossing.bezierPoints crossing)
                                  (CrossingPoint.section cp) = Some bPoints /\
                        crossesSegment AABB_overlap point_asBounds noCalculatedBounds
                                       exampleOptions (Crossing.edge crossing)
                                       exampleCanvas bPoints cp)
                   (Crossing.crossingPoints crossing))
         [straightCrossing straightCrossingPoint].
Proof.
  exact (getCrossings_crossingPoints SKEdge.bounds AABB_overlap point_asBounds
           noCalculatedBounds exampleOptions [straightEdge] exampleCanvas
           [straightCrossing straightCrossingPoint] [] straightEdge_getCrossings).
Defined.

Lemma transformWidthHeight_fit_witness :
  exists size,
    transformWidthHeight fitOptions (Bounds.mk 0 0 20 10) exampleCanvas = Some size /\
    proxyWidth size * 10 = proxyHeight size * 20 /\
    Rmax (proxyWidth size) (proxyHeight size) = Rmin 100 100 * (1 / 10).
Proof.
  apply (transformWidthHeight_fit fitOptions (Bounds.mk 0 0 20 10) exampleCanvas).
  - reflexivity.
  - read_fields. lra.
  - read_fields. lra.
  - unfold exampleCanvas, fitOptions. read_fields. cbn [sizePercentage].
    rewrite Rmin_left by lra. lra.
Defined.

Lemma applyAnchor_marker_contains_witness :
  inside (CrossingPoint.proxyPoint straightMovedPoint)
         (Bounds.mk (Point.x (CrossingPoint.proxyPoint straightAnchoredPoint))
                    (Point.y (CrossingPoint.proxyPoint straightAnchoredPoint))
                    (10 * 1) (10 * 1)).
Proof.
  apply (applyAnchor_marker_contains exampleOptions exampleCanvas
           straightMovedPoint straightAnchoredPoint
           (mkProxySize (10 * 1) (10 * 1) 1)).
  - exact straightMovedPoint_anchored.
  - apply exampleOptions_size.
  - cbn [proxyWidth]. lra.
  - cbn [proxyHeight]. lra.
Defined.

Lemma applyAnchors_idempotent_witness :
  applyAnchors exampleOptions [straightCrossing straightAnchoredPoint] exampleCanvas
  = Some [straightCrossing straightAnchoredPoint].
Proof.
  exact (applyAnchors_idempotent exampleOptions
           [straightCrossing straightMovedPoint]
           [straightCrossing straightAnchoredPoint] exampleCanvas
           straightCrossing_anchored).
Defined.

Lemma updateProxyPlacementPoints_on_curve_witness :
  Forall2
    (fun crossing crossing' =>
       Crossing.bezierPoints crossing' = Crossing.bezierPoints crossing /\
       forall a cross cross',
         nth_error (Crossing.crossingPoints crossing) a = Some cross ->
         nth_error (Crossing.crossingPoints crossing') a = Some cross' ->
         cross' = cross \/
         anchoredOnCurve exampleOptions Anchors.towardsMiddle exampleCanvas
                         crossing cross cross')
    [straightCrossing straightCrossingPoint] [straightCrossing straightMovedPoint].
Proof.
  exact (updateProxyPlacementPoints_on_curve AABB_overlap exampleOptions
           [straightCrossing straightCrossingPoint]
           [straightCrossing straightMovedPoint] exampleCanvas
           straightCrossing_placement).
Defined.

Lemma filterOverlappingWithNodes_subsequence_witness :
  exists kept,
    Subsequence kept [portCrossing] /\
    Forall2 (fun crossing crossing' =>
               Crossing.edge crossing' = Crossing.edge crossing /\
               Crossing.pointBounds crossing' = Crossing.pointBounds crossing /\
               Crossing.bezierPoints crossing' = Crossing.bezierPoints crossing /\
               Subsequence (Crossing.crossingPoints crossing')
                           (Crossing.crossingPoints crossing) /\
               Crossing.crossingPoints crossing' <> [])
            kept [portCrossing].
Proof.
  exact (filterOverlappingWithNodes_subsequence AABB_overlap exampleOptions
           [portCrossing] [portCrossing] treeRoot exampleCanvas
           portCrossing_filtered).
Defined.

Lemma getDepth_row_witness :
  getDepth (Model (SKNode.self westNode)) (SKNode.self straightRoot) = 1%nat /\
  ((0 < 1)%nat ->
   getDepth (Created (SKNode.self westNode)) (SKNode.self straightRoot) = 1%nat).
Proof.
  apply (getDepth_row straightRoot 1 [westNode] westNode).
  - exact straightRoot_parentLinked.
  - rewrite straightRoot_rows. reflexivity.
  - now left.
Defined.

Lemma registerFilters_lookup_witness :
  Map_get (registerFilters [] [("a"%string, 1%nat); ("b"%string, 2%nat);
                               ("a"%string, 3%nat)]) "a"%string
  = Some 3%nat.
Proof.
  exact (proj2 (registerFilters_lookup
                  (@nil (string * nat))
                  [("a"%string, 1%nat); ("b"%string, 2%nat); ("a"%string, 3%nat)]
                  (NoDup_nil string)) "a"%string).
Defined.

Lemma registerFilters_order_witness :
  registerFilters [("a"%string, 1%nat)] [("c"%string, 3%nat); ("b"%string, 2%nat)]
  = [("a"%string, 1%nat)] ++ [("c"%string, 3%nat); ("b"%string, 2%nat)].
Proof.
  apply registerFilters_order.
  - apply NoDup_cons; [intros [H | []]; discriminate H |].
    apply NoDup_cons; [intros [] | apply NoDup_nil].
  - intros id [<- | [<- | []]] [H | []]; discriminate H.
Defined.

Lemma unregisterFilters_stops_witness :
  unregisterFilters [("a"%string, 1%nat); ("b"%string, 2%nat)]
                    ([("a"%string, 1%nat)] ++ ("c"%string, 3%nat)
                                           :: [("b"%string, 2%nat)])
  = (false, snd (unregisterFilters [("a"%string, 1%nat); ("b"%string, 2%nat)]
                                   [("a"%string, 1%nat)])).
Proof.
  apply unregisterFilters_stops.
  - reflexivity.
  - cbv. intros [H | []]; discriminate H.
Defined.

Lemma placedCrossings_markers_witness :
  Forall (fun crossing =>
            In (Crossing.edge crossing) (allEdges straightRoot) /\
            crossesCanvas SKEdge.bounds AABB_overlap exampleCanvas
                          (Crossing.edge crossing) = true /\
            validRoute (SKEdge.routingPoints (Crossing.edge crossing)) = true /\
            Crossing.crossingPoints crossing <> [] /\
            Forall (fun cp =>
                      CrossingPoint.anchor cp = Anchors.topLeft /\
                      foundOnSegment AABB_overlap point_asBounds
                                         noCalculatedBounds exampleOptions
                                         exampleCanvas crossing cp)
                   (Crossing.crossingPoints crossing))
         [straightCrossing straightAnchoredPoint].
Proof.
  exact (placedCrossings_markers SKEdge.bounds AABB_overlap point_asBounds
           noCalculatedBounds exampleOptions straightRoot exampleCanvas
           [straightCrossing straightAnchoredPoint] [] straightRoot_placedCrossings).
Defined.

Lemma getCrossings_returns_witness :
  exists crossings console,
    getCrossings SKEdge.bounds AABB_overlap point_asBounds noCalculatedBounds
                 exampleOptions [straightEdge; portEdge] exampleCanvas
    = (Some crossings, console).
Proof.
  apply getCrossings_returns.
  intros edge [<- | [<- | []]]; split; discriminate.
Defined.

Lemma placedCrossings_returns_witness :
  exists result console,
    placedCrossings SKEdge.bounds AABB_overlap point_asBounds noCalculatedBounds
                    exampleOptions straightRoot exampleCanvas
    = (Some result, console).
Proof.
  apply placedCrossings_returns.
  - reflexivity.
  - intros edge [<- | []]. split; discriminate.
Defined.

Lemma roots_vertical_segment_witness :
  Double.roots Double.axisMath Double.verticalSegment_xcoords Double.yAxisLine
  = Some [1%float] /\
  Double.getValueAt Double.axisMath 0 Double.verticalSegment 1
  = Some [Double.mkCurvePoint (Double.Point.mk 50 30) 1].
Proof.
  destruct (roots_vertical_segment Double.axisMath) as (_ & _ & _ & Hroots & Hvalue);
    [reflexivity | reflexivity | reflexivity | reflexivity |].
  split; [exact Hroots | exact Hvalue].
Defined.
